(** * Calligrapher: the command-line story runner

    A shallow embedding of [calligrapher/src/cli.ts] and
    [calligrapher/src/compiler.ts], and the properties of the plain-text
    interpreter, the terminal presenter, the compiler adapter and the
    restore command that the specification states.

    Conventions of the embedding.
    - Text is a [string]: the bytes of the UTF-8 encoding of the text.
      Its characters ([chars]) are its code points.  The whitespace class
      of JavaScript ([trim], the regular expression classes [\s] and
      [\S]) and the line terminators that [.] excludes are those of
      ECMAScript, tested on characters.  A regular expression of the
      source reads UTF-16 code units; its patterns are delimited by
      characters of one code unit, so that what they capture is the same
      read by characters.  [toLowerCase] depends on the Unicode data of
      the runtime: where the program lowers the extension of a path it is
      a parameter of the platform, and the search for the tag [[exit]] is
      decided on the ASCII letters (see [mentions_exit]).
    - A JavaScript object literal used as a map keeps its own properties in
      a [gmap]; what a read finds on [Object.prototype] when the key is not
      an own property is modelled too, because the play loop reads the
      section map with keys taken from the story file.
    - The terminal, the file system, the prompt library, the compiler
      executable and the story engine are collaborators: what is written
      to the terminal is a list of [Event]s, the answers of the prompts
      are a list of [Input]s, the remaining ones are parameters.  A select
      prompt answers with the name of the entry the player takes, and
      replaces the strings of the array it is given by its own choice
      objects. *)

From Stdlib Require Import Ascii String ZArith.
From stdpp Require Import base option list strings pretty gmap.

(** ** JavaScript strings *)

Module Js.

(** [arr.includes(x)] on an array of strings. *)
Definition arr_includes (x : string) (l : list string) : bool :=
  existsb (String.eqb x) l.

(** The text with the given bytes. *)
Definition bytes (l : list nat) : string :=
  foldr (λ n s, String (ascii_of_nat n) s) EmptyString l.

(** *** Characters

    A text is held as the bytes of its UTF-8 encoding.  A character of
    the text (a code point) is a byte that is not a continuation byte
    together with the continuation bytes that follow it. *)

Definition is_continuation (c : ascii) : bool :=
  let n := nat_of_ascii c in (128 <=? n)%nat && (n <? 192)%nat.

Definition continues (s : string) : bool :=
  match s with
  | String c _ => is_continuation c
  | EmptyString => false
  end.

(** The characters of a text, in order. *)
Fixpoint chars (s : string) : list string :=
  match s with
  | EmptyString => []
  | String c s' =>
      if continues s' then
        match chars s' with
        | t :: ts => String c t :: ts
        | [] => [String c EmptyString]
        end
      else String c EmptyString :: chars s'
  end.

(** The text made of the given characters. *)
Fixpoint text_of (cs : list string) : string :=
  match cs with
  | [] => EmptyString
  | c :: cs' => c +:+ text_of cs'
  end.

(** [LineTerminator]: U+000A, U+000D, U+2028, U+2029. *)
Definition line_terminators : list string :=
  [ bytes [10]; bytes [13]; bytes [226; 128; 168]; bytes [226; 128; 169] ].

(** [WhiteSpace]: U+0009, U+000B, U+000C, U+FEFF and the space separators
    of Unicode: U+0020, U+00A0, U+1680, U+2000 to U+200A, U+202F, U+205F,
    U+3000. *)
Definition white_space : list string :=
  [ bytes [9]; bytes [11]; bytes [12]; bytes [239; 187; 191];
    bytes [32]; bytes [194; 160]; bytes [225; 154; 128];
    bytes [226; 128; 128]; bytes [226; 128; 129]; bytes [226; 128; 130];
    bytes [226; 128; 131]; bytes [226; 128; 132]; bytes [226; 128; 133];
    bytes [226; 128; 134]; bytes [226; 128; 135]; bytes [226; 128; 136];
    bytes [226; 128; 137]; bytes [226; 128; 138];
    bytes [226; 128; 175]; bytes [226; 129; 159]; bytes [227; 128; 128] ].

(** What [trim] strips and what [\s] matches: a character of
    [WhiteSpace] or [LineTerminator]. *)
Definition is_space (c : string) : bool :=
  arr_includes c (white_space ++ line_terminators).

(** [.] of a regular expression without the [s] flag. *)
Definition is_dot (c : string) : bool := negb (arr_includes c line_terminators).

Definition is_empty (s : string) : bool :=
  match s with
  | EmptyString => true
  | String _ _ => false
  end.

(** Truthiness of a string: only the empty string is falsy. *)
Definition truthy (s : string) : bool := negb (is_empty s).

(** The characters that are left when the leading whitespace is gone. *)
Fixpoint skip_spaces (cs : list string) : list string :=
  match cs with
  | [] => []
  | c :: cs' => if is_space c then skip_spaces cs' else cs
  end.

(** [s.trimStart()]; also what [parseInt] and [/^\s*/] skip. *)
Definition trimStart (s : string) : string := text_of (skip_spaces (chars s)).

(** [s.trim()] *)
Definition trim (s : string) : string :=
  text_of (rev (skip_spaces (rev (skip_spaces (chars s))))).

(** [s.startsWith(p)] *)
Fixpoint startsWith (p s : string) : bool :=
  match p, s with
  | EmptyString, _ => true
  | String a p', String b s' => if Ascii.eqb a b then startsWith p' s' else false
  | String _ _, EmptyString => false
  end.

(** [s.includes(p)] *)
Fixpoint includes (p s : string) : bool :=
  startsWith p s ||
  match s with
  | EmptyString => false
  | String _ s' => includes p s'
  end.

(** [s.endsWith(p)] *)
Fixpoint endsWith (p s : string) : bool :=
  String.eqb p s ||
  match s with
  | EmptyString => false
  | String _ s' => endsWith p s'
  end.

(** The capital letters of ASCII in lower case, every other byte as it
    is. *)
Definition lower_char (c : ascii) : ascii :=
  let n := nat_of_ascii c in
  if (65 <=? n)%nat && (n <=? 90)%nat then ascii_of_nat (n + 32) else c.

Fixpoint lower_ascii (s : string) : string :=
  match s with
  | EmptyString => EmptyString
  | String c s' => String (lower_char c) (lower_ascii s')
  end.

(** [s.split('\n')]: never the empty list, the empty string gives [[""]]. *)
Fixpoint split_nl (s : string) : list string :=
  match s with
  | EmptyString => [EmptyString]
  | String c s' =>
      if Ascii.eqb c "010"%char then EmptyString :: split_nl s'
      else match split_nl s' with
           | h :: t => String c h :: t
           | [] => [String c EmptyString]
           end
  end.

Definition nl : string := String "010"%char EmptyString.
Definition dquote : string := String (ascii_of_nat 34) EmptyString.

(** The property names every object literal inherits from
    [Object.prototype].  A read of one of them on an object that has no own
    property of that name gives a function (or, for [__proto__], the
    prototype object): a truthy value that is not iterable. *)
Definition object_prototype_keys : list string :=
  [ "constructor"; "__defineGetter__"; "__defineSetter__"; "hasOwnProperty";
    "__lookupGetter__"; "__lookupSetter__"; "isPrototypeOf";
    "propertyIsEnumerable"; "toString"; "valueOf"; "__proto__";
    "toLocaleString" ].

Definition inherited (k : string) : bool := arr_includes k object_prototype_keys.

(** [String(v)] of an inherited member, as V8 prints it. *)
Definition inherited_to_string (k : string) : string :=
  if String.eqb k "__proto__" then "[object Object]"
  else if String.eqb k "constructor" then "function Object() { [native code] }"
  else "function " +:+ k +:+ "() { [native code] }".

(** The property names an array has besides its elements and [length]:
    the members of [Array.prototype] (ECMAScript 2023, Node 22) and those
    of [Object.prototype]. *)
Definition array_member_keys : list string :=
  [ "constructor"; "at"; "concat"; "copyWithin"; "fill"; "find"; "findIndex";
    "findLast"; "findLastIndex"; "lastIndexOf"; "pop"; "push"; "reverse";
    "shift"; "unshift"; "slice"; "sort"; "splice"; "includes"; "indexOf";
    "join"; "keys"; "entries"; "values"; "forEach"; "filter"; "flat";
    "flatMap"; "map"; "every"; "some"; "reduce"; "reduceRight";
    "toLocaleString"; "toString"; "toReversed"; "toSorted"; "toSpliced";
    "with" ] ++ object_prototype_keys.

Fixpoint digits_value (s : string) (acc : nat) : option nat :=
  match s with
  | EmptyString => Some acc
  | String c s' =>
      match Ascii.is_nat c with
      | Some d => digits_value s' (10 * acc + d)
      | None => None
      end
  end.

(** The array index a property key denotes, when it is the canonical
    decimal text of a number. *)
Definition array_index (k : string) : option nat :=
  if is_empty k then None
  else match digits_value k 0 with
       | Some n => if String.eqb (pretty n) k then Some n else None
       | None => None
       end.

End Js.

(** ** Regular expressions

    A backtracking matcher for the fragment the source uses: a sequence of
    quantified character classes, some of them capture groups.  Greedy
    quantifiers try the longest repetition first, the lazy one the
    shortest; the first success in that order is the match, as in
    ECMAScript.  The matcher runs on the characters of the text.  (A
    pattern without the [u] flag runs on UTF-16 code units, two for a
    character beyond U+FFFF; both units of such a character are in [.]
    and in [\S] and none is in [\s] or a literal of the pattern, so the
    matches are the same.) *)

Module Regex.

Inductive quant : Type :=
  | One       (* c    *)
  | OptG      (* c?   *)
  | StarG     (* c*   *)
  | PlusG     (* c+   *)
  | PlusL.    (* c+?  *)

Record item : Type := Item {
  it_quant : quant;
  it_class : string -> bool;
  it_group : option nat
}.

Definition captures : Type := list (nat * string).

Definition capture (g : option nat) (matched : list string) (caps : captures)
  : captures :=
  match g with
  | Some n => (n, Js.text_of matched) :: caps
  | None => caps
  end.

Fixpoint group (n : nat) (caps : captures) : string :=
  match caps with
  | [] => EmptyString
  | (m, s) :: rest => if Nat.eqb n m then s else group n rest
  end.

Section Repeat.
Context {R : Type}.
Variable cls : string -> bool.
(** The continuation: the rest of the pattern, given the remaining input
    and the characters this item matched. *)
Variable k : list string -> list string -> option R.

(** [c*]: one more character first, the continuation only when that
    fails. [acc] is what the item has matched so far. *)
Fixpoint star_greedy (s acc : list string) : option R :=
  match s with
  | c :: s' =>
      if cls c then
        match star_greedy s' (acc ++ [c]) with
        | Some r => Some r
        | None => k s acc
        end
      else k s acc
  | [] => k s acc
  end.

(** [c*?]: the continuation first, one more character when that fails. *)
Fixpoint star_lazy (s acc : list string) : option R :=
  match k s acc with
  | Some r => Some r
  | None =>
      match s with
      | c :: s' => if cls c then star_lazy s' (acc ++ [c]) else None
      | [] => None
      end
  end.

Definition one (s : list string) : option R :=
  match s with
  | c :: s' => if cls c then k s' [c] else None
  | [] => None
  end.

Definition opt_greedy (s : list string) : option R :=
  match one s with
  | Some r => Some r
  | None => k s []
  end.

Definition plus_greedy (s : list string) : option R :=
  match s with
  | c :: s' => if cls c then star_greedy s' [c] else None
  | [] => None
  end.

Definition plus_lazy (s : list string) : option R :=
  match s with
  | c :: s' => if cls c then star_lazy s' [c] else None
  | [] => None
  end.
End Repeat.

(** Match a pattern at the start of [s]; the pattern need not reach the end
    of the input. *)
Fixpoint match_here (p : list item) (caps : captures) (s : list string)
  : option captures :=
  match p with
  | [] => Some caps
  | it :: rest =>
      let k := fun s' matched => match_here rest (capture (it_group it) matched caps) s' in
      match it_quant it with
      | One => one (it_class it) k s
      | OptG => opt_greedy (it_class it) k s
      | StarG => star_greedy (it_class it) k s []
      | PlusG => plus_greedy (it_class it) k s
      | PlusL => plus_lazy (it_class it) k s
      end
  end.

(** What one quantified class can match: the characters [m]. *)
Definition fits (q : quant) (cls : string -> bool) (m : list string) : Prop :=
  match q with
  | One => ∃ c, m = [c] ∧ cls c = true
  | OptG => m = [] ∨ ∃ c, m = [c] ∧ cls c = true
  | StarG => forallb cls m = true
  | PlusG | PlusL => m ≠ [] ∧ forallb cls m = true
  end.

(** The inputs that open with a match of the pattern: they can be cut
    into one part for each item, and a rest. *)
Fixpoint accepts (p : list item) (s : list string) : Prop :=
  match p with
  | [] => True
  | it :: rest =>
      ∃ m s', s = m ++ s' ∧ fits (it_quant it) (it_class it) m ∧ accepts rest s'
  end.

(** [s.match(re)] for a pattern that opens with [^] and has no flags: the
    only start position that can succeed is the first one. *)
Definition match_anchored (p : list item) (s : string) : option captures :=
  match_here p [] (Js.chars s).

Definition lit (c : string) : string -> bool := String.eqb c.
Definition non_space (c : string) : bool := negb (Js.is_space c).

End Regex.


(** ** The terminal and the player *)

(** The [chalk] styles the source applies. *)
Inductive Chalk : Type :=
  | White | Red | Yellow | Cyan | CyanBright | CyanBrightUnderline | Gray | Green
  | Unstyled.

(** What the program does to the outside world, in order. *)
Inductive Event : Type :=
  | Log (style : Chalk) (text : string)          (* console.log(chalk.style(text)) *)
  | LogError (style : Chalk) (text : string)     (* console.error(chalk.style(text)) *)
  | Boxed (text border : string)                 (* console.log(boxen(text, ...)) *)
  | Select (message : string) (choices : list string)   (* enquirer select prompt *)
  | Confirm (message : string)                   (* enquirer confirm prompt *)
  | AskLine (message initial : string)           (* enquirer input prompt *)
  | Probe (path : string)                        (* fs.existsSync *)
  | Chmod (path mode : string)                   (* fs.chmodSync *)
  | Exec (cmd : string)                          (* child_process.execSync *)
  | ReadFile (path : string)                     (* fs.readFileSync *)
  | WriteFile (path content : string).           (* fs.writeFileSync *)

(** One answer of a prompt, as the value the program receives: a boolean
    from the confirm prompt, a string from the input prompt and from the
    select prompt.  The select prompt of [enquirer] answers with the name
    of the entry taken: [displayAndChoose] looks the answer up among the
    names.  [runTextStory] declares the answer of its select prompt a
    number; the declaration has no effect at run time. *)
Inductive Input : Type :=
  | Answer (yes : bool)
  | Typed (line : string).

(** How a procedure ends. *)
Inductive Outcome (A : Type) : Type :=
  | Ret (a : A)                 (* returns normally *)
  | Throw (message : string)    (* throws an Error with this message *)
  | Exit (code : Z)             (* process.exit(code) *)
  | Waiting                     (* suspended at a prompt: no answer is left *)
  | Outside.                    (* the next answer is of a kind the prompt does not give *)
Arguments Ret {A} a.
Arguments Throw {A} message.
Arguments Exit {A} code.
Arguments Waiting {A}.
Arguments Outside {A}.

(** ** The plain-text story interpreter ([runTextStory]) *)

Module TextStory.

Import Js Regex.

(** [/^\*?\s*(.+?)\s*->\s*(\S+)/] *)
Definition choice_pattern : list item :=
  [ Item OptG (lit "*") None;
    Item StarG is_space None;
    Item PlusL is_dot (Some 1);
    Item StarG is_space None;
    Item One (lit "-") None;
    Item One (lit ">") None;
    Item StarG is_space None;
    Item PlusG non_space (Some 2) ].

(** [.replace(/^\*\s*/, '')] *)
Definition strip_marker (s : string) : string :=
  match s with
  | String "*" rest => trimStart rest
  | _ => s
  end.

(** [.replace(/[\[\]]/g, '')] *)
Fixpoint strip_brackets (s : string) : string :=
  match s with
  | EmptyString => EmptyString
  | String c rest =>
      if Ascii.eqb c "["%char || Ascii.eqb c "]"%char then strip_brackets rest
      else String c (strip_brackets rest)
  end.

(** [.replace(/===/g, '')]: every occurrence, left to right, not
    overlapping. *)
Fixpoint strip_markers (s : string) : string :=
  match s with
  | String "=" (String "=" (String "=" rest)) => strip_markers rest
  | String c rest => String c (strip_markers rest)
  | EmptyString => EmptyString
  end.

(** *** Parsing the sections *)

(** The object [story].  [own] holds its own properties.  Assigning to
    [story['__proto__']] does not create a property: it replaces the
    prototype by the assigned array, which [proto_lines] then holds. *)
Record Story : Type := MkStory {
  own : gmap string (list string);
  proto_lines : option (list string)
}.

Definition empty_story : Story := MkStory ∅ None.

(** [story[name] = []] *)
Definition story_reset (name : string) (st : Story) : Story :=
  if String.eqb name "__proto__" then MkStory (own st) (Some [])
  else MkStory (<[name := []]> (own st)) (proto_lines st).

(** [story[name].push(line)], for a name [story_reset] was applied to. *)
Definition story_push (name line : string) (st : Story) : Story :=
  if String.eqb name "__proto__"
  then MkStory (own st) ((λ l, l ++ [line]) <$> proto_lines st)
  else MkStory (alter (λ l, l ++ [line]) name (own st)) (proto_lines st).

(** The lines [story[name]] holds after parsing, when it holds an array
    that the parser made. *)
Definition section_lines (st : Story) (name : string) : option (list string) :=
  if String.eqb name "__proto__" then proto_lines st else own st !! name.

Record Parser : Type := MkParser {
  story : Story;
  currentSection : string;
  allSections : list string
}.

Definition is_marker (line : string) : bool := startsWith "===" line.

Definition marker_name (line : string) : string := trim (strip_markers line).

(** The body of the first loop of [runTextStory]. *)
Definition parse_line (p : Parser) (line : string) : Parser :=
  if is_marker line then
    let name := marker_name line in
    MkParser (story_reset name (story p)) name
             (if arr_includes name (allSections p) then allSections p
              else allSections p ++ [name])
  else if truthy (currentSection p) && truthy (trim line) then
    MkParser (story_push (currentSection p) line (story p))
             (currentSection p) (allSections p)
  else p.

(** [content.split('\n').filter(line => line.trim())] *)
Definition content_lines (content : string) : list string :=
  filter (λ line, truthy (trim line) = true) (split_nl content).

Definition parse_lines (lines : list string) : Parser :=
  foldl parse_line (MkParser empty_story "" []) lines.

Definition parse (content : string) : Story :=
  story (parse_lines (content_lines content)).

(** *** One section *)

(** [line.toLowerCase().includes('[exit]')].  The lower-case mapping of
    Unicode leaves every ASCII character but the capital letters as it
    is, and besides the capital letters of ASCII two characters only have
    an ASCII letter in their image: U+212A, which becomes [k], and U+0130,
    which becomes an [i] followed by the combining dot U+0307.  Neither
    takes part in an occurrence of the tag, which has no [k] and whose [i]
    is followed by a [t].  So the line passes the test exactly when it
    holds the tag with its four letters in either ASCII case, which the
    search in the line with its ASCII letters in lower case decides. *)
Definition mentions_exit (line : string) : bool :=
  includes "[exit]" (lower_ascii line).

(** The test of the second loop: the line is set aside for the menu. *)
Definition is_choice_line (line : string) : bool :=
  startsWith "*" line || mentions_exit line.

Definition choiceLines (lines : list string) : list string :=
  filter (λ l, is_choice_line l = true) lines.

(** The lines the second loop prints, in the order it prints them. *)
Definition narrative (lines : list string) : list string :=
  filter (λ l, is_choice_line l = false) lines.

(** What a choice line gives when the pattern matches: the text of the
    choice and its target. *)
Definition extract (choice : string) : option (string * string) :=
  match match_anchored choice_pattern choice with
  | Some caps =>
      Some (trim (strip_brackets (strip_marker (group 1 caps))), group 2 caps)
  | None => None
  end.

(** The object [targets]: assigning a string to [targets['__proto__']] is
    ignored. *)
Definition targets_set (k v : string) (t : gmap string string) : gmap string string :=
  if String.eqb k "__proto__" then t else <[k := v]> t.

(** The third loop: the texts of the menu and the map of their targets. *)
Definition extract_step (acc : list string * gmap string string) (choice : string)
  : list string * gmap string string :=
  match extract choice with
  | Some (text, target) => (acc.1 ++ [text], targets_set text target acc.2)
  | None => acc
  end.

Definition extract_all (cls : list string) : list string * gmap string string :=
  foldl extract_step ([], ∅) cls.

Definition choices_of (lines : list string) : list string :=
  (extract_all (choiceLines lines)).1.

Definition targets_of (lines : list string) : gmap string string :=
  (extract_all (choiceLines lines)).2.

(** *** The play loop *)

(** The value of the variable [current]: a string, or what a read of
    [targets] found on [Object.prototype]. *)
Inductive Current : Type :=
  | Name (s : string)
  | Inherited (k : string).

(** [current] as a property key and inside a template string. *)
Definition current_key (c : Current) : string :=
  match c with
  | Name s => s
  | Inherited k => inherited_to_string k
  end.

(** What [story[current]] evaluates to, as far as the loop tells values
    apart: by the test [!story[current]] and by the [for ... of] over
    it. *)
Inductive Lookup : Type :=
  | Lines (lines : list string)  (* an array of lines, or a text: its characters *)
  | Undefined                    (* undefined, or another falsy value *)
  | NotIterable.                 (* a function, an object or a number other than 0 *)

(** A read of an object whose prototype is the array [lines], for a key
    that is not an own property of the object: an element of the array (a
    text), its length, or a member of [Array.prototype] or
    [Object.prototype]. *)
Definition through_array (lines : list string) (k : string) : Lookup :=
  match array_index k with
  | Some index =>
      match lines !! index with
      | Some line => if truthy line then Lines (chars line) else Undefined
      | None => Undefined
      end
  | None =>
      if String.eqb k "length" then
        if Nat.eqb (length lines) 0 then Undefined else NotIterable
      else if arr_includes k array_member_keys then NotIterable
      else Undefined
  end.

Definition story_get (st : Story) (k : string) : Lookup :=
  match own st !! k with
  | Some lines => Lines lines
  | None =>
      match proto_lines st with
      | Some lines =>
          if String.eqb k "__proto__" then Lines lines else through_array lines k
      | None => if inherited k then NotIterable else Undefined
      end
  end.

(** What [choices[selection]] evaluates to.  When the prompt has run,
    the array holds no text any more: [enquirer] puts its choice object
    in the place of every entry of the array it is given. *)
Inductive Selected : Type :=
  | Choice                      (* the choice object in the place of an entry *)
  | Length (n : nat)            (* the length of the array *)
  | Member (k : string)         (* a member of Array.prototype or Object.prototype *)
  | Nothing.                    (* undefined *)

(** [choices[selection]] for the answer of the select prompt. *)
Definition array_get (choices : list string) (selection : Input) : option Selected :=
  match selection with
  | Typed key =>
      Some match array_index key with
           | Some index =>
               if (index <? length choices)%nat then Choice else Nothing
           | None =>
               if String.eqb key "length" then Length (length choices)
               else if arr_includes key array_member_keys then Member key
               else Nothing
           end
  | Answer _ => None
  end.

(** [String(v)] of a member of an array, as V8 prints it: the source text
    of a built-in function, and the empty text for [Array.prototype]. *)
Definition member_to_string (k : string) : string :=
  if String.eqb k "__proto__" then ""
  else if String.eqb k "constructor" then "function Array() { [native code] }"
  else "function " +:+ k +:+ "() { [native code] }".

(** [selected] as a property key. *)
Definition selected_key (selected : Selected) : string :=
  match selected with
  | Choice => "[object Object]"
  | Length n => pretty n
  | Member k => member_to_string k
  | Nothing => "undefined"
  end.

(** [targets[selected] || current] *)
Definition next_section (t : gmap string string) (selected : Selected)
    (current : Current) : Current :=
  let k := selected_key selected in
  match t !! k with
  | Some target => if truthy target then Name target else current
  | None => if inherited k then Inherited k else current
  end.

Definition quit_label : string := "Quit".

(** [selected === 'Quit']: none of the values [choices[selection]] can
    have is a text. *)
Definition is_quit (selected : Selected) : bool :=
  match selected with
  | Choice | Length _ | Member _ | Nothing => false
  end.

(** [choices] after [choices.push('Quit')]. *)
Definition menu (choices : list string) : list string := choices ++ [quit_label].

Definition prompt_message : string := "What do you do?".

(** [`\n✖ Section "${current}" not found!\n`] *)
Definition not_found_message (current : string) : string :=
  nl +:+ "✖ Section " +:+ dquote +:+ current +:+ dquote +:+ " not found!" +:+ nl.

Definition end_of_section : string := nl +:+ "[End of this section]" +:+ nl.

Record Run : Type := MkRun {
  events : list Event;          (* what was printed and asked, in order *)
  ending : Outcome Current;     (* how the loop ended, with [current] *)
  unread : list Input           (* the answers not consumed *)
}.

(** The [while (playAgain)] loop.  Every iteration that goes on to another
    one has consumed an answer of the player. *)
Fixpoint play (st : Story) (inputs : list Input) (current : Current) : Run :=
  match story_get st (current_key current) with
  | Undefined =>
      MkRun [Log Red (not_found_message (current_key current))] (Ret current) inputs
  | NotIterable => MkRun [] (Throw "lines is not iterable") inputs
  | Lines lines =>
      let printed := map (Log White) (narrative lines) in
      let choices := choices_of lines in
      let targets := targets_of lines in
      match choices with
      | [] => MkRun (printed ++ [Log Gray end_of_section]) (Ret current) inputs
      | _ :: _ =>
          let asked := printed ++ [Select prompt_message (menu choices)] in
          match inputs with
          | [] => MkRun asked Waiting []
          | selection :: rest =>
              match array_get (menu choices) selection with
              | None => MkRun asked Outside rest
              | Some selected =>
                  if is_quit selected
                  then MkRun asked (Ret current) rest
                  else
                    let r := play st rest (next_section targets selected current) in
                    MkRun (asked ++ events r) (ending r) (unread r)
              end
          end
      end
  end.

End TextStory.

(** ** Sequencing effects *)

(** The part of the world the program reads and changes: the files (path
    to content), the answers the player has not given yet, and the events
    so far. *)
Record World : Type := MkWorld {
  files : gmap string string;
  inputs : list Input;
  trace : list Event
}.

Definition M (A : Type) : Type := World -> Outcome A * World.

Global Instance M_ret : MRet M := λ A a w, (Ret a, w).

Global Instance M_bind : MBind M := λ A B f m w,
  match m w with
  | (Ret a, w') => f a w'
  | (Throw msg, w') => (Throw msg, w')
  | (Exit code, w') => (Exit code, w')
  | (Waiting, w') => (Waiting, w')
  | (Outside, w') => (Outside, w')
  end.

Definition emit (e : Event) : M unit :=
  λ w, (Ret (), MkWorld (files w) (inputs w) (trace w ++ [e])).

Definition emit_all (es : list Event) : M unit :=
  λ w, (Ret (), MkWorld (files w) (inputs w) (trace w ++ es)).

(** [throw new Error(msg)] *)
Definition throw {A : Type} (msg : string) : M A := λ w, (Throw msg, w).

(** [process.exit(code)] *)
Definition exit {A : Type} (code : Z) : M A := λ w, (Exit code, w).

(** [try { body } catch (error) { handler(error.message) }] *)
Definition try_catch {A : Type} (body : M A) (handler : string -> M A) : M A :=
  λ w,
  match body w with
  | (Throw msg, w') => handler msg w'
  | r => r
  end.

(** The world after more events. *)
Definition logged (w : World) (es : list Event) : World :=
  MkWorld (files w) (inputs w) (trace w ++ es).

Definition get_files : M (gmap string string) := λ w, (Ret (files w), w).

Definition set_files (fs : gmap string string) : M unit :=
  λ w, (Ret (), MkWorld fs (inputs w) (trace w)).

(** ** The terminal presenter ([displayText]) *)

Module Presenter.

Import Js.

(** [figures.cross] *)
Definition figures_cross : string := "✖".

Definition displayText (text : string) (tags : list string) : list Event :=
  if negb (truthy (trim text)) then []
  else if arr_includes "title" tags then
    [Log CyanBrightUnderline (nl +:+ text +:+ nl)]
  else if arr_includes "scene" tags then
    [Log Yellow (nl +:+ "━━━ " +:+ text +:+ " ━━━" +:+ nl)]
  else if arr_includes "combat" tags then
    [Log Red (nl +:+ figures_cross +:+ " " +:+ text +:+ nl)]
  else if arr_includes "dialog" tags then
    [Log Cyan ("  " +:+ dquote +:+ text +:+ dquote)]
  else
    [Log White text].

(** [printHeader(title)] *)
Definition printHeader (title : string) : list Event :=
  [ Boxed (if truthy title then " " +:+ title +:+ " " else " Adventure Started ") "green";
    Log Gray (" Use arrow keys to navigate, Enter to select, S to save" +:+ nl) ].

(** [printFooter()] *)
Definition printFooter : list Event :=
  [ Boxed " 🏁 Story Complete 🏁 " "yellow";
    Log Gray (nl +:+ "Thank you for using Calligrapher!" +:+ nl) ].

End Presenter.

(** ** The platform *)

(** A call that returns or throws an [Error] with a message. *)
Inductive Try (A : Type) : Type :=
  | Ok (a : A)
  | Raise (message : string).
Arguments Ok {A} a.
Arguments Raise {A} message.

(** A parsed JSON document.  The fields of an object are in the order of
    the document. *)
#[warnings="-register-all"]
Inductive Json : Type :=
  | JNull
  | JBool (b : bool)
  | JNumber (literal : string)
  | JString (s : string)
  | JArray (items : list Json)
  | JObject (fields : list (string * Json)).

(** What Node gives the program: the [os], [path] and [process] values it
    reads, when a write fails, and what running a command does to the
    files. *)
Record Node : Type := MkNode {
  platform : string;                      (* os.platform() *)
  homedir : string;                       (* os.homedir() *)
  dirname : string;                       (* __dirname *)
  cwd : string;                           (* process.cwd() *)
  join : list string -> string;           (* path.join(...) *)
  extname : string -> string;             (* path.extname(p) *)
  basename : string -> string;            (* path.basename(p) *)
  toLowerCase : string -> string;         (* s.toLowerCase(), on the Unicode data of the runtime *)
  write_error : string -> option string;  (* the message writeFileSync throws *)
  json_parse : string -> Try Json;        (* JSON.parse(text) *)
  json_stringify : Json -> string;        (* JSON.stringify(value, null, 2) *)
  now_iso : string;                       (* new Date().toISOString() *)
  run : string -> gmap string string -> option string * gmap string string
                                          (* execSync: the message it throws, the files after *)
}.

Section Fs.
Variable node : Node.

(** [fs.existsSync(p)] *)
Definition existsSync (p : string) : M bool :=
  _ ← emit (Probe p);
  fs ← get_files;
  mret (bool_decide (is_Some (fs !! p))).

Definition read_error (p : string) : string :=
  "ENOENT: no such file or directory, open '" +:+ p +:+ "'".

(** [fs.readFileSync(p, 'utf-8')] *)
Definition readFileSync (p : string) : M string :=
  _ ← emit (ReadFile p);
  fs ← get_files;
  match fs !! p with
  | Some content => mret content
  | None => throw (read_error p)
  end.

(** [fs.writeFileSync(p, content)] *)
Definition writeFileSync (p content : string) : M unit :=
  _ ← emit (WriteFile p content);
  match write_error node p with
  | Some msg => throw msg
  | None => fs ← get_files; set_files (<[p := content]> fs)
  end.

(** [try { fs.chmodSync(p, mode) } catch {}] *)
Definition chmodSync_quiet (p mode : string) : M unit := emit (Chmod p mode).

(** [execSync(cmd, { stdio: ['pipe', 'pipe', 'pipe'] })] *)
Definition execSync (cmd : string) : M unit :=
  _ ← emit (Exec cmd);
  fs ← get_files;
  let '(err, fs') := run node cmd fs in
  _ ← set_files fs';
  match err with
  | Some msg => throw msg
  | None => mret ()
  end.

End Fs.

(** A leading byte-order mark: [content.charCodeAt(0) === 0xFEFF], on the
    bytes of the text. *)
Definition bom : string :=
  String (ascii_of_nat 239) (String (ascii_of_nat 187) (String (ascii_of_nat 191) EmptyString)).

Fixpoint drop_string (n : nat) (s : string) : string :=
  match n, s with
  | S n', String _ s' => drop_string n' s'
  | _, _ => s
  end.

(** [inputPath.replace(/\.ink$/, '.json')] *)
Fixpoint replace_ink_suffix (s : string) : string :=
  if String.eqb s ".ink" then ".json"
  else match s with
       | EmptyString => EmptyString
       | String c s' => String c (replace_ink_suffix s')
       end.

(** ** The compiler adapter ([compiler.ts]) *)

Module Compiler.

Import Js.

Record CompilerResult : Type := MkResult {
  success : bool;
  outputPath : option string;
  error : option string;
  inklecatePath : option string
}.

Record CompileOptions : Type := MkOptions {
  opt_inputPath : string;
  opt_outputPath : option string;
  opt_verbose : bool
}.

Section WithNode.
Variable node : Node.

Definition exe_name : string :=
  if String.eqb (platform node) "win32" then "inklecate_win.exe" else "inklecate".

Definition possiblePaths : list string :=
  [ join node [dirname node; ".."; ".."; "bin"; "inklecate"];
    join node [dirname node; ".."; ".."; "bin"; exe_name];
    join node [cwd node; "bin"; "inklecate"];
    join node [cwd node; "bin"; exe_name];
    join node [dirname node; ".."; "bin"; "inklecate"];
    "/usr/local/bin/inklecate";
    "/usr/bin/inklecate";
    join node [homedir node; ".local"; "bin"; "inklecate"];
    join node [homedir node; "bin"; "inklecate"];
    join node [homedir node; ".nvm"; "versions"; "node"; "v22.15.0"; "lib";
               "node_modules"; "@6i"; "ink-tools"; "bin"; "inklecate";
               "inklecate_win.exe"] ].

Definition linuxPaths : list string :=
  [ "/usr/bin/inklecate"; "/usr/local/bin/inklecate" ].

(** The first loop of [findInklecate]. *)
Fixpoint probe_possible (ps : list string) : M (option string) :=
  match ps with
  | [] => mret None
  | p :: rest =>
      found ← existsSync p;
      if found : bool then
        _ ← (if negb (String.eqb (platform node) "win32") && negb (endsWith ".exe" p)
             then chmodSync_quiet p "755" else mret ());
        mret (Some p)
      else probe_possible rest
  end.

(** The second loop of [findInklecate]. *)
Fixpoint probe_linux (ps : list string) : M (option string) :=
  match ps with
  | [] => mret None
  | p :: rest =>
      found ← existsSync p;
      if found : bool then mret (Some p) else probe_linux rest
  end.

Definition findInklecate : M (option string) :=
  r ← probe_possible possiblePaths;
  match r with
  | Some p => mret (Some p)
  | None =>
      if String.eqb (platform node) "linux" then probe_linux linuxPaths
      else mret None
  end.

(** The places [findInklecate] looks at when it finds nothing. *)
Definition all_probes : list string :=
  possiblePaths
  ++ (if String.eqb (platform node) "linux" then linuxPaths else []).

Definition monoPath : string := "/usr/bin/mono".

Definition command (inklecate finalOutput inputPath : string) : string :=
  if endsWith ".exe" inklecate then
    monoPath +:+ " " +:+ dquote +:+ inklecate +:+ dquote +:+ " -o " +:+ dquote
      +:+ finalOutput +:+ dquote +:+ " " +:+ dquote +:+ inputPath +:+ dquote
  else
    dquote +:+ inklecate +:+ dquote +:+ " -o " +:+ dquote
      +:+ finalOutput +:+ dquote +:+ " " +:+ dquote +:+ inputPath +:+ dquote.

Definition failure (msg : string) (inklecate : option string) : CompilerResult :=
  MkResult false None (Some msg) inklecate.

Definition when (b : bool) (m : M unit) : M unit := if b then m else mret ().

(** [outputPath || defaultOutput] *)
Definition final_output (inputPath : string) (outputPath : option string) : string :=
  match outputPath with
  | Some o => if truthy o then o else replace_ink_suffix inputPath
  | None => replace_ink_suffix inputPath
  end.

Definition compileInk (options : CompileOptions) : M CompilerResult :=
  let inputPath := opt_inputPath options in
  let verbose := opt_verbose options in
  present ← existsSync inputPath;
  if negb present then
    mret (failure ("Input file not found: " +:+ inputPath) None)
  else
    let ext := toLowerCase node (extname node inputPath) in
    if negb (String.eqb ext ".ink") then
      mret (failure ("Expected .ink file, got: " +:+ ext) None)
    else
      found ← findInklecate;
      match found with
      | None => mret (failure "inklecate compiler not found." (Some ""))
      | Some inklecate =>
          if negb (truthy inklecate) then
            mret (failure "inklecate compiler not found." (Some ""))
          else
          let finalOutput := final_output inputPath (opt_outputPath options) in
          try_catch
            (_ ← when verbose (emit_all
                   [ Log Unstyled ("Compiling: " +:+ inputPath);
                     Log Unstyled ("Output: " +:+ finalOutput);
                     Log Unstyled ("Compiler: " +:+ inklecate) ]);
             _ ← execSync node (command inklecate finalOutput inputPath);
             content ← readFileSync finalOutput;
             _ ← when (startsWith bom content)
                   (writeFileSync node finalOutput (drop_string 3 content));
             _ ← when verbose (emit (Log Unstyled "Compilation successful!"));
             mret (MkResult true (Some finalOutput) None None))
            (λ msg, mret (failure ("Compilation failed: " +:+ msg) None))
      end.

(** [getInklecateInstallationInstructions()] *)
Definition installation_instructions : string :=
"
Install inklecate using one of these methods:

1. Download from GitHub:
   https://github.com/inkle/ink/releases

2. Using npm (ink-to-json package):
   npm install -g @6i/ink-tools

3. Using Homebrew (macOS):
   brew install inklecate

4. Build from source:
   git clone https://github.com/inkle/ink.git
   cd ink
   ./configure
   make

After installation, ensure 'inklecate' is in your PATH.

For Calligrapher, you can also place inklecate in:
  - ./bin/inklecate/ (project local)
  - /usr/local/bin/ (system wide)
  - ~/.local/bin/ (user local)
".

Definition inkToJson (inputPath : string) (output : option string) : M string :=
  result ← compileInk (MkOptions inputPath output false);
  if negb (success result) then
    let msg := default "" (error result) in
    _ ← when (includes "inklecate compiler not found" msg)
          (emit_all [ LogError Unstyled (nl +:+ msg);
                      LogError Unstyled installation_instructions ]);
    throw msg
  else mret (default "" (outputPath result)).

End WithNode.
End Compiler.

(** ** The story engine *)

(** The interface of the [inkjs] engine the program relies on.  An
    instance is a value here; a method that changes the engine returns the
    changed instance. *)
Record Engine : Type := MkEngine {
  instance : Type;
  new_story : option Json -> Try instance;         (* new Story(x); None is undefined *)
  can_continue : instance -> bool;                 (* story.canContinue *)
  continue : instance -> Try (option string * instance);   (* story.Continue() *)
  current_choices : instance -> list string;       (* the text of story.currentChoices *)
  current_tags : instance -> option (list string); (* story.currentTags *)
  choose : Z -> instance -> Try instance;          (* story.ChooseChoiceIndex(i) *)
  load_json : option Json -> instance -> Try instance;     (* story.state.LoadJson(x) *)
  to_json : instance -> string;                    (* story.ToJson() *)
  state_to_json : instance -> string               (* story.state.ToJson() *)
}.

(** [value.name] for a value [JSON.parse] returned and a name that no
    string, number, boolean or array has as a property ([storyJson],
    [state]): [None] is [undefined].  A repeated field keeps its last
    value. *)
Definition field (name : string) (value : Json) : Try (option Json) :=
  match value with
  | JNull =>
      Raise ("Cannot read properties of null (reading '" +:+ name +:+ "')")
  | JObject fields =>
      Ok (snd <$> last (filter (λ kv, kv.1 = name) fields))
  | _ => Ok None
  end.

(** ** The command-line interface ([cli.ts]) *)

Module Cli.

Import Js Presenter Compiler.

Record CLIOptions : Type := MkCLIOptions {
  verbose : nat;
  silent : bool
}.

Record StoryState : Type := MkStoryState {
  currentText : string;
  choices : list string;
  canContinue : bool;
  tags : list string
}.

Definition of_try {A : Type} (t : Try A) : M A :=
  match t with
  | Ok a => mret a
  | Raise msg => throw msg
  end.

Definition waiting {A : Type} : M A := λ w, (Waiting, w).
Definition outside {A : Type} : M A := λ w, (Outside, w).

Definition set_inputs (ins : list Input) : M unit :=
  λ w, (Ret (), MkWorld (files w) ins (trace w)).

Definition thanks : string := nl +:+ "Thanks for playing!" +:+ nl.

Section WithPlatform.
Variable node : Node.
Variable engine : Engine.
Variable options : CLIOptions.

Local Abbreviation story := (instance engine).

(** [advanceStory()]: the engine after the call and the new
    [currentState]. *)
Definition advanceStory (s : story) : M (story * StoryState) :=
  '(text, s1) ← (if can_continue engine s then
                   '(t, s1) ← of_try (continue engine s);
                   mret (match t with
                         | Some t => if truthy t then t else ""
                         | None => ""
                         end, s1)
                 else mret ("", s));
  let choices := current_choices engine s1 in
  let tags := default [] (current_tags engine s1) in
  _ ← emit_all (displayText text tags);
  mret (s1, MkStoryState text choices
              (can_continue engine s1 || negb (Nat.eqb (length choices) 0)) tags).

(** The entries of the menu of [displayAndChoose]: name and value. *)
Definition entries (choices : list string) : list (string * Z) :=
  imap (λ index choice, (pretty (index + 1)%nat +:+ ". " +:+ choice, Z.of_nat index)) choices
  ++ [("0. Quit", (-1)%Z); ("S. Save game", (-2)%Z)].

Definition defaultPath : string := "calligrapher-save.json".

Definition saveData (s : story) : Json :=
  JObject [ ("storyJson", JString (to_json engine s));
            ("state", JString (state_to_json engine s));
            ("savedAt", JString (now_iso node));
            ("version", JString "1.0") ].

(** [saveGame()] once the player has typed the path. *)
Definition saveGame_write (s : story) (savePath : string) : M unit :=
  try_catch
    (_ ← writeFileSync node savePath (json_stringify node (saveData s));
     emit (Log Green (nl +:+ "✓ Game saved to: " +:+ savePath +:+ nl)))
    (λ msg, emit (LogError Red (nl +:+ "✖ Failed to save game: " +:+ msg +:+ nl))).

(** [runStoryLoop()] with [displayAndChoose], [pressToContinue] and
    [saveGame] in place, for an engine that is loaded.  [ins] are the
    answers not given yet; every iteration that goes on to another one has
    consumed one. *)
Fixpoint storyLoop (s : story) (ins : list Input) : M unit :=
  '(s1, st) ← advanceStory s;
  if canContinue st || negb (Nat.eqb (length (choices st)) 0) then
    if negb (Nat.eqb (length (choices st)) 0) then
      let menu := entries (choices st) in
      _ ← emit (Select "What do you do?" (menu.*1));
      match ins with
      | [] => waiting
      | Typed choice :: rest =>
          _ ← set_inputs rest;
          match snd <$> find (λ c, bool_decide (c.1 = choice)) menu with
          | Some (-1)%Z => _ ← emit (Log Gray thanks); exit 0
          | Some (-2)%Z =>
              _ ← emit (AskLine "Save file path:" defaultPath);
              match rest with
              | [] => waiting
              | Typed savePath :: rest' =>
                  _ ← set_inputs rest';
                  _ ← saveGame_write s1 savePath;
                  storyLoop s1 rest'
              | _ :: _ => outside
              end
          | Some selectedIndex =>
              s2 ← of_try (choose engine selectedIndex s1);
              storyLoop s2 rest
          | None => storyLoop s1 rest
          end
      | _ :: _ => outside
      end
    else
      _ ← emit (Confirm "Press Enter to continue... (or Q to quit)");
      match ins with
      | [] => waiting
      | Answer cont :: rest =>
          _ ← set_inputs rest;
          if cont then storyLoop s1 rest
          else _ ← emit (Log Gray thanks); exit 0
      | _ :: _ => outside
      end
  else mret ().

Definition runStoryLoop (s : story) : M unit := λ w, storyLoop s (inputs w) w.

(** [runJsonStory(filePath)] *)
Definition runJsonStory (filePath : string) : M unit :=
  try_catch
    (jsonContent ← readFileSync filePath;
     let jsonContent := if startsWith bom jsonContent then drop_string 3 jsonContent
                        else jsonContent in
     s ← of_try (new_story engine (Some (JString jsonContent)));
     _ ← emit_all (printHeader ("Playing: " +:+ basename node filePath));
     _ ← runStoryLoop s;
     emit_all printFooter)
    (λ msg, throw ("Failed to load story: " +:+ msg)).

(** [runTextStory(filePath)] *)
Definition runTextStory (filePath : string) : M unit :=
  content ← readFileSync filePath;
  let story := TextStory.parse content in
  _ ← emit (Log CyanBright (nl +:+ "📖 Loaded: " +:+ filePath +:+ nl));
  _ ← (λ w, let r := TextStory.play story (inputs w) (TextStory.Name "start") in
            (match TextStory.ending r with
             | Ret _ => Ret ()
             | Throw msg => Throw msg
             | Exit code => Exit code
             | Waiting => Waiting
             | Outside => Outside
             end,
             MkWorld (files w) (TextStory.unread r) (trace w ++ TextStory.events r)));
  emit_all printFooter.

(** What [runInkStory] prints first in verbose mode. *)
Definition compiling_notice (filePath : string) : list Event :=
  if (0 <? verbose options)%nat
  then [Log Cyan (nl +:+ "📦 Compiling: " +:+ filePath +:+ nl)]
  else [].

(** What [runInkStory] prints when it finds no compiler. *)
Definition no_compiler_notice : list Event :=
  [ Log Yellow (nl +:+ "⚠️  inklecate compiler not found!" +:+ nl);
    Log Unstyled "Please install inklecate from:";
    Log Unstyled ("  https://github.com/inkle/ink/releases" +:+ nl);
    Log Unstyled ("For now, using basic text story mode..." +:+ nl) ].

(** What the [catch] of [runInkStory] prints. *)
Definition fallback_notice (msg : string) : list Event :=
  [ LogError Red (nl +:+ "✖ Compilation failed: " +:+ msg);
    Log Gray (nl +:+ "Falling back to text mode...") ].

(** [runInkStory(filePath)] *)
Definition runInkStory (filePath : string) : M unit :=
  _ ← emit_all (compiling_notice filePath);
  inklecatePath ← findInklecate node;
  if negb (truthy (default "" inklecatePath)) then
    _ ← emit_all no_compiler_notice;
    runTextStory filePath
  else
    let jsonPath := replace_ink_suffix filePath in
    try_catch
      (result ← compileInk node
                  (MkOptions filePath (Some jsonPath) (0 <? verbose options)%nat);
       _ ← (if negb (success result) then throw (default "" (error result))
            else mret ());
       runJsonStory jsonPath)
      (λ msg,
        _ ← emit_all (fallback_notice msg);
        runTextStory filePath).

(** [runFile(filePath)] *)
Definition runFile (filePath : string) : M unit :=
  try_catch
    (_ ← emit_all (printHeader "Calligrapher");
     present ← existsSync filePath;
     if negb present then throw ("File not found: " +:+ filePath)
     else
       let ext := toLowerCase node (extname node filePath) in
       if String.eqb ext ".ink" then runInkStory filePath
       else if String.eqb ext ".json" then runJsonStory filePath
       else if String.eqb ext ".txt" || String.eqb ext ".md" then runTextStory filePath
       else emit_all
              [ Log Yellow (nl +:+ "📝 Unsupported file format: " +:+ ext +:+ nl);
                Log Unstyled "Supported formats:";
                Log Unstyled "  - .ink  Ink source files (requires inklecate)";
                Log Unstyled "  - .json Compiled Ink stories";
                Log Unstyled "  - .txt  Simple text adventures" ])
    (λ msg,
      _ ← emit (LogError Red (nl +:+ "✖ Error: " +:+ msg));
      exit 1).

(** What [compile] prints first. *)
Definition compile_banner (filePath : string) : Event :=
  Log CyanBright (nl +:+ "📄 Compiling: " +:+ filePath +:+ nl).

(** What the [catch] of [compile] prints. *)
Definition compile_failed (msg : string) : Event :=
  LogError Red (nl +:+ "✖ Compilation failed: " +:+ msg +:+ nl).

(** [compile(filePath)] *)
Definition compile (filePath : string) : M unit :=
  _ ← emit (compile_banner filePath);
  try_catch
    (jsonPath ← inkToJson node filePath None;
     emit (Log Green ("✓ Compiled: " +:+ jsonPath +:+ nl)))
    (λ msg,
      _ ← emit (compile_failed msg);
      exit 1).

(** What [replay] prints first. *)
Definition restore_banner (filePath : string) : Event :=
  Log CyanBright (nl +:+ "🔄 Restoring: " +:+ filePath +:+ nl).

(** What the [catch] of [replay] prints. *)
Definition restore_failed (msg : string) : Event :=
  LogError Red (nl +:+ "✖ Failed to restore game: " +:+ msg +:+ nl).

(** The [catch] of [replay]. *)
Definition on_restore_error (msg : string) : M unit :=
  _ ← emit (restore_failed msg);
  exit 1.

(** [replay(filePath)] *)
Definition replay (filePath : string) : M unit :=
  _ ← emit (restore_banner filePath);
  try_catch
    (saveContent ← readFileSync filePath;
     saveData ← of_try (json_parse node saveContent);
     storyJson ← of_try (field "storyJson" saveData);
     s ← of_try (new_story engine storyJson);
     state ← of_try (field "state" saveData);
     s ← of_try (load_json engine state s);
     _ ← emit (Log Green ("✓ Game restored!" +:+ nl));
     _ ← runStoryLoop s;
     emit_all printFooter)
    on_restore_error.

(** How [replay] ends when something throws before the story loop: the one
    report, and exit code 1. *)
Definition restore_fails (filePath : string) (w : World) (msg : string) : Prop :=
  replay filePath w
  = (Exit 1, logged w [restore_banner filePath; ReadFile filePath; restore_failed msg]).

(** How [replay] goes on when nothing has thrown and the engine [s] holds
    the stored state. *)
Definition restore_resumes (filePath : string) (w : World) (s : story) : Prop :=
  replay filePath w
  = try_catch (_ ← runStoryLoop s; emit_all printFooter) on_restore_error
      (logged w [restore_banner filePath; ReadFile filePath;
                 Log Green ("✓ Game restored!" +:+ nl)]).

(** What [inkjs] does with [undefined]: [new Story(undefined)] throws
    when it reads the ink version of its argument, and
    [state.LoadJson(undefined)] throws when it parses its argument. *)
Definition rejects_undefined : Prop :=
  (∃ msg, new_story engine None = Raise msg)
  ∧ (∀ s, ∃ msg, load_json engine None s = Raise msg).

End WithPlatform.

(** A save document that lacks the field [name]: it is not an object with
    a field of that name. *)
Definition lacks (name : string) (doc : Json) : Prop :=
  ∀ fields, doc = JObject fields → Forall (λ kv, kv.1 ≠ name) fields.

End Cli.

(** ** What the specification says of the presenter, in its words *)

Module PresenterSpec.

Import Js Presenter.

(** The presentation styles of the specification. *)
Inductive Presentation : Type := Title | Scene | Combat | Dialog | Plain.

(** The tag that asks for a style; the plain style has none. *)
Definition tag_of (p : Presentation) : option string :=
  match p with
  | Title => Some "title"
  | Scene => Some "scene"
  | Combat => Some "combat"
  | Dialog => Some "dialog"
  | Plain => None
  end.

(** The position in the priority order title > scene > combat > dialog >
    plain: the smaller, the higher the priority. *)
Definition rank (p : Presentation) : nat :=
  match p with
  | Title => 0
  | Scene => 1
  | Combat => 2
  | Dialog => 3
  | Plain => 4
  end.

(** The tag of [p] is in the list; the plain style is always available. *)
Definition present (p : Presentation) (tags : list string) : Prop :=
  match tag_of p with
  | Some t => t ∈ tags
  | None => True
  end.

(** [p] is the style of the highest-priority tag present, or the plain
    style when none of the four tags is present. *)
Definition highest (p : Presentation) (tags : list string) : Prop :=
  present p tags ∧ ∀ q, rank q < rank p → ¬ present q tags.

(** How each style shows a text. *)
Definition render (p : Presentation) (text : string) : Event :=
  match p with
  | Title => Log CyanBrightUnderline (nl +:+ text +:+ nl)
  | Scene => Log Yellow (nl +:+ "━━━ " +:+ text +:+ " ━━━" +:+ nl)
  | Combat => Log Red (nl +:+ figures_cross +:+ " " +:+ text +:+ nl)
  | Dialog => Log Cyan ("  " +:+ dquote +:+ text +:+ dquote)
  | Plain => Log White text
  end.

(** The text is empty or made of whitespace only. *)
Definition blank (s : string) : bool := forallb is_space (chars s).

(** The [if] chain of [displayText] picks the style [chosen tags]. *)
Definition chosen (tags : list string) : Presentation :=
  if arr_includes "title" tags then Title
  else if arr_includes "scene" tags then Scene
  else if arr_includes "combat" tags then Combat
  else if arr_includes "dialog" tags then Dialog
  else Plain.

End PresenterSpec.

(** ** What the specification says of the plain-text format, in its words *)

Module TextStorySpec.

Import Js TextStory.

(** The characters open with an arrow token followed by a target name:
    after the arrow and optional whitespace comes a character that is not
    whitespace. *)
Definition arrow_here (cs : list string) : bool :=
  match cs with
  | a :: b :: after =>
      String.eqb a "-" && String.eqb b ">"
      && match skip_spaces after with
         | [] => false
         | _ :: _ => true
         end
  | _ => false
  end.

Fixpoint arrow_target (cs : list string) : bool :=
  match cs with
  | [] => false
  | _ :: cs' => arrow_here cs || arrow_target cs'
  end.

(** Somewhere in [s] there is an arrow token followed by a target name. *)
Definition has_arrow_target (s : string) : bool := arrow_target (chars s).

(** The form of a line that gives a menu entry: an optional [*],
    optional whitespace, a label of one character or more that holds no
    line terminator, optional whitespace, the arrow [->], optional
    whitespace, and a target of one character or more that holds no
    whitespace; anything may follow.  [label] and [target] are the
    characters of those two parts. *)
Definition choice_form (line : string) (label target : list string) : Prop :=
  ∃ star ws1 ws2 ws3 rest,
    chars line = star ++ ws1 ++ label ++ ws2 ++ "-" :: ">" :: ws3 ++ target ++ rest
    ∧ (star = [] ∨ star = ["*"])
    ∧ forallb is_space ws1 = true
    ∧ label ≠ [] ∧ forallb is_dot label = true
    ∧ forallb is_space ws2 = true
    ∧ forallb is_space ws3 = true
    ∧ target ≠ [] ∧ forallb (λ c, negb (is_space c)) target = true.

(** The line has a label, an arrow and a target. *)
Definition arrow_shaped (line : string) : Prop :=
  ∃ label target, choice_form line label target.

(** The text of the menu entry of a label: without a leading [*] and the
    whitespace after it, without brackets, without whitespace at its
    ends. *)
Definition label_text (label : list string) : string :=
  trim (strip_brackets (strip_marker (text_of label))).

(** The line is set aside for the menu: it begins with [*] or holds the
    tag [[exit]] in any letter case. *)
Definition set_aside (line : string) : Prop :=
  startsWith "*" line = true ∨ mentions_exit line = true.

(** [kept] holds, in their order, the lines of [lines] that satisfy
    [P]. *)
Fixpoint kept_by (P : string → Prop) (lines kept : list string) : Prop :=
  match lines with
  | [] => kept = []
  | l :: rest =>
      (P l ∧ ∃ kept', kept = l :: kept' ∧ kept_by P rest kept')
      ∨ (¬ P l ∧ kept_by P rest kept)
  end.

(** A choice line in the words of the specification: it begins with [*]
    and contains an arrow token followed by a target name. *)
Definition spec_choice_line (line : string) : bool :=
  startsWith "*" line && has_arrow_target line.

(** What the specification prints for a section: every line that is not a
    choice line, in order. *)
Definition spec_narrative (lines : list string) : list string :=
  filter (λ l, spec_choice_line l = false) lines.

(** The lines that follow a marker, up to the next marker. *)
Fixpoint following (lines : list string) : list string :=
  match lines with
  | [] => []
  | l :: rest => if is_marker l then [] else l :: following rest
  end.

(** What the loop shows for a section before it waits for the player. *)
Definition shown (lines : list string) : list Event :=
  map (Log White) (narrative lines)
  ++ [Select prompt_message (choices_of lines ++ [quit_label])].

(** The text of a file from its lines. *)
Definition unlines (lines : list string) : string :=
  foldr (λ l acc, l +:+ nl +:+ acc) "" lines.

(** A story whose menu has an entry named [length] and whose choice [3]
    leads to [constructor], a section the file does not define. *)
Definition story_by_length : string :=
  unlines [ "=== start ===";
            "Pick a door.";
            "* [length] -> start";
            "* [3] -> constructor";
            "=== right_path ===";
            "A friendly merchant." ].

(** A story whose first choice leads to a section named [constructor],
    which the file does not define. *)
Definition story_to_constructor : string :=
  unlines [ "=== start ===";
            "You stand at a crossroads.";
            "* [Go left] -> constructor";
            "* [Go right] -> right_path";
            "=== right_path ===";
            "A friendly merchant." ].

(** A story that defines the section [cave] twice. *)
Definition story_twice : string :=
  unlines [ "=== start ===";
            "Intro";
            "=== cave ===";
            "A dark cave.";
            "* [Back] -> start";
            "=== cave ===";
            "A bright cave.";
            "=== end ===";
            "Bye" ].

(** A story with a bullet line that has no arrow, and an exit line that
    has no leading [*]. *)
Definition story_bullets : string :=
  unlines [ "=== start ===";
            "Welcome";
            "* A bullet point";
            "Leave [exit] -> end";
            "=== end ===";
            "Bye" ].

End TextStorySpec.

(** ** Sample platforms, engines and files *)

Module Samples.

Import Js.

(** [s.split('/')] *)
Fixpoint split_slash (s : string) : list string :=
  match s with
  | EmptyString => [EmptyString]
  | String c s' =>
      if Ascii.eqb c "/"%char then EmptyString :: split_slash s'
      else match split_slash s' with
           | h :: t => String c h :: t
           | [] => [String c EmptyString]
           end
  end.

(** One step of the normalisation of a path: the segments kept so far are
    in reverse order. *)
Definition normalize_step (absolute : bool) (kept : list string) (seg : string)
  : list string :=
  if String.eqb seg "" || String.eqb seg "." then kept
  else if String.eqb seg ".." then
    match kept with
    | [] => if absolute then [] else [".."]
    | top :: below => if String.eqb top ".." then ".." :: kept else below
    end
  else seg :: kept.

Definition join_with_slash (segs : list string) : string :=
  match segs with
  | [] => ""
  | s :: rest => foldl (λ acc x, acc +:+ "/" +:+ x) s rest
  end.

(** [path.join] of the POSIX flavour of Node, for paths without a trailing
    slash. *)
Definition posix_join (parts : list string) : string :=
  let joined := join_with_slash (filter (λ p, truthy p = true) parts) in
  let absolute := startsWith "/" joined in
  let kept := rev (foldl (normalize_step absolute) [] (split_slash joined)) in
  let body := join_with_slash kept in
  if absolute then "/" +:+ body
  else if is_empty body then "." else body.

(** [path.basename] of the POSIX flavour, for paths without a trailing
    slash. *)
Definition posix_basename (p : string) : string :=
  default "" (last (split_slash p)).

Fixpoint last_dot_suffix (s : string) : option string :=
  match s with
  | EmptyString => None
  | String c s' =>
      match last_dot_suffix s' with
      | Some e => Some e
      | None => if Ascii.eqb c "."%char then Some s else None
      end
  end.

(** [path.extname] of the POSIX flavour: from the last dot of the base
    name, unless that dot opens the base name. *)
Definition posix_extname (p : string) : string :=
  match posix_basename p with
  | EmptyString => ""
  | String _ rest =>
      if String.eqb (posix_basename p) ".." then ""
      else default "" (last_dot_suffix rest)
  end.

(** A parser that knows two documents: the empty object, and [null]. *)
Definition parse_sample (text : string) : Try Json :=
  if String.eqb text "{}" then Ok (JObject [])
  else if String.eqb text "null" then Ok JNull
  else Raise "Unexpected token in JSON at position 0".

(** A Linux machine whose compiler, when there is one, always fails.  Its
    paths are ASCII, and so is its lower-case mapping. *)
Definition linux : Node :=
  MkNode "linux" "/home/player" "/opt/calligrapher/dist" "/home/player/games"
         posix_join posix_extname posix_basename lower_ascii
         (λ _, None) parse_sample (λ _, "{}") "2024-01-01T00:00:00.000Z"
         (λ cmd fs, (Some ("Command failed: " +:+ cmd), fs)).

(** What [JSON.parse(undefined)] throws. *)
Definition undefined_json : string :=
  dquote +:+ "undefined" +:+ dquote +:+ " is not valid JSON".

(** An engine that has nothing to tell: it takes every story and every
    state it is given and, as [inkjs] does, throws when it is given
    [undefined]. *)
Definition lenient : Engine :=
  MkEngine unit
    (λ x, match x with
          | Some _ => Ok ()
          | None => Raise "Cannot read properties of undefined (reading 'inkVersion')"
          end)
    (λ _, false) (λ s, Ok (None, s)) (λ _, [])
    (λ _, None) (λ _ s, Ok s)
    (λ x s, match x with
            | Some _ => Ok s
            | None => Raise undefined_json
            end)
    (λ _, "{}") (λ _, "{}").

Definition world_of (fs : list (string * string)) (ins : list Input) : World :=
  MkWorld (list_to_map fs) ins [].

(** An ink file and no compiler anywhere. *)
Definition no_compiler : World :=
  world_of [("/home/player/games/tale.ink", TextStorySpec.story_twice)] [].

(** An ink file and a compiler in the system directory. *)
Definition with_compiler : World :=
  world_of [("/home/player/games/tale.ink", TextStorySpec.story_twice);
            ("/usr/local/bin/inklecate", "#!")] [].

(** A text story whose menu has an entry named [length], and the player
    taking it. *)
Definition door_story : World :=
  world_of [("/home/player/games/door.txt", TextStorySpec.story_by_length)]
           [Typed "length"].

(** A save file that holds the empty object. *)
Definition empty_save : World :=
  world_of [("/home/player/save.json", "{}")] [].

End Samples.


(** ** The command line ([parseArgs]) *)

Module Args.

Import Js.

(** A JavaScript number as [parseInt] gives it: not a number, the integer
    that the double holds, or an infinity.  Negative zero is identified
    with zero. *)
Inductive Number : Type :=
  | NaN
  | Int (z : Z)
  | Infinity (negative : bool).

(** The double nearest to a natural number, ties to the even mantissa of
    53 bits; nothing when that is beyond the largest double. *)
Definition nearest_double (n : Z) : option Z :=
  if (n <? 2 ^ 53)%Z then Some n
  else
    let e := (Z.log2 n - 52)%Z in
    let q := Z.shiftr n e in
    let r := (n - Z.shiftl q e)%Z in
    let half := Z.shiftl 1 (e - 1) in
    let q' := if (half <? r)%Z || ((r =? half)%Z && Z.odd q) then (q + 1)%Z else q in
    let v := Z.shiftl q' e in
    if (v <? 2 ^ 1024)%Z then Some v else None.

Fixpoint leading_digits (s : string) : list nat :=
  match s with
  | EmptyString => []
  | String c s' =>
      match Ascii.is_nat c with
      | Some d => d :: leading_digits s'
      | None => []
      end
  end.

Definition digits_to_Z (ds : list nat) : Z :=
  foldl (λ acc d, 10 * acc + Z.of_nat d)%Z 0%Z ds.

(** [parseInt(s, 10)]: leading whitespace, a sign, then the longest run of
    decimal digits, whose value is rounded to a double. *)
Definition parseInt (s : string) : Number :=
  let t := trimStart s in
  let '(negative, body) :=
    match t with
    | String "-" r => (true, r)
    | String "+" r => (false, r)
    | _ => (false, t)
    end in
  match leading_digits body with
  | [] => NaN
  | ds =>
      match nearest_double (digits_to_Z ds) with
      | Some n => Int (if negative then - n else n)
      | None => Infinity negative
      end
  end.

(** [parseInt(argv[++i], 10)] where the argument may be missing:
    [parseInt(undefined, 10)] is not a number. *)
Definition parseInt_arg (v : option string) : Number :=
  match v with
  | Some s => parseInt s
  | None => NaN
  end.

Inductive CommandType : Type := Run | Compile | Watch | Replay.

(** [['run', 'compile', 'watch', 'replay'].includes(arg)] *)
Definition command_of (arg : string) : option CommandType :=
  if String.eqb arg "run" then Some Run
  else if String.eqb arg "compile" then Some Compile
  else if String.eqb arg "watch" then Some Watch
  else if String.eqb arg "replay" then Some Replay
  else None.

(** The object [options]; [help] and [version] are [false] while the
    property is absent. *)
Record Flags : Type := MkFlags {
  verbose : nat;
  silent : bool;
  color : bool;
  noSave : bool;
  watch : bool;
  json : bool;
  seed : option Number;
  output : option string;
  saveFile : option string;
  help : bool;
  version : bool
}.

Record ParsedArgs : Type := MkParsed {
  command : option CommandType;
  file : option string;
  options : Flags;
  remaining : list string
}.

Definition initial : ParsedArgs :=
  MkParsed None None
    (MkFlags 0 false true false false true None None None false false) [].

Definition with_options (f : Flags → Flags) (p : ParsedArgs) : ParsedArgs :=
  MkParsed (command p) (file p) (f (options p)) (remaining p).

Definition set_help (o : Flags) : Flags :=
  MkFlags (verbose o) (silent o) (color o) (noSave o) (watch o) (json o)
          (seed o) (output o) (saveFile o) true (version o).
Definition set_version (o : Flags) : Flags :=
  MkFlags (verbose o) (silent o) (color o) (noSave o) (watch o) (json o)
          (seed o) (output o) (saveFile o) (help o) true.
Definition more_verbose (o : Flags) : Flags :=
  MkFlags (verbose o + 1) (silent o) (color o) (noSave o) (watch o) (json o)
          (seed o) (output o) (saveFile o) (help o) (version o).
Definition set_silent (o : Flags) : Flags :=
  MkFlags (verbose o) true (color o) (noSave o) (watch o) (json o)
          (seed o) (output o) (saveFile o) (help o) (version o).
Definition set_no_color (o : Flags) : Flags :=
  MkFlags (verbose o) (silent o) false (noSave o) (watch o) (json o)
          (seed o) (output o) (saveFile o) (help o) (version o).
Definition set_no_save (o : Flags) : Flags :=
  MkFlags (verbose o) (silent o) (color o) true (watch o) (json o)
          (seed o) (output o) (saveFile o) (help o) (version o).
Definition set_watch (o : Flags) : Flags :=
  MkFlags (verbose o) (silent o) (color o) (noSave o) true (json o)
          (seed o) (output o) (saveFile o) (help o) (version o).
Definition set_json (o : Flags) : Flags :=
  MkFlags (verbose o) (silent o) (color o) (noSave o) (watch o) true
          (seed o) (output o) (saveFile o) (help o) (version o).
Definition set_seed (n : Number) (o : Flags) : Flags :=
  MkFlags (verbose o) (silent o) (color o) (noSave o) (watch o) (json o)
          (Some n) (output o) (saveFile o) (help o) (version o).
Definition set_output (v : option string) (o : Flags) : Flags :=
  MkFlags (verbose o) (silent o) (color o) (noSave o) (watch o) (json o)
          (seed o) v (saveFile o) (help o) (version o).
Definition set_saveFile (v : option string) (o : Flags) : Flags :=
  MkFlags (verbose o) (silent o) (color o) (noSave o) (watch o) (json o)
          (seed o) (output o) v (help o) (version o).

Definition is_any (names : list string) (arg : string) : bool :=
  arr_includes arg names.

(** [arg.endsWith('.ink') || arg.endsWith('.json') || arg.endsWith('.txt')
    || arg.endsWith('.md')] *)
Definition story_suffix (arg : string) : bool :=
  endsWith ".ink" arg || endsWith ".json" arg || endsWith ".txt" arg
  || endsWith ".md" arg.

(** The [for] loop of [parseArgs] from the argument at hand on; an option
    that takes a value consumes the argument after it, whatever it is. *)
Fixpoint parse_loop (p : ParsedArgs) (argv : list string) : ParsedArgs :=
  match argv with
  | [] => p
  | arg :: rest =>
      if is_any ["--help"; "-h"] arg then with_options set_help p
      else if is_any ["--version"; "-V"] arg then with_options set_version p
      else if is_any ["--verbose"; "-v"] arg then
        parse_loop (with_options more_verbose p) rest
      else if is_any ["--silent"; "-s"] arg then
        parse_loop (with_options set_silent p) rest
      else if String.eqb arg "--no-color" then
        parse_loop (with_options set_no_color p) rest
      else if String.eqb arg "--no-save" then
        parse_loop (with_options set_no_save p) rest
      else if String.eqb arg "--seed" then
        match rest with
        | v :: rest' => parse_loop (with_options (set_seed (parseInt_arg (Some v))) p) rest'
        | [] => with_options (set_seed (parseInt_arg None)) p
        end
      else if is_any ["--output"; "-o"] arg then
        match rest with
        | v :: rest' => parse_loop (with_options (set_output (Some v)) p) rest'
        | [] => with_options (set_output None) p
        end
      else if is_any ["--watch"; "-w"] arg then
        parse_loop (with_options set_watch p) rest
      else if String.eqb arg "--json" then
        parse_loop (with_options set_json p) rest
      else if is_any ["--save"; "-S"] arg then
        match rest with
        | v :: rest' => parse_loop (with_options (set_saveFile (Some v)) p) rest'
        | [] => with_options (set_saveFile None) p
        end
      else if startsWith "-" arg then parse_loop p rest
      else
        match command p, command_of arg with
        | None, Some c =>
            parse_loop (MkParsed (Some c) (file p) (options p) (remaining p)) rest
        | _, _ =>
            if negb (bool_decide (is_Some (file p))) && story_suffix arg then
              parse_loop (MkParsed (command p) (Some arg) (options p) (remaining p)) rest
            else
              parse_loop (MkParsed (command p) (file p) (options p)
                                   (remaining p ++ [arg])) rest
        end
  end.

(** [parseArgs()], from [process.argv.slice(2)]. *)
Definition parseArgs (argv : list string) : ParsedArgs := parse_loop initial argv.

(** The arguments that switch something on or off and take no value, and
    the arguments with a leading dash that [parseArgs] skips. *)
Definition plain_flag (arg : string) : bool :=
  startsWith "-" arg
  && negb (is_any ["--help"; "-h"; "--version"; "-V"; "--seed"; "--output"; "-o";
                   "--save"; "-S"] arg).

(** The arguments without a leading dash. *)
Definition word (arg : string) : bool := negb (startsWith "-" arg).

End Args.

(** ** The other entry of the compiler adapter ([compileWithInkToJson]) *)

Module CompilerMore.

Import Js Compiler.

Section WithNode.
Variable node : Node.

(** [`${inklecatePath}`]: the text of [null] when nothing was found. *)
Definition path_text (inklecatePath : option string) : string :=
  default "null" inklecatePath.

(** [compileWithInkToJson(inputPath, outputPath)] *)
Definition compileWithInkToJson (inputPath : string) (output : option string) : M string :=
  present ← existsSync inputPath;
  if negb present then throw ("Input file not found: " +:+ inputPath)
  else
    let finalOutput := final_output inputPath output in
    inklecatePath ← findInklecate node;
    let cmd := command (path_text inklecatePath) finalOutput inputPath in
    try_catch
      (_ ← execSync node cmd;
       content ← readFileSync finalOutput;
       _ ← when (startsWith bom content)
             (writeFileSync node finalOutput (drop_string 3 content));
       mret finalOutput)
      (λ msg, throw ("Compilation failed: " +:+ msg)).

End WithNode.

(** The first candidate that exists, in the order of the list. *)
Definition first_present (fs : gmap string string) (ps : list string) : option string :=
  find (λ p, bool_decide (is_Some (fs !! p))) ps.

(** The events of the first loop of [findInklecate]: the probes up to the
    first candidate that exists, and the change of mode of that one. *)
Fixpoint probes_until (node : Node) (fs : gmap string string) (ps : list string)
  : list Event :=
  match ps with
  | [] => []
  | p :: rest =>
      Probe p ::
      if bool_decide (is_Some (fs !! p)) then
        if negb (String.eqb (platform node) "win32") && negb (endsWith ".exe" p)
        then [Chmod p "755"] else []
      else probes_until node fs rest
  end.

(** A text without its byte-order mark, when it opens with one. *)
Definition without_bom (content : string) : string :=
  if startsWith bom content then drop_string 3 content else content.

End CompilerMore.

(** ** The entry point ([index.ts]) *)

Module Main.

Import Js Compiler Cli Args.

(** The text [printHelp] prints. *)
Definition help_text : string :=
"
╔══════════════════════════════════════════════════════════════════════╗
║                    Calligrapher - Ink Runner                         ║
║                 Interactive Fiction CLI Tool                        ║
╚══════════════════════════════════════════════════════════════════════╝

Usage: calligrapher [command] <file> [options]

Commands:
  run <file.ink>      Run an Ink story file
  compile <file.ink>  Compile .ink to .json only
  watch <file.ink>    Watch for changes and recompile
  replay <file.save>  Restore a saved game state

Options:
  -V, --version       Show version
  -h, --help          Show this help
  -v, --verbose       Increase verbosity (use -vv or -vvv for more)
  -s, --silent        Suppress non-essential output
  -o, --output <file> Set output file (for compile)
  -w, --watch         Enable watch mode
  --no-save           Disable auto-save
  --seed <number>     Set random seed for reproducible runs

Examples:
  calligrapher story.ink                    Run story directly
  calligrapher run story.ink               Explicit run command
  calligrapher compile story.ink           Compile to JSON
  calligrapher watch story.ink -vv          Watch with verbose output
  calligrapher story.ink -o output.json     Custom output file

Supported formats:
  *.ink   - Ink source files (requires inklecate)
  *.json  - Compiled Ink stories
  *.txt   - Simple text adventures

For .ink files, Calligrapher will automatically compile using inklecate.
Download inklecate from: https://github.com/inkle/ink/releases

For more information, visit: https://github.com/inkle/ink
".

Definition version_text : list Event :=
  [ Log Unstyled "Calligrapher v1.0.0";
    Log Unstyled "Ink Interactive Fiction Runner";
    Log Unstyled "https://github.com/inkle/ink" ].

(** What [fs.readFileSync(undefined, 'utf-8')] throws. *)
Definition path_type_error : string :=
  "The " +:+ dquote +:+ "path" +:+ dquote
  +:+ " argument must be of type string or an instance of Buffer or URL. Received undefined".

Section WithPlatform.
Variable node : Node.
Variable engine : Engine.
(** [cli.watch(file)]: the polling loop runs on timers and is not
    embedded; [None] is a file that was not given. *)
Variable watch_file : option string → M unit.

(** [cli.replay(undefined)]: the read throws inside the [try]. *)
Definition replay_undefined : M unit :=
  _ ← emit (restore_banner "undefined");
  try_catch (throw path_type_error) on_restore_error.

(** The body of [main]. *)
Definition dispatch (argv : list string) : M unit :=
  let args := parseArgs argv in
  let opts := Args.options args in
  if Args.version opts then _ ← emit_all version_text; exit 0
  else if Args.help opts then _ ← emit (Log Unstyled help_text); exit 0
  else
    let cli := MkCLIOptions (Args.verbose opts) (Args.silent opts) in
    match Args.command args, Args.file args with
    | Some Compile, Some f =>
        if endsWith ".ink" f then compile node f
        else runFile node engine cli f
    | Some Watch, f => watch_file f
    | Some Replay, Some f => replay node engine f
    | Some Replay, None => replay_undefined
    | _, Some f => runFile node engine cli f
    | _, None => _ ← emit (Log Unstyled help_text); exit 1
    end.

(** [main().catch(err => ...)] *)
Definition main (argv : list string) : M unit :=
  try_catch (dispatch argv)
    (λ msg, _ ← emit (LogError Unstyled ("Error: " +:+ msg)); exit 1).

End WithPlatform.
End Main.

(** ** Vocabulary for the properties of the command line *)

Module ArgsSpec.

Import Js Args.

(** An argument that neither ends the parsing nor takes a value: anything
    but the help and version flags and the options [--seed], [--output],
    [-o], [--save], [-S]. *)
Definition simple (arg : string) : bool :=
  negb (is_any ["--help"; "-h"; "--version"; "-V"; "--seed"; "--output"; "-o";
                "--save"; "-S"] arg).

Definition is_help (arg : string) : bool := is_any ["--help"; "-h"] arg.
Definition is_version (arg : string) : bool := is_any ["--version"; "-V"] arg.
Definition is_verbose (arg : string) : bool := is_any ["--verbose"; "-v"] arg.

(** An option that takes the argument after it as its value. *)
Definition takes_value (arg : string) : bool :=
  is_any ["--seed"; "--output"; "-o"; "--save"; "-S"] arg.

(** Arguments that the loop reads to their end: no help or version flag
    is read as a flag among them, and every option that takes a value has
    one.  The argument that follows them is read as a flag, not as a
    value. *)
Fixpoint read_through (pre : list string) : bool :=
  match pre with
  | [] => true
  | a :: rest =>
      if is_help a || is_version a then false
      else if takes_value a then
        match rest with
        | _ :: rest' => read_through rest'
        | [] => false
        end
      else read_through rest
  end.

(** What [parseArgs] has picked comes from the arguments: the command is
    one of the four command words and is an argument, the file is an
    argument with one of the four suffixes, the remaining arguments are
    arguments without a leading dash, in their order. *)
Definition picked_from (args : list string) (p : ParsedArgs) : Prop :=
  (∀ c, command p = Some c → ∃ a, a ∈ args ∧ command_of a = Some c)
  ∧ (∀ f, file p = Some f → f ∈ args ∧ story_suffix f = true ∧ word f = true)
  ∧ remaining p `sublist_of` args
  ∧ Forall (λ a, word a = true) (remaining p)
  ∧ (help (options p) = true → Exists (λ a, is_help a = true) args)
  ∧ (version (options p) = true → Exists (λ a, is_version a = true) args).

End ArgsSpec.

(** ** What a compilation leaves in the trace *)

Module CompilerTrace.

Import Js Compiler CompilerMore.

(** The search for the input and for the compiler. *)
Definition searched (node : Node) (fs : gmap string string) (inputPath : string)
  : list Event :=
  Probe inputPath :: probes_until node fs (possiblePaths node).

(** The three lines of a verbose compilation. *)
Definition announced (verbose : bool) (inputPath finalOutput inklecate : string)
  : list Event :=
  if verbose then
    [ Log Unstyled ("Compiling: " +:+ inputPath);
      Log Unstyled ("Output: " +:+ finalOutput);
      Log Unstyled ("Compiler: " +:+ inklecate) ]
  else [].

(** The rewriting of an output that opens with a byte-order mark. *)
Definition rewritten (finalOutput content : string) : list Event :=
  if startsWith bom content then [WriteFile finalOutput (drop_string 3 content)]
  else [].

Definition concluded (verbose : bool) : list Event :=
  if verbose then [Log Unstyled "Compilation successful!"] else [].

End CompilerTrace.

(** ** More sample machines *)

Module MoreSamples.

Import Js.

(** A Linux machine whose compiler writes a two-byte story, after a
    byte-order mark, next to the sample ink file. *)
Definition compiling : Node :=
  MkNode "linux" "/home/player" "/opt/calligrapher/dist" "/home/player/games"
         Samples.posix_join Samples.posix_extname Samples.posix_basename lower_ascii
         (λ _, None) Samples.parse_sample (λ _, "{}") "2024-01-01T00:00:00.000Z"
         (λ _ fs, (None, <["/home/player/games/tale.json" := bom +:+ "{}"]> fs)).

(** A Linux machine whose compiler reports success and writes nothing. *)
Definition idle : Node :=
  MkNode "linux" "/home/player" "/opt/calligrapher/dist" "/home/player/games"
         Samples.posix_join Samples.posix_extname Samples.posix_basename lower_ascii
         (λ _, None) Samples.parse_sample (λ _, "{}") "2024-01-01T00:00:00.000Z"
         (λ _ fs, (None, fs)).

(** An ink file whose extension is in upper case, and a compiler. *)
Definition shouting : World :=
  Samples.world_of [("/home/player/games/TALE.INK", TextStorySpec.story_twice);
                    ("/usr/local/bin/inklecate", "#!")] [].

End MoreSamples.

(** ** The names of the menu of [displayAndChoose] *)

Module Menu.

Import Js.

Definition is_digit (c : ascii) : bool :=
  let n := nat_of_ascii c in (48 <=? n)%nat && (n <=? 57)%nat.

Fixpoint digits (s : string) : bool :=
  match s with
  | EmptyString => true
  | String c s' => is_digit c && digits s'
  end.

(** [`${index + 1}. ${choice}`] *)
Definition entry_name (index : nat) (choice : string) : string :=
  pretty (index + 1)%nat +:+ ". " +:+ choice.

(** The names the prompt of [displayAndChoose] shows. *)
Definition shown_names (choices : list string) : list string :=
  (Cli.entries choices).*1.

End Menu.

(** ** Computations from which no exception escapes *)

Module Escapes.

Definition never_throws {A : Type} (m : M A) : Prop :=
  ∀ w msg w', m w ≠ (Throw msg, w').

End Escapes.

(** ** Sample engines *)

Module SampleEngines.

Import Js.

(** A story of one choice point: two choices at the start, and nothing
    after either of them.  The instance is the place in the story. *)
Definition crossroads : Engine :=
  MkEngine nat
    (λ x, match x with
          | Some _ => Ok 0
          | None => Raise "Cannot read properties of undefined (reading 'inkVersion')"
          end)
    (λ _, false)
    (λ s, Ok (None, s))
    (λ s, if (s =? 0)%nat then ["Open the door"; "Go back"] else [])
    (λ _, None)
    (λ i s, if (i =? 0)%Z then Ok 1
            else if (i =? 1)%Z then Ok 2
            else Raise "choice out of range")
    (λ x s, match x with
            | Some (JString "1") => Ok 1
            | Some (JString "2") => Ok 2
            | Some _ => Ok 0
            | None => Raise Samples.undefined_json
            end)
    (λ _, "{}")
    (λ s, pretty s).

(** A story of pages and no choice: the instance is the number of pages
    left. *)
Definition pages : Engine :=
  MkEngine nat
    (λ x, match x with
          | Some _ => Ok 2
          | None => Raise "Cannot read properties of undefined (reading 'inkVersion')"
          end)
    (λ s, (0 <? s)%nat)
    (λ s, Ok (Some ("Page " +:+ pretty s), pred s))
    (λ _, [])
    (λ _, None)
    (λ _ _, Raise "choice out of range")
    (λ x s, match x with
            | Some _ => Ok s
            | None => Raise Samples.undefined_json
            end)
    (λ _, "{}")
    (λ s, pretty s).

(** An engine that takes any story and fails at the first line. *)
Definition broken : Engine :=
  MkEngine unit
    (λ x, match x with
          | Some _ => Ok ()
          | None => Raise "Cannot read properties of undefined (reading 'inkVersion')"
          end)
    (λ _, true) (λ _, Raise "boom") (λ _, [])
    (λ _, None) (λ _ s, Ok s)
    (λ x s, match x with
            | Some _ => Ok s
            | None => Raise Samples.undefined_json
            end)
    (λ _, "{}") (λ _, "{}").

(** A machine whose [JSON] knows the save document of [crossroads] at its
    start. *)
Definition save_text : string := "{save}".

Definition archivist : Node :=
  MkNode "linux" "/home/player" "/opt/calligrapher/dist" "/home/player/games"
         Samples.posix_join Samples.posix_extname Samples.posix_basename lower_ascii
         (λ _, None)
         (λ text, if String.eqb text save_text
                  then Ok (JObject [ ("storyJson", JString "{}");
                                     ("state", JString "0");
                                     ("savedAt", JString "2024-01-01T00:00:00.000Z");
                                     ("version", JString "1.0") ])
                  else Raise "Unexpected token in JSON at position 0")
         (λ _, save_text) "2024-01-01T00:00:00.000Z"
         (λ cmd fs, (Some ("Command failed: " +:+ cmd), fs)).

(** A machine on which no file can be written. *)
Definition read_only : Node :=
  MkNode "linux" "/home/player" "/opt/calligrapher/dist" "/home/player/games"
         Samples.posix_join Samples.posix_extname Samples.posix_basename lower_ascii
         (λ p, Some ("EROFS: read-only file system, open '" +:+ p +:+ "'"))
         Samples.parse_sample (λ _, "{}") "2024-01-01T00:00:00.000Z"
         (λ cmd fs, (Some ("Command failed: " +:+ cmd), fs)).

End SampleEngines.

(** ** The command line as [main] reads it *)

Module MainSpec.

Import Js Args ArgsSpec.

(** An argument that [parseArgs] can take for the story file. *)
Definition story_file (arg : string) : bool := word arg && story_suffix arg.

(** An argument that asks for help or for the version. *)
Definition asks_text (arg : string) : bool := is_help arg || is_version arg.

End MainSpec.

(** ** Counting the prompts of the text interpreter *)

Module TextStoryMore.

Import Js TextStory.

Definition is_select (e : Event) : bool :=
  match e with
  | Select _ _ => true
  | _ => false
  end.

(** The prompts among the events. *)
Definition prompts (es : list Event) : nat := length (filter (λ e, is_select e = true) es).

(** One more prompt than answers when the loop waits at a prompt. *)
Definition pending {A : Type} (o : Outcome A) : nat :=
  match o with
  | Waiting => 1
  | _ => 0
  end.

(** A line that does not open the section [n]: a marker line of that
    name would. *)
Definition opens_another (n : string) (line : string) : Prop :=
  is_marker line = true → marker_name line ≠ n.

(** A story none of whose sections is called [start]. *)
Definition story_without_start : string :=
  TextStorySpec.unlines [ "A tale.";
                          "=== Start ===";
                          "You stand at a crossroads.";
                          "* [Go on] -> Start";
                          "=== __proto__ ===";
                          "A hidden room." ].

(** A section with two choices of the same text. *)
Definition twin_choices : list string :=
  [ "Two doors."; "* [Open] -> cellar"; "* [Look] -> window"; "* [Open] -> attic" ].

End TextStoryMore.
(** * Properties *)

(** ** Strings *)

Module JsFacts.

Import Js PresenterSpec.

Lemma append_assoc (s t u : string) : (s +:+ t) +:+ u = s +:+ (t +:+ u).
Proof.
  induction s as [|c s IH]; [done|].
  change (String c ((s +:+ t) +:+ u) = String c (s +:+ (t +:+ u))). by rewrite IH.
Qed.

Lemma text_of_app a b : text_of (a ++ b) = text_of a +:+ text_of b.
Proof.
  induction a as [|c a IH]; [done|]. cbn [app text_of].
  by rewrite IH, append_assoc.
Qed.

(** The characters of a text make up the text. *)
Lemma text_of_chars s : text_of (chars s) = s.
Proof.
  induction s as [|c s IH]; [done|]. cbn [chars].
  destruct (continues s).
  - destruct (chars s) as [|t ts]; [by rewrite <- IH|].
    cbn [text_of] in *. by rewrite <- IH.
  - cbn [text_of]. by rewrite IH.
Qed.

Lemma chars_filled s : Forall (λ c, c ≠ EmptyString) (chars s).
Proof.
  induction s as [|c s IH]; [constructor|]. cbn [chars].
  destruct (continues s).
  - destruct (chars s) as [|t ts]; [by repeat constructor|].
    apply Forall_cons in IH as [_ IH]. by constructor.
  - by constructor.
Qed.

Lemma skip_spaces_blank cs : forallb is_space cs = true → skip_spaces cs = [].
Proof.
  induction cs as [|c cs IH]; [done|]. cbn [forallb skip_spaces].
  intros [Hc Hcs]%andb_prop. rewrite Hc. auto.
Qed.

Lemma skip_spaces_suffix cs : skip_spaces cs `suffix_of` cs.
Proof.
  induction cs as [|c cs IH]; [done|]. cbn [skip_spaces].
  destruct (is_space c); [by apply suffix_cons_r|done].
Qed.

Lemma skip_spaces_head cs c rest :
  skip_spaces cs = c :: rest → is_space c = false.
Proof.
  induction cs as [|d cs IH]; [done|]. cbn [skip_spaces].
  destruct (is_space d) eqn:Hd; [done|]. by intros [= <- _].
Qed.

Lemma skip_spaces_not_blank cs :
  forallb is_space cs = false → ∃ c rest, skip_spaces cs = c :: rest.
Proof.
  induction cs as [|d cs IH]; [done|]. cbn [forallb skip_spaces].
  destruct (is_space d); [exact IH|eauto].
Qed.

(** Whitespace in front of characters that are not whitespace only. *)
Lemma skip_spaces_app ws cs :
  forallb is_space ws = true → skip_spaces (ws ++ cs) = skip_spaces cs.
Proof.
  induction ws as [|w ws IH]; [done|]. cbn [forallb app skip_spaces].
  intros [Hw Hws]%andb_prop. rewrite Hw. auto.
Qed.

Lemma skip_spaces_last cs c :
  is_space c = false → ∃ kept, skip_spaces (cs ++ [c]) = kept ++ [c].
Proof.
  intros Hc. induction cs as [|d cs IH].
  - exists []. cbn [app skip_spaces]. by rewrite Hc.
  - cbn [app skip_spaces]. destruct (is_space d); [exact IH|].
    by exists (d :: cs).
Qed.

Lemma trim_blank s : blank s = true → trim s = EmptyString.
Proof.
  intros H. unfold trim, blank in *. by rewrite (skip_spaces_blank _ H).
Qed.

Lemma trim_not_blank s : blank s = false → truthy (trim s) = true.
Proof.
  intros H. unfold trim, blank in *.
  destruct (skip_spaces_not_blank _ H) as (c & rest & Heq).
  assert (c ≠ EmptyString) as Hne.
  { pose proof (chars_filled s) as Hall. rewrite Forall_forall in Hall.
    apply Hall. destruct (skip_spaces_suffix (chars s)) as [pre Hpre].
    rewrite Hpre, Heq. apply elem_of_app. right. by left. }
  pose proof (skip_spaces_head _ _ _ Heq) as Hc. rewrite Heq.
  cbn [rev]. destruct (skip_spaces_last (rev rest) c Hc) as [kept ->].
  rewrite rev_app_distr. cbn [rev app text_of]. by destruct c.
Qed.

Lemma truthy_trim_blank s : truthy (trim s) = negb (blank s).
Proof.
  destruct (blank s) eqn:Hb.
  - by rewrite trim_blank.
  - by rewrite trim_not_blank.
Qed.

Lemma arr_includes_elem_of x l : arr_includes x l = true ↔ x ∈ l.
Proof.
  unfold arr_includes. rewrite existsb_exists. split.
  - intros (y & Hin & ->%String.eqb_eq). by apply list_elem_of_In.
  - intros Hin. exists x. split; [by apply list_elem_of_In|apply String.eqb_refl].
Qed.

Lemma arr_includes_not_elem_of x l : arr_includes x l = false ↔ x ∉ l.
Proof.
  rewrite <- arr_includes_elem_of. destruct (arr_includes x l); naive_solver.
Qed.

End JsFacts.


(** ** The matcher *)

Module RegexFacts.

Import Js Regex.

Lemma app_cons c s t : String c s +:+ t = String c (s +:+ t).
Proof. done. Qed.

Lemma app_empty_r s : s +:+ "" = s.
Proof. induction s as [|c s IH]; [done|]. by rewrite app_cons, IH. Qed.

Lemma app_assoc_string s t u : (s +:+ t) +:+ u = s +:+ (t +:+ u).
Proof. induction s as [|c s IH]; [done|]. by rewrite !app_cons, IH. Qed.

Section Repeat.
Context {R : Type}.
Variable cls : string → bool.
Variable k : list string → list string → option R.

(** What a repetition has matched when the whole match succeeds: [m],
    made of characters of the class, with the rest of the pattern matching
    what follows. *)
Lemma star_greedy_inv s : ∀ acc r,
  star_greedy cls k s acc = Some r →
  ∃ m s', s = m ++ s' ∧ forallb cls m = true ∧ k s' (acc ++ m) = Some r.
Proof.
  induction s as [|c s IH]; intros acc r; cbn [star_greedy].
  - intros H. exists [], []. by rewrite (app_nil_r acc).
  - destruct (cls c) eqn:Hc.
    + destruct (star_greedy cls k s (acc ++ [c])) as [r'|] eqn:Hrec.
      * intros [= <-]. apply IH in Hrec as (m & s' & -> & Hm & Hk).
        exists (c :: m), s'. rewrite <- app_assoc in Hk.
        cbn [forallb]. by rewrite Hc, Hm.
      * intros H. exists [], (c :: s). by rewrite (app_nil_r acc).
    + intros H. exists [], (c :: s). by rewrite (app_nil_r acc).
Qed.

Lemma star_lazy_inv s : ∀ acc r,
  star_lazy cls k s acc = Some r →
  ∃ m s', s = m ++ s' ∧ forallb cls m = true ∧ k s' (acc ++ m) = Some r.
Proof.
  induction s as [|c s IH]; intros acc r; cbn [star_lazy].
  - destruct (k [] acc) eqn:Hk; [|done].
    intros [= <-]. exists [], []. by rewrite (app_nil_r acc).
  - destruct (k (c :: s) acc) eqn:Hk.
    + intros [= <-]. exists [], (c :: s). by rewrite (app_nil_r acc).
    + destruct (cls c) eqn:Hc; [|done].
      intros (m & s' & -> & Hm & Hk')%IH.
      exists (c :: m), s'. rewrite <- app_assoc in Hk'.
      cbn [forallb]. by rewrite Hc, Hm.
Qed.

Lemma one_inv s r :
  one cls k s = Some r →
  ∃ c s', s = c :: s' ∧ cls c = true ∧ k s' [c] = Some r.
Proof.
  destruct s as [|c s]; cbn [one]; [done|].
  destruct (cls c) eqn:Hc; [|done]. eauto.
Qed.

Lemma plus_greedy_inv s r :
  plus_greedy cls k s = Some r →
  ∃ c m s', s = c :: m ++ s' ∧ cls c = true ∧ forallb cls m = true
            ∧ k s' (c :: m) = Some r.
Proof.
  destruct s as [|c s]; cbn [plus_greedy]; [done|].
  destruct (cls c) eqn:Hc; [|done].
  intros (m & s' & -> & Hm & Hk)%star_greedy_inv. eauto 10.
Qed.

Lemma plus_lazy_inv s r :
  plus_lazy cls k s = Some r →
  ∃ c m s', s = c :: m ++ s' ∧ cls c = true ∧ forallb cls m = true
            ∧ k s' (c :: m) = Some r.
Proof.
  destruct s as [|c s]; cbn [plus_lazy]; [done|].
  destruct (cls c) eqn:Hc; [|done].
  intros (m & s' & -> & Hm & Hk)%star_lazy_inv. eauto 10.
Qed.

Lemma opt_greedy_inv s r :
  opt_greedy cls k s = Some r →
  ∃ m s', s = m ++ s' ∧ (m = [] ∨ ∃ c, m = [c] ∧ cls c = true) ∧ k s' m = Some r.
Proof.
  unfold opt_greedy. destruct (one cls k s) as [r'|] eqn:Hone.
  - intros [= <-]. apply one_inv in Hone as (c & s' & -> & Hc & Hk).
    exists [c], s'. eauto 10.
  - intros Hk. exists [], s. auto.
Qed.

(** The other direction: when the input can be cut into characters of
    the class and a rest on which the rest of the pattern succeeds
    whatever was matched, the repetition succeeds. *)
Variable ok : list string → Prop.
Hypothesis k_ok : ∀ s' m, ok s' → is_Some (k s' m).

Lemma star_greedy_complete m s' : ∀ acc,
  forallb cls m = true → ok s' → is_Some (star_greedy cls k (m ++ s') acc).
Proof.
  induction m as [|c m IH]; intros acc Hm Hok.
  - cbn [app]. destruct s' as [|c s']; cbn [star_greedy]; [by apply k_ok|].
    destruct (cls c); [|by apply k_ok].
    destruct (star_greedy cls k s' (acc ++ [c])); [done|by apply k_ok].
  - cbn [forallb] in Hm. apply andb_prop in Hm as [Hc Hm].
    cbn [app star_greedy]. rewrite Hc.
    destruct (IH (acc ++ [c]) Hm Hok) as [r ->]. done.
Qed.

Lemma star_lazy_complete m s' : ∀ acc,
  forallb cls m = true → ok s' → is_Some (star_lazy cls k (m ++ s') acc).
Proof.
  induction m as [|c m IH]; intros acc Hm Hok.
  - cbn [app]. destruct (k_ok s' acc Hok) as [r Hr].
    destruct s'; cbn [star_lazy]; by rewrite Hr.
  - cbn [forallb] in Hm. apply andb_prop in Hm as [Hc Hm].
    cbn [app star_lazy]. destruct (k (c :: m ++ s') acc); [done|].
    rewrite Hc. by apply IH.
Qed.

Lemma one_complete c s' : cls c = true → ok s' → is_Some (one cls k (c :: s')).
Proof. intros Hc Hok. cbn [one]. rewrite Hc. by apply k_ok. Qed.

Lemma opt_greedy_complete m s' :
  m = [] ∨ (∃ c, m = [c] ∧ cls c = true) → ok s' →
  is_Some (opt_greedy cls k (m ++ s')).
Proof.
  intros Hm Hok. unfold opt_greedy.
  destruct (one cls k (m ++ s')) eqn:Hone; [done|].
  destruct Hm as [->|(c & -> & Hc)]; [by apply k_ok|].
  destruct (one_complete c s' Hc Hok) as [r Hr]. cbn [app] in Hone. congruence.
Qed.

Lemma plus_greedy_complete m s' :
  m ≠ [] → forallb cls m = true → ok s' →
  is_Some (plus_greedy cls k (m ++ s')).
Proof.
  destruct m as [|c m]; [done|]. intros _ Hm Hok.
  cbn [forallb] in Hm. apply andb_prop in Hm as [Hc Hm].
  cbn [app plus_greedy]. rewrite Hc. by apply star_greedy_complete.
Qed.

Lemma plus_lazy_complete m s' :
  m ≠ [] → forallb cls m = true → ok s' →
  is_Some (plus_lazy cls k (m ++ s')).
Proof.
  destruct m as [|c m]; [done|]. intros _ Hm Hok.
  cbn [forallb] in Hm. apply andb_prop in Hm as [Hc Hm].
  cbn [app plus_lazy]. rewrite Hc. by apply star_lazy_complete.
Qed.

End Repeat.

(** The matcher finds a match exactly on the inputs that open with one:
    backtracking tries every cut. *)
Lemma match_here_complete p : ∀ s caps,
  accepts p s → is_Some (match_here p caps s).
Proof.
  induction p as [|[q cls g] p IH]; intros s caps; [done|].
  intros (m & s' & -> & Hfit & Hrest).
  cbn [match_here it_quant it_class it_group accepts fits] in *.
  set (k := λ s1 matched, match_here p (capture g matched caps) s1).
  assert (∀ s1 matched, accepts p s1 → is_Some (k s1 matched)) as Hk
    by (intros s1 matched Hs1; apply IH, Hs1).
  destruct q; cbn [fits] in Hfit.
  - destruct Hfit as (c & -> & Hc). by apply (one_complete cls k (accepts p)).
  - by apply (opt_greedy_complete cls k (accepts p)).
  - by apply (star_greedy_complete cls k (accepts p)).
  - destruct Hfit. by apply (plus_greedy_complete cls k (accepts p)).
  - destruct Hfit. by apply (plus_lazy_complete cls k (accepts p)).
Qed.

Lemma match_here_sound p : ∀ s caps,
  is_Some (match_here p caps s) → accepts p s.
Proof.
  induction p as [|[q cls g] p IH]; intros s caps; [done|].
  intros [r Hr]. cbn [match_here it_quant it_class it_group accepts] in *.
  destruct q.
  - apply one_inv in Hr as (c & s' & -> & Hc & Hk).
    exists [c], s'. split; [done|]. split; [by exists c|]. eapply IH; eauto.
  - apply opt_greedy_inv in Hr as (m & s' & -> & Hm & Hk).
    exists m, s'. split; [done|]. split; [done|]. eapply IH; eauto.
  - apply star_greedy_inv in Hr as (m & s' & -> & Hm & Hk).
    exists m, s'. split; [done|]. split; [done|]. eapply IH; eauto.
  - apply plus_greedy_inv in Hr as (c & m & s' & -> & Hc & Hm & Hk).
    exists (c :: m), s'. split; [done|]. split; [|eapply IH; eauto].
    split; [done|]. cbn [forallb]. by rewrite Hc, Hm.
  - apply plus_lazy_inv in Hr as (c & m & s' & -> & Hc & Hm & Hk).
    exists (c :: m), s'. split; [done|]. split; [|eapply IH; eauto].
    split; [done|]. cbn [forallb]. by rewrite Hc, Hm.
Qed.

End RegexFacts.


(** ** The presenter *)

Module PresenterFacts.

Import Js Presenter PresenterSpec JsFacts.

Lemma displayText_chosen text tags :
  blank text = false → displayText text tags = [render (chosen tags) text].
Proof.
  intros Hb. unfold displayText, chosen.
  rewrite truthy_trim_blank, Hb. simpl.
  repeat (case_match; [done|]). done.
Qed.

Lemma chosen_highest tags : highest (chosen tags) tags.
Proof.
  unfold chosen.
  destruct (arr_includes "title" tags) eqn:H1;
    [|destruct (arr_includes "scene" tags) eqn:H2;
      [|destruct (arr_includes "combat" tags) eqn:H3;
        [|destruct (arr_includes "dialog" tags) eqn:H4]]];
    (split; [unfold present; simpl; try by apply arr_includes_elem_of|]);
    try done;
    intros [] Hq; simpl in Hq; try lia; unfold present; simpl;
    by apply arr_includes_not_elem_of.
Qed.

Lemma highest_unique p q tags : highest p tags → highest q tags → p = q.
Proof.
  intros [Hp Hpm] [Hq Hqm].
  destruct (decide (rank p < rank q)) as [Hlt|Hge]; [by destruct (Hqm p Hlt)|].
  destruct (decide (rank q < rank p)) as [Hlt|Hge']; [by destruct (Hpm q Hlt)|].
  destruct p, q; simpl in *; try lia; done.
Qed.

(** C9. Whatever the tags are (the four recognised ones included), a text
    unit that is empty or made of whitespace only makes [displayText]
    print nothing at all. *)
Theorem displayText_blank_prints_nothing (text : string) (tags : list string) :
  blank text = true → displayText text tags = [].
Proof.
  intros Hb. unfold displayText. by rewrite truthy_trim_blank, Hb.
Qed.

(** A space, a no-break space (U+00A0) and an ideographic space (U+3000). *)
Lemma displayText_blank_prints_nothing_witness :
  let text := " " +:+ bytes [194; 160] +:+ bytes [227; 128; 128] in
  blank text = true ∧ displayText text ["title"; "combat"] = [].
Proof.
  split; [reflexivity|].
  apply (displayText_blank_prints_nothing
           (" " +:+ bytes [194; 160] +:+ bytes [227; 128; 128]) ["title"; "combat"]).
  reflexivity.
Defined.

(** C6. A text unit that is displayed (it is not blank) is shown in
    exactly one presentation style, whatever the tag list: there is one
    and only one style that is the highest in the order title > scene >
    combat > dialog > plain among those whose tag is present (plain when
    none of the four tags is), and what [displayText] prints is the single
    rendering of the text in that style. *)
Theorem displayText_one_style_by_priority (text : string) (tags : list string) :
  blank text = false →
  ∃ p, highest p tags
       ∧ (∀ q, highest q tags → q = p)
       ∧ displayText text tags = [render p text].
Proof.
  intros Hb. exists (chosen tags). split; [apply chosen_highest|]. split.
  - intros q Hq. eapply highest_unique; [done|apply chosen_highest].
  - by apply displayText_chosen.
Qed.

Lemma displayText_one_style_by_priority_witness :
  blank "Go on" = false ∧
  ∃ p, highest p ["dialog"; "scene"]
       ∧ (∀ q, highest q ["dialog"; "scene"] → q = p)
       ∧ displayText "Go on" ["dialog"; "scene"] = [render p "Go on"].
Proof.
  split; [reflexivity|].
  apply (displayText_one_style_by_priority "Go on" ["dialog"; "scene"]). reflexivity.
Defined.

End PresenterFacts.


(** ** The plain-text story interpreter *)

Module TextStoryFacts.

Import Js TextStory TextStorySpec JsFacts.

(** *** Parsing *)

Lemma section_lines_reset_same n st : section_lines (story_reset n st) n = Some [].
Proof.
  unfold section_lines, story_reset.
  destruct (String.eqb n "__proto__") eqn:E; simpl; [done|].
  by rewrite lookup_insert_eq.
Qed.

Lemma section_lines_reset_other n m st :
  n ≠ m → section_lines (story_reset m st) n = section_lines st n.
Proof.
  intros Hne. unfold section_lines, story_reset.
  destruct (String.eqb m "__proto__") eqn:Em, (String.eqb n "__proto__") eqn:En;
    simpl; try done.
  - apply String.eqb_eq in Em, En. congruence.
  - by rewrite lookup_insert_ne.
Qed.

Lemma section_lines_push_same n line st l :
  section_lines st n = Some l →
  section_lines (story_push n line st) n = Some (l ++ [line]).
Proof.
  unfold section_lines, story_push.
  destruct (String.eqb n "__proto__") eqn:E; simpl; intros H.
  - by rewrite H.
  - rewrite lookup_alter_eq, H. done.
Qed.

Lemma section_lines_push_other n m line st :
  n ≠ m → section_lines (story_push m line st) n = section_lines st n.
Proof.
  intros Hne. unfold section_lines, story_push.
  destruct (String.eqb m "__proto__") eqn:Em, (String.eqb n "__proto__") eqn:En;
    simpl; try done.
  - apply String.eqb_eq in Em, En. congruence.
  - by rewrite lookup_alter_ne.
Qed.

Lemma parse_line_marker p x :
  is_marker x = true →
  story (parse_line p x) = story_reset (marker_name x) (story p)
  ∧ currentSection (parse_line p x) = marker_name x.
Proof. intros H. unfold parse_line. by rewrite H. Qed.

Lemma parse_line_text p x :
  is_marker x = false →
  currentSection (parse_line p x) = currentSection p
  ∧ story (parse_line p x)
    = if truthy (currentSection p) && truthy (trim x)
      then story_push (currentSection p) x (story p) else story p.
Proof. intros H. unfold parse_line. rewrite H. by case_match. Qed.

(** Once another section is open, the section [n] is left alone as long as
    no marker names it again. *)
Lemma parse_elsewhere n rest : ∀ p,
  currentSection p ≠ n →
  Forall (λ x, is_marker x = true → marker_name x ≠ n) rest →
  section_lines (story (foldl parse_line p rest)) n = section_lines (story p) n.
Proof.
  induction rest as [|x rest IH]; intros p Hcur Hall; simpl; [done|].
  apply Forall_cons in Hall as [Hx Hall].
  destruct (is_marker x) eqn:Hm.
  - destruct (parse_line_marker p x Hm) as [Hst Hc].
    rewrite IH; [|rewrite Hc; auto|done].
    rewrite Hst. apply section_lines_reset_other. intros ->. by apply Hx.
  - destruct (parse_line_text p x Hm) as [Hc Hst].
    rewrite IH; [|by rewrite Hc|done].
    rewrite Hst. case_match; [|done].
    by apply section_lines_push_other.
Qed.

(** While the section [n] is open, the lines up to the next marker are
    added to it, unless the name is empty. *)
Lemma parse_open n after : ∀ p l,
  currentSection p = n →
  section_lines (story p) n = Some l →
  Forall (λ x, is_marker x = true → marker_name x ≠ n) after →
  section_lines (story (foldl parse_line p after)) n
  = Some (if truthy n
          then l ++ filter (λ x, truthy (trim x) = true) (following after)
          else l).
Proof.
  induction after as [|x after IH]; intros p l Hcur Hl Hall; simpl.
  - rewrite Hl, app_nil_r. by destruct (truthy n).
  - apply Forall_cons in Hall as [Hx Hall].
    destruct (is_marker x) eqn:Hm.
    + destruct (parse_line_marker p x Hm) as [Hst Hc].
      rewrite parse_elsewhere; [|rewrite Hc; auto|done].
      rewrite Hst, section_lines_reset_other, Hl; [|intros Heq; by apply Hx].
      rewrite filter_nil, app_nil_r. by destruct (truthy n).
    + destruct (parse_line_text p x Hm) as [Hc Hst].
      rewrite Hcur in Hst, Hc.
      destruct (truthy n) eqn:Hn; simpl in Hst.
      * destruct (truthy (trim x)) eqn:Hx'.
        -- rewrite (IH _ (l ++ [x])); [|done| |done].
           ++ rewrite filter_cons_True by done. by rewrite <- app_assoc.
           ++ rewrite Hst. by apply section_lines_push_same.
        -- rewrite (IH _ l); [|done| |done].
           ++ rewrite filter_cons_False; [done|]. by rewrite Hx'.
           ++ by rewrite Hst.
      * rewrite (IH _ l); [done|done| |done]. by rewrite Hst.
Qed.

Lemma following_elem_of x lines : x ∈ following lines → x ∈ lines.
Proof.
  induction lines as [|y lines IH]; simpl; [done|].
  destruct (is_marker y); [by intros ?%elem_of_nil|].
  intros [->|H]%elem_of_cons; [left|right; auto].
Qed.

Lemma filter_all {A} (P : A → Prop) `{!∀ x, Decision (P x)} (l : list A) :
  Forall P l → filter P l = l.
Proof.
  induction 1 as [|x l Hx Hl IH]; [done|].
  by rewrite filter_cons_True, IH.
Qed.

Lemma content_lines_nonblank content :
  Forall (λ x, truthy (trim x) = true) (content_lines content).
Proof.
  apply Forall_forall. intros x Hx. unfold content_lines in Hx.
  by apply list_elem_of_filter in Hx as [Hx _].
Qed.

(** The section a marker opens holds the lines that follow this marker, up
    to the next one, when no later marker has the same name. *)
Lemma parse_last_marker content n pre m after :
  content_lines content = pre ++ m :: after →
  is_marker m = true → marker_name m = n →
  Forall (λ x, is_marker x = true → marker_name x ≠ n) after →
  section_lines (parse content) n = Some (if truthy n then following after else []).
Proof.
  intros Hlines Hm Hn Hlast. unfold parse, parse_lines.
  rewrite Hlines, foldl_app. simpl.
  set (p0 := foldl parse_line _ pre).
  destruct (parse_line_marker p0 m Hm) as [Hst Hc]. rewrite Hn in Hst, Hc.
  rewrite (parse_open n after _ []); [|done| |done].
  - destruct (truthy n); [|done]. simpl. f_equal. apply filter_all.
    apply Forall_forall. intros x Hx%following_elem_of.
    pose proof (content_lines_nonblank content) as Hnb.
    rewrite Hlines in Hnb. rewrite Forall_forall in Hnb. apply Hnb.
    apply elem_of_app. right. by right.
  - rewrite Hst. apply section_lines_reset_same.
Qed.

(** C10. When a section name is the name of more than one marker line of
    the input, the parsed map gives it the lines that follow its last
    marker (up to the next marker) and nothing else: what followed the
    earlier markers of that name is gone.  For the empty name the map
    holds no line at all. *)
Theorem repeated_section_keeps_last
    (content n : string) (pre : list string) (m : string) (after : list string) :
  content_lines content = pre ++ m :: after →
  is_marker m = true → marker_name m = n →
  Exists (λ m0, is_marker m0 = true ∧ marker_name m0 = n) pre →
  Forall (λ x, is_marker x = true → marker_name x ≠ n) after →
  section_lines (parse content) n = Some (if truthy n then following after else []).
Proof. intros Hlines Hm Hn _ Hlast. by eapply parse_last_marker. Qed.

Lemma repeated_section_keeps_last_witness :
  section_lines (parse story_twice) "cave" = Some ["A bright cave."].
Proof.
  apply (repeated_section_keeps_last story_twice "cave"
           ["=== start ==="; "Intro"; "=== cave ==="; "A dark cave."; "* [Back] -> start"]
           "=== cave ===" ["A bright cave."; "=== end ==="; "Bye"]).
  - reflexivity.
  - reflexivity.
  - reflexivity.
  - apply (bool_decide_unpack _). vm_compute. reflexivity.
  - apply (bool_decide_unpack _). vm_compute. reflexivity.
Defined.

(** *** The pattern of a choice *)

(** What a line that matches the pattern is made of. *)
Lemma choice_pattern_inv line caps :
  Regex.match_anchored choice_pattern line = Some caps →
  ∃ label target,
    choice_form line label target
    ∧ caps = [(2, text_of target); (1, text_of label)].
Proof.
  unfold Regex.match_anchored, choice_pattern.
  cbn [Regex.match_here Regex.it_quant Regex.it_class Regex.it_group Regex.capture].
  intros H.
  apply RegexFacts.opt_greedy_inv in H as (star & s1 & Hline & Hstar & H).
  apply RegexFacts.star_greedy_inv in H as (ws1 & s2 & -> & Hws1 & H).
  apply RegexFacts.plus_lazy_inv in H as (c1 & label & s3 & -> & Hc1 & Hlabel & H).
  apply RegexFacts.star_greedy_inv in H as (ws2 & s4 & -> & Hws2 & H).
  apply RegexFacts.one_inv in H as (a & s5 & -> & Ha & H).
  apply RegexFacts.one_inv in H as (b & s6 & -> & Hb & H).
  apply RegexFacts.star_greedy_inv in H as (ws3 & s7 & -> & Hws3 & H).
  apply RegexFacts.plus_greedy_inv in H as (c2 & target & rest & -> & Hc2 & Htarget & H).
  injection H as <-.
  apply String.eqb_eq in Ha as <-, Hb as <-.
  exists (c1 :: label), (c2 :: target). split; [|done].
  exists star, ws1, ws2, ws3, rest. rewrite Hline.
  repeat apply conj; try done.
  - destruct Hstar as [->|(c & -> & ->%String.eqb_eq)]; auto.
  - cbn [forallb]. by rewrite Hc1, Hlabel.
  - cbn [forallb]. unfold Regex.non_space in *. by rewrite Hc2, Htarget.
Qed.

(** The other direction: a line of that form matches the pattern. *)
Lemma choice_pattern_complete line label target :
  choice_form line label target →
  is_Some (Regex.match_anchored choice_pattern line).
Proof.
  intros (star & ws1 & ws2 & ws3 & rest & Hline & Hstar & Hws1 & Hne & Hlabel
          & Hws2 & Hws3 & Hnt & Htarget).
  unfold Regex.match_anchored. apply RegexFacts.match_here_complete.
  rewrite Hline. unfold choice_pattern.
  cbn [Regex.accepts Regex.fits Regex.it_quant Regex.it_class].
  exists star, (ws1 ++ label ++ ws2 ++ "-" :: ">" :: ws3 ++ target ++ rest).
  split; [done|]. split.
  { destruct Hstar as [->| ->]; [by left|right; by exists "*"]. }
  exists ws1, (label ++ ws2 ++ "-" :: ">" :: ws3 ++ target ++ rest).
  split; [done|]. split; [done|].
  exists label, (ws2 ++ "-" :: ">" :: ws3 ++ target ++ rest).
  split; [done|]. split; [done|].
  exists ws2, ("-" :: ">" :: ws3 ++ target ++ rest).
  split; [done|]. split; [done|].
  exists ["-"], (">" :: ws3 ++ target ++ rest).
  split; [done|]. split; [by exists "-"|].
  exists [">"], (ws3 ++ target ++ rest).
  split; [done|]. split; [by exists ">"|].
  exists ws3, (target ++ rest).
  split; [done|]. split; [done|].
  exists target, rest. done.
Qed.

(** A line gives a menu entry exactly when it has the form of a choice,
    and the entry is the text of a label and a target of that form. *)
Lemma extract_form line :
  (∀ text target,
     extract line = Some (text, target) →
     ∃ label tgt, choice_form line label tgt
                  ∧ text = label_text label ∧ target = text_of tgt)
  ∧ (is_Some (extract line) ↔ arrow_shaped line).
Proof.
  unfold extract. split.
  - intros text target.
    destruct (Regex.match_anchored choice_pattern line) as [caps|] eqn:Hm; [|done].
    apply choice_pattern_inv in Hm as (label & tgt & Hform & ->).
    intros [= <- <-]. by exists label, tgt.
  - split.
    + destruct (Regex.match_anchored choice_pattern line) as [caps|] eqn:Hm;
        [|by intros [? ?]].
      apply choice_pattern_inv in Hm as (label & tgt & Hform & ->).
      intros _. by exists label, tgt.
    + intros (label & tgt & Hform).
      destruct (choice_pattern_complete _ _ _ Hform) as [caps ->]. done.
Qed.

Lemma arrow_target_app p cs :
  arrow_target cs = true → arrow_target (p ++ cs) = true.
Proof.
  induction p as [|c p IH]; [done|]. intros H.
  cbn [app arrow_target]. rewrite IH by done. apply orb_true_r.
Qed.

(** A line that gives a menu entry contains an arrow token followed by a
    target name. *)
Lemma choice_form_has_arrow_target line label target :
  choice_form line label target → has_arrow_target line = true.
Proof.
  intros (star & ws1 & ws2 & ws3 & rest & Hline & _ & _ & _ & _ & _ & Hws3
          & Hnt & Htarget).
  unfold has_arrow_target. rewrite Hline.
  do 4 apply arrow_target_app.
  destruct target as [|c target]; [done|]. cbn [forallb] in Htarget.
  apply andb_prop in Htarget as [Hc%negb_true_iff _].
  cbn [arrow_target arrow_here]. rewrite !String.eqb_refl.
  rewrite skip_spaces_app by done. cbn [app skip_spaces]. by rewrite Hc.
Qed.

Lemma extract_has_arrow_target line text target :
  extract line = Some (text, target) → has_arrow_target line = true.
Proof.
  intros H. destruct (extract_form line) as [Hform _].
  destruct (Hform _ _ H) as (label & tgt & Hf & _).
  by eapply choice_form_has_arrow_target.
Qed.

(** The whitespace of the pattern and of [trim] is that of ECMAScript: a
    no-break space (U+00A0) before the arrow is not part of the label, and
    one before the closing marker is not part of the section name. *)
Lemma extract_no_break_space :
  extract ("* [Go]" +:+ bytes [194; 160] +:+ "-> cave") = Some ("Go", "cave")
  ∧ marker_name ("=== start" +:+ bytes [194; 160] +:+ "===") = "start".
Proof. split; vm_compute; reflexivity. Qed.

(** *** One turn of the play loop *)

Lemma play_section st inputs current lines :
  story_get st (current_key current) = Lines lines →
  play st inputs current =
  match choices_of lines with
  | [] => MkRun (map (Log White) (narrative lines) ++ [Log Gray end_of_section])
                (Ret current) inputs
  | _ :: _ =>
      match inputs with
      | [] => MkRun (shown lines) Waiting []
      | selection :: rest =>
          match array_get (menu (choices_of lines)) selection with
          | None => MkRun (shown lines) Outside rest
          | Some selected =>
              if is_quit selected
              then MkRun (shown lines) (Ret current) rest
              else
                let r := play st rest
                           (next_section (targets_of lines) selected current) in
                MkRun (shown lines ++ events r) (ending r) (unread r)
          end
      end
  end.
Proof.
  intros Hget. destruct inputs as [|i rest]; simpl; by rewrite Hget.
Qed.

Lemma play_missing st inputs current :
  story_get st (current_key current) = Undefined →
  play st inputs current
  = MkRun [Log Red (not_found_message (current_key current))] (Ret current) inputs.
Proof. intros Hget. destruct inputs; simpl; by rewrite Hget. Qed.

Lemma extract_all_omap cls : ∀ acc t,
  (foldl extract_step (acc, t) cls).1 = acc ++ omap (λ l, fst <$> extract l) cls.
Proof.
  induction cls as [|c cls IH]; intros acc t; simpl; [by rewrite app_nil_r|].
  unfold extract_step at 2. destruct (extract c) as [[text target]|]; simpl.
  - by rewrite IH, <- app_assoc.
  - apply IH.
Qed.

Lemma choices_of_omap lines :
  choices_of lines = omap (λ l, fst <$> extract l) (choiceLines lines).
Proof. unfold choices_of, extract_all. by rewrite extract_all_omap. Qed.

Lemma is_choice_line_or l : is_choice_line l = true ↔ set_aside l.
Proof. unfold is_choice_line, set_aside. apply orb_true_iff. Qed.

Lemma is_choice_line_nor l : is_choice_line l = false ↔ ¬ set_aside l.
Proof.
  rewrite <- is_choice_line_or. destruct (is_choice_line l); naive_solver.
Qed.

(** The menu of a section with [N >= 1] choices has [N + 1] entries, the
    last of which is [Quit], whatever the player answers next. *)
Lemma menu_has_quit st current lines N :
  story_get st (current_key current) = Lines lines →
  length (choices_of lines) = N →
  1 ≤ N →
  length (menu (choices_of lines)) = N + 1
  ∧ menu (choices_of lines) !! N = Some quit_label
  ∧ ∀ inputs, ∃ more, events (play st inputs current) = shown lines ++ more.
Proof.
  intros Hget HN Hpos. unfold menu. split; [|split].
  - rewrite length_app. simpl. lia.
  - rewrite lookup_app_r by lia. by rewrite HN, Nat.sub_diag.
  - intros inputs. rewrite (play_section _ _ _ _ Hget).
    destruct (choices_of lines) as [|c cs] eqn:Hcs; [simpl in HN; lia|].
    destruct inputs as [|i rest]; [exists []; by rewrite app_nil_r|].
    destruct (array_get _ i) as [[|n|k|]|]; simpl;
      eauto; exists []; by rewrite app_nil_r.
Qed.

(** The answer of the prompt is the name of the entry.  With the name
    [Quit] the lookup [choices[selection]] finds nothing, the comparison
    with [Quit] fails, and (no choice of the section reading [undefined])
    the loop goes round again on the same section. *)
Lemma quit_by_name_goes_on st current lines rest :
  story_get st (current_key current) = Lines lines →
  choices_of lines ≠ [] →
  targets_of lines !! "undefined" = None →
  play st (Typed quit_label :: rest) current
  = MkRun (shown lines ++ events (play st rest current))
          (ending (play st rest current)) (unread (play st rest current)).
Proof.
  intros Hget Hne Hund. rewrite (play_section _ _ _ _ Hget).
  destruct (choices_of lines) as [|c cs] eqn:Hcs; [done|].
  change (array_get (menu (c :: cs)) (Typed quit_label)) with (Some Nothing).
  cbn [is_quit]. unfold next_section. cbn [selected_key]. by rewrite Hund.
Qed.

(** However often the player takes [Quit], the loop shows the same section
    once more and waits. *)
Lemma quit_by_name_never_stops st current lines k :
  story_get st (current_key current) = Lines lines →
  choices_of lines ≠ [] →
  targets_of lines !! "undefined" = None →
  play st (replicate k (Typed quit_label)) current
  = MkRun (concat (replicate (S k) (shown lines))) Waiting [].
Proof.
  intros Hget Hne Hund. induction k as [|k IH].
  - rewrite (play_section _ _ _ _ Hget).
    destruct (choices_of lines) as [|c cs] eqn:Hcs; [done|].
    simpl. by rewrite app_nil_r.
  - cbn [replicate]. rewrite (quit_by_name_goes_on _ _ lines) by done.
    by rewrite IH.
Qed.

(** C1: the menu is as the specification says, the effect of [Quit] is
    not.  The section [start] of [story_to_constructor] has two choices
    and its menu three entries, the last one [Quit].  The prompt answers
    with the name of the entry taken; on the answer [Quit] the loop does
    not end: it prints the section and shows the menu a second time, and
    waits for another answer. *)
Theorem quit_by_name_does_not_stop :
  let lines := ["You stand at a crossroads."; "* [Go left] -> constructor";
                "* [Go right] -> right_path"] in
  story_get (parse story_to_constructor) "start" = Lines lines
  ∧ menu (choices_of lines) = ["Go left"; "Go right"; "Quit"]
  ∧ play (parse story_to_constructor) [Typed "Quit"] (Name "start")
    = MkRun (shown lines ++ shown lines) Waiting [].
Proof. repeat split; vm_compute; reflexivity. Qed.

(** C2, as the specification words it, fails.  In the section [start] of
    [story_bullets] neither the bullet line nor the exit line is a choice
    line in the words of the specification (the first has no arrow, the
    second no leading [*]), so both should be printed after [Welcome] and
    the section should offer nothing.  The loop prints [Welcome] only, and
    offers the exit line as a choice. *)
Lemma choice_line_rule_counterexample :
  section_lines (parse story_bullets) "start"
    = Some ["Welcome"; "* A bullet point"; "Leave [exit] -> end"]
  ∧ spec_choice_line "* A bullet point" = false
  ∧ spec_choice_line "Leave [exit] -> end" = false
  ∧ spec_narrative ["Welcome"; "* A bullet point"; "Leave [exit] -> end"]
    = ["Welcome"; "* A bullet point"; "Leave [exit] -> end"]
  ∧ narrative ["Welcome"; "* A bullet point"; "Leave [exit] -> end"]
    ≠ spec_narrative ["Welcome"; "* A bullet point"; "Leave [exit] -> end"]
  ∧ play (parse story_bullets) [] (Name "start")
    = MkRun [Log White "Welcome"; Select prompt_message ["Leave exit"; "Quit"]]
            Waiting [].
Proof. repeat split; try (vm_compute; reflexivity). vm_compute. discriminate. Qed.

(** The lines that give the menu its entries, with the entries. *)
Lemma offered_lines lines :
  ∃ offered,
    kept_by (λ l, set_aside l ∧ arrow_shaped l) lines offered
    ∧ Forall2 (λ l text, ∃ label target,
                 choice_form l label target ∧ text = label_text label)
        offered (choices_of lines).
Proof.
  rewrite choices_of_omap. unfold choiceLines.
  induction lines as [|l lines (offered & Hkept & Hall)]; [by exists []|].
  destruct (extract_form l) as [Hform Hshape].
  destruct (is_choice_line l) eqn:Hl.
  - rewrite filter_cons_True by done. cbn [omap list_omap].
    destruct (extract l) as [[text target]|] eqn:Hx;
      cbn [fmap option_fmap option_map fst].
    + destruct (Hform text target eq_refl) as (label & tgt & Hf & -> & _).
      exists (l :: offered). split.
      * left. split; [|by exists offered].
        split; [by apply is_choice_line_or|by exists label, tgt].
      * constructor; [by exists label, tgt|done].
    + exists offered. split; [|done]. right. split; [|done].
      intros [_ Hs]. apply Hshape in Hs. by destruct Hs.
  - rewrite filter_cons_False by (by rewrite Hl).
    exists offered. split; [|done]. right. split; [|done].
    intros [Hs _]. apply is_choice_line_or in Hs. congruence.
Qed.

(** C2, amended.  A line of the section is set aside for the menu if and
    only if it begins with [*] or contains [[exit]] in any letter case;
    every other line of the section is narrative text and is printed, in
    the order of the section, before the menu (or the end-of-section
    notice).  The menu has one entry, in order, for each line set aside
    that has a label, the arrow and a target name, and the entry is the
    text of such a label; a line of that form contains an arrow token
    followed by a target name. *)
Theorem section_lines_classified
    (st : Story) (current : Current) (inputs : list Input) (lines : list string) :
  story_get st (current_key current) = Lines lines →
  (∀ l, l ∈ narrative lines ↔ l ∈ lines ∧ ¬ set_aside l)
  ∧ narrative lines `sublist_of` lines
  ∧ (∃ offered,
       kept_by (λ l, set_aside l ∧ arrow_shaped l) lines offered
       ∧ Forall2 (λ l text, ∃ label target,
                    choice_form l label target ∧ text = label_text label)
           offered (choices_of lines))
  ∧ (∀ l, arrow_shaped l → has_arrow_target l = true)
  ∧ ∃ more,
      events (play st inputs current) = map (Log White) (narrative lines) ++ more
      ∧ (more = [Log Gray end_of_section]
         ∨ ∃ later, more = Select prompt_message (menu (choices_of lines)) :: later).
Proof.
  intros Hget. split; [|split; [|split; [|split]]].
  - intros l. unfold narrative. rewrite list_elem_of_filter.
    rewrite is_choice_line_nor. tauto.
  - apply sublist_filter.
  - apply offered_lines.
  - intros l (label & target & Hform). by eapply choice_form_has_arrow_target.
  - rewrite (play_section _ _ _ _ Hget).
    destruct (choices_of lines) as [|c cs] eqn:Hcs; [eauto|].
    unfold shown. rewrite Hcs.
    destruct inputs as [|i rest]; [eexists; split; [reflexivity|right; eauto]|].
    destruct (array_get _ i) as [[|n|k|]|]; simpl;
      rewrite <- ?app_assoc; eexists; (split; [reflexivity|right; simpl; eauto]).
Qed.

Lemma section_lines_classified_witness :
  let lines := ["Welcome"; "* A bullet point"; "Leave [exit] -> end"] in
  story_get (parse story_bullets) "start" = Lines lines
  ∧ narrative lines = ["Welcome"]
  ∧ choices_of lines = ["Leave exit"]
  ∧ ∃ more,
      events (play (parse story_bullets) [Typed "Leave exit"] (Name "start"))
      = map (Log White) (narrative lines) ++ more.
Proof.
  split; [reflexivity|]. split; [reflexivity|]. split; [reflexivity|].
  destruct (section_lines_classified (parse story_bullets) (Name "start")
              [Typed "Leave exit"]
              ["Welcome"; "* A bullet point"; "Leave [exit] -> end"])
    as (_ & _ & _ & _ & more & Hev & _); [reflexivity|].
  exists more. exact Hev.
Defined.

(** C7: the guard of the loop catches a missing section only when the
    name is not a member of [Object.prototype].  The story
    [story_by_length] sends its choice [3] to [constructor], a section
    the file does not have.  The player takes the first entry of the menu,
    named [length]; the prompt answers with that name, and
    [choices['length']] is the length of the menu, 3, so the loop goes
    where the choice [3] leads.  The parsed map has no entry
    [constructor], yet the loop does not report it: reading
    [story['constructor']] gives a function, the guard lets it through,
    and iterating over it throws. *)
Theorem inherited_section_name_throws :
  section_lines (parse story_by_length) "constructor" = None
  ∧ story_get (parse story_by_length) "start"
    = Lines ["Pick a door."; "* [length] -> start"; "* [3] -> constructor"]
  ∧ play (parse story_by_length) [Typed "length"] (Name "start")
    = MkRun [ Log White "Pick a door.";
              Select prompt_message ["length"; "3"; "Quit"] ]
            (Throw "lines is not iterable") [].
Proof. repeat split; vm_compute; reflexivity. Qed.

(** What the guard does catch: a name that is neither a section of the
    file nor inherited is reported, and the loop ends there. *)
Lemma missing_section_reported content name inputs :
  section_lines (parse content) "__proto__" = None →
  section_lines (parse content) name = None →
  inherited name = false →
  play (parse content) inputs (Name name)
  = MkRun [Log Red (not_found_message name)] (Ret (Name name)) inputs.
Proof.
  intros Hproto Hname Hinh. apply play_missing. simpl.
  unfold story_get, section_lines in *. simpl in Hproto.
  destruct (String.eqb name "__proto__") eqn:E.
  - apply String.eqb_eq in E. subst. by vm_compute in Hinh.
  - by rewrite Hname, Hproto, Hinh.
Qed.

(** The section [start] when no marker has opened it, whatever else the
    file has opened. *)
Lemma missing_start_reported (st : Story) inputs :
  own st !! "start" = None →
  play st inputs (Name "start")
  = MkRun [Log Red (not_found_message "start")] (Ret (Name "start")) inputs.
Proof.
  intros Hown. apply play_missing. cbn [current_key]. unfold story_get.
  rewrite Hown. by destruct (proto_lines st).
Qed.

End TextStoryFacts.


(** ** The compiler adapter *)

Module CompilerFacts.

Import Js Compiler.

Ltac run_effects :=
  unfold existsSync, readFileSync, chmodSync_quiet, when;
  unfold mbind, M_bind, mret, M_ret, try_catch, emit, emit_all, throw, exit,
    get_files, set_files;
  cbn [files inputs trace fst snd].

Lemma logged_logged w es es' : logged (logged w es) es' = logged w (es ++ es').
Proof. unfold logged. simpl. by rewrite app_assoc. Qed.

Lemma existsSync_absent p w :
  files w !! p = None → existsSync p w = (Ret false, logged w [Probe p]).
Proof. intros H. run_effects. by rewrite H. Qed.

Lemma existsSync_present p w :
  is_Some (files w !! p) → existsSync p w = (Ret true, logged w [Probe p]).
Proof. intros H. run_effects. by rewrite bool_decide_eq_true_2. Qed.

Lemma probe_possible_none node ps : ∀ w,
  Forall (λ p, files w !! p = None) ps →
  probe_possible node ps w = (Ret None, logged w (map Probe ps)).
Proof.
  induction ps as [|p ps IH]; intros w Hall; simpl.
  - unfold logged. rewrite app_nil_r. by destruct w.
  - apply Forall_cons in Hall as [Hp Hall].
    unfold mbind at 1, M_bind. rewrite (existsSync_absent p w Hp).
    rewrite IH by done. by rewrite logged_logged.
Qed.

Lemma probe_linux_none ps : ∀ w,
  Forall (λ p, files w !! p = None) ps →
  probe_linux ps w = (Ret None, logged w (map Probe ps)).
Proof.
  induction ps as [|p ps IH]; intros w Hall; simpl.
  - unfold logged. rewrite app_nil_r. by destruct w.
  - apply Forall_cons in Hall as [Hp Hall].
    unfold mbind at 1, M_bind. rewrite (existsSync_absent p w Hp).
    rewrite IH by done. by rewrite logged_logged.
Qed.

Lemma findInklecate_none node w :
  Forall (λ p, files w !! p = None) (possiblePaths node ++ linuxPaths) →
  findInklecate node w = (Ret None, logged w (map Probe (all_probes node))).
Proof.
  intros [Hposs Hlin]%Forall_app. unfold findInklecate, all_probes.
  unfold mbind, M_bind. rewrite probe_possible_none by done.
  destruct (String.eqb (platform node) "linux").
  - rewrite probe_linux_none by done. by rewrite logged_logged, map_app.
  - by rewrite app_nil_r.
Qed.

Lemma existsSync_returns p w : ∃ b, existsSync p w = (Ret b, logged w [Probe p]).
Proof. eexists. reflexivity. Qed.

Lemma probe_possible_returns node ps : ∀ w,
  ∃ r w', probe_possible node ps w = (Ret r, w').
Proof.
  induction ps as [|p ps IH]; intros w; simpl; [by eexists _, _|].
  unfold mbind at 1, M_bind. destruct (existsSync_returns p w) as [[] ->].
  - destruct (negb _ && negb _); run_effects; by eexists _, _.
  - apply IH.
Qed.

Lemma probe_linux_returns ps : ∀ w, ∃ r w', probe_linux ps w = (Ret r, w').
Proof.
  induction ps as [|p ps IH]; intros w; simpl; [by eexists _, _|].
  unfold mbind at 1, M_bind. destruct (existsSync_returns p w) as [[] ->].
  - by eexists _, _.
  - apply IH.
Qed.

Lemma findInklecate_returns node w : ∃ r w', findInklecate node w = (Ret r, w').
Proof.
  unfold findInklecate. unfold mbind, M_bind.
  destruct (probe_possible_returns node (possiblePaths node) w) as ([p|] & w' & ->).
  - by eexists _, _.
  - case_match; [apply probe_linux_returns|by eexists _, _].
Qed.

(** [compileInk] never throws and never ends the process: it returns a
    result, whatever the files and the compiler do. *)
Lemma compileInk_returns node options w :
  ∃ res w', compileInk node options w = (Ret res, w').
Proof.
  unfold compileInk. unfold mbind at 1, M_bind.
  destruct (existsSync_returns (opt_inputPath options) w) as [[] ->]; cbn [negb];
    [|by eexists _, _].
  destruct (negb (String.eqb _ _)); [by eexists _, _|].
  unfold mbind at 1, M_bind.
  destruct (findInklecate_returns node (logged w [Probe (opt_inputPath options)]))
    as ([p|] & w' & ->); [|by eexists _, _].
  destruct (negb (truthy p)); [by eexists _, _|].
  unfold execSync, writeFileSync. run_effects.
  repeat (first [progress cbv beta iota | case_match]);
    first [by simplify_eq | by eexists _, _].
Qed.

(** C4. When the input path does not exist, [compileInk] returns the
    failure that reports the missing input file; all it has done by then
    is the existence test of the input path itself: no candidate location
    of the compiler is probed, no command is run, no file is changed. *)
Theorem compileInk_missing_input (node : Node) (options : CompileOptions) (w : World) :
  files w !! opt_inputPath options = None →
  compileInk node options w
  = (Ret (MkResult false None
            (Some ("Input file not found: " +:+ opt_inputPath options)) None),
     MkWorld (files w) (inputs w) (trace w ++ [Probe (opt_inputPath options)])).
Proof.
  intros H. unfold compileInk. unfold mbind at 1, M_bind.
  by rewrite (existsSync_absent _ w H).
Qed.

Lemma compileInk_missing_input_witness :
  files Samples.with_compiler !! "/home/player/games/none.ink" = None
  ∧ compileInk Samples.linux (MkOptions "/home/player/games/none.ink" None false)
      Samples.with_compiler
    = (Ret (MkResult false None
              (Some "Input file not found: /home/player/games/none.ink") None),
       MkWorld (files Samples.with_compiler) []
         [Probe "/home/player/games/none.ink"]).
Proof.
  split; [reflexivity|].
  apply (compileInk_missing_input Samples.linux
           (MkOptions "/home/player/games/none.ink" None false) Samples.with_compiler).
  reflexivity.
Defined.

(** C5. When the input exists and has the ink extension, and no candidate
    location holds a compiler, [compileInk] returns (it does not throw)
    the failure that reports that the compiler was not found; it has
    probed the input and the candidate locations, and has run nothing. *)
Theorem compileInk_no_compiler (node : Node) (options : CompileOptions) (w : World) :
  is_Some (files w !! opt_inputPath options) →
  toLowerCase node (extname node (opt_inputPath options)) = ".ink" →
  Forall (λ p, files w !! p = None) (possiblePaths node ++ linuxPaths) →
  compileInk node options w
  = (Ret (MkResult false None (Some "inklecate compiler not found.") (Some "")),
     MkWorld (files w) (inputs w)
       (trace w ++ Probe (opt_inputPath options) :: map Probe (all_probes node))).
Proof.
  intros Hin Hext Hnone. unfold compileInk. unfold mbind at 1, M_bind.
  rewrite (existsSync_present _ w Hin). simpl. rewrite Hext. simpl.
  unfold mbind, M_bind. rewrite findInklecate_none by done.
  unfold logged. simpl. by rewrite <- app_assoc.
Qed.

Lemma compileInk_no_compiler_witness :
  compileInk Samples.linux (MkOptions "/home/player/games/tale.ink" None false)
    Samples.no_compiler
  = (Ret (MkResult false None (Some "inklecate compiler not found.") (Some "")),
     MkWorld (files Samples.no_compiler) []
       (Probe "/home/player/games/tale.ink" :: map Probe (all_probes Samples.linux))).
Proof.
  apply (compileInk_no_compiler Samples.linux
           (MkOptions "/home/player/games/tale.ink" None false) Samples.no_compiler).
  - apply (bool_decide_unpack _). vm_compute. reflexivity.
  - reflexivity.
  - apply (bool_decide_unpack _). vm_compute. reflexivity.
Defined.

End CompilerFacts.


(** ** The command handlers *)

Module CliFacts.

Import Js Compiler Cli CompilerFacts.

Ltac run_handler :=
  unfold of_try, on_restore_error;
  unfold mbind, M_bind, mret, M_ret, try_catch, emit, emit_all, throw, exit,
    get_files, set_files;
  cbn [files inputs trace fst snd].

Lemma emit_all_logged {es : list Event} {w : World} :
  emit_all es w = (Ret (), logged w es).
Proof. done. Qed.

Lemma emit_logged {e : Event} {w : World} : emit e w = (Ret (), logged w [e]).
Proof. done. Qed.

Section WithPlatform.
Variable node : Node.
Variable engine : Engine.
Variable options : CLIOptions.

(** No compiler: the text interpreter runs on the same file. *)
Lemma runInkStory_without_compiler filePath w :
  Forall (λ p, files w !! p = None) (possiblePaths node ++ linuxPaths) →
  runInkStory node engine options filePath w
  = runTextStory filePath
      (logged w (compiling_notice options filePath
                 ++ map Probe (all_probes node) ++ no_compiler_notice)).
Proof.
  intros Hnone. unfold runInkStory.
  unfold mbind at 1, M_bind. rewrite emit_all_logged.
  unfold mbind at 1, M_bind. rewrite findInklecate_none by done.
  change (negb (truthy (default "" None))) with true. cbn iota.
  unfold mbind at 1, M_bind. rewrite emit_all_logged.
  by rewrite !logged_logged.
Qed.

(** A compiler is there and the compilation fails: the text interpreter
    runs on the same file. *)
Lemma runInkStory_failed_compilation filePath w p w1 res w2 :
  findInklecate node (logged w (compiling_notice options filePath))
    = (Ret (Some p), w1) →
  truthy p = true →
  compileInk node
    (MkOptions filePath (Some (replace_ink_suffix filePath)) (0 <? verbose options)%nat)
    w1 = (Ret res, w2) →
  success res = false →
  runInkStory node engine options filePath w
  = runTextStory filePath (logged w2 (fallback_notice (default "" (error res)))).
Proof.
  intros Hfind Hp Hcomp Hres. unfold runInkStory.
  unfold mbind at 1, M_bind. rewrite emit_all_logged.
  unfold mbind at 1, M_bind. rewrite Hfind.
  change (default "" (Some p)) with p. rewrite Hp. cbn [negb].
  unfold try_catch. unfold mbind at 1, M_bind. rewrite Hcomp.
  rewrite Hres. cbn [negb]. unfold mbind at 1, M_bind. unfold throw at 1.
  unfold mbind at 1, M_bind. by rewrite emit_all_logged.
Qed.

(** The compile command, when the compilation fails. *)
Lemma compile_failed_compilation filePath w res w2 :
  compileInk node (MkOptions filePath None false) (logged w [compile_banner filePath])
    = (Ret res, w2) →
  success res = false →
  ∃ es, compile node filePath w = (Exit 1, logged w2 es).
Proof.
  intros Hcomp Hres. unfold compile.
  unfold mbind at 1, M_bind. rewrite emit_logged.
  unfold try_catch. unfold mbind at 1, M_bind.
  unfold inkToJson. unfold mbind at 1, M_bind. rewrite Hcomp, Hres. cbn [negb].
  unfold when. destruct (includes _ _).
  - run_handler. eexists. unfold logged. simpl. rewrite <- app_assoc. reflexivity.
  - run_handler. eexists. unfold logged. simpl. reflexivity.
Qed.

(** C8. Running an ink file: when no compiler is found, and when a
    compiler is found but the compilation fails, [runInkStory] goes on
    with the plain-text interpreter on the same file, after its notices;
    it does not end the process.  The compile command: when the
    compilation fails, [compile] ends the process with exit code 1. *)
Theorem compile_failure_policy (filePath : string) (w : World) :
  (Forall (λ p, files w !! p = None) (possiblePaths node ++ linuxPaths) →
   runInkStory node engine options filePath w
   = runTextStory filePath
       (logged w (compiling_notice options filePath
                  ++ map Probe (all_probes node) ++ no_compiler_notice)))
  ∧ (∀ p w1 res w2,
       findInklecate node (logged w (compiling_notice options filePath))
         = (Ret (Some p), w1) →
       truthy p = true →
       compileInk node
         (MkOptions filePath (Some (replace_ink_suffix filePath))
                    (0 <? verbose options)%nat) w1 = (Ret res, w2) →
       success res = false →
       runInkStory node engine options filePath w
       = runTextStory filePath
           (logged w2 (fallback_notice (default "" (error res)))))
  ∧ (∀ res w2,
       compileInk node (MkOptions filePath None false)
         (logged w [compile_banner filePath]) = (Ret res, w2) →
       success res = false →
       ∃ es, compile node filePath w = (Exit 1, logged w2 es)).
Proof.
  split; [|split].
  - apply runInkStory_without_compiler.
  - apply runInkStory_failed_compilation.
  - apply compile_failed_compilation.
Qed.

Lemma replay_unreadable filePath w :
  files w !! filePath = None → restore_fails node engine filePath w (read_error filePath).
Proof.
  intros Hfile. unfold restore_fails, replay, readFileSync. run_handler.
  rewrite Hfile. unfold logged. simpl. by rewrite <- !app_assoc.
Qed.

Lemma replay_unparsable filePath w content msg :
  files w !! filePath = Some content →
  json_parse node content = Raise msg →
  restore_fails node engine filePath w msg.
Proof.
  intros Hfile Hparse. unfold restore_fails, replay, readFileSync. run_handler.
  rewrite Hfile. cbv beta iota. rewrite Hparse.
  unfold logged. simpl. by rewrite <- !app_assoc.
Qed.

Lemma replay_no_object filePath w content doc msg :
  files w !! filePath = Some content →
  json_parse node content = Ok doc →
  field "storyJson" doc = Raise msg →
  restore_fails node engine filePath w msg.
Proof.
  intros Hfile Hparse Hfield. unfold restore_fails, replay, readFileSync. run_handler.
  rewrite Hfile. cbv beta iota. rewrite Hparse. cbv beta iota. rewrite Hfield.
  unfold logged. simpl. by rewrite <- !app_assoc.
Qed.

Lemma replay_rejected_source filePath w content doc source msg :
  files w !! filePath = Some content →
  json_parse node content = Ok doc →
  field "storyJson" doc = Ok source →
  new_story engine source = Raise msg →
  restore_fails node engine filePath w msg.
Proof.
  intros Hfile Hparse Hfield Hnew. unfold restore_fails, replay, readFileSync.
  run_handler.
  rewrite Hfile. cbv beta iota. rewrite Hparse. cbv beta iota. rewrite Hfield.
  cbv beta iota. rewrite Hnew.
  unfold logged. simpl. by rewrite <- !app_assoc.
Qed.

Lemma replay_rejected_state filePath w content doc source s state msg :
  files w !! filePath = Some content →
  json_parse node content = Ok doc →
  field "storyJson" doc = Ok source →
  new_story engine source = Ok s →
  field "state" doc = Ok state →
  load_json engine state s = Raise msg →
  restore_fails node engine filePath w msg.
Proof.
  intros Hfile Hparse Hfield Hnew Hstate Hload.
  unfold restore_fails, replay, readFileSync. run_handler.
  rewrite Hfile. cbv beta iota. rewrite Hparse. cbv beta iota. rewrite Hfield.
  cbv beta iota. rewrite Hnew. cbv beta iota. rewrite Hstate. cbv beta iota.
  rewrite Hload.
  unfold logged. simpl. by rewrite <- !app_assoc.
Qed.

Lemma replay_restored filePath w content doc source s state s' :
  files w !! filePath = Some content →
  json_parse node content = Ok doc →
  field "storyJson" doc = Ok source →
  new_story engine source = Ok s →
  field "state" doc = Ok state →
  load_json engine state s = Ok s' →
  restore_resumes node engine filePath w s'.
Proof.
  intros Hfile Hparse Hfield Hnew Hstate Hload.
  unfold restore_resumes, replay, readFileSync. run_handler.
  rewrite Hfile. cbv beta iota. rewrite Hparse. cbv beta iota. rewrite Hfield.
  cbv beta iota. rewrite Hnew. cbv beta iota. rewrite Hstate. cbv beta iota.
  rewrite Hload. cbv beta iota.
  unfold logged. simpl. by rewrite <- !app_assoc.
Qed.

Lemma field_absent name fields :
  Forall (λ kv, kv.1 ≠ name) fields → field name (JObject fields) = Ok None.
Proof.
  intros Hall. simpl. f_equal.
  replace (filter (λ kv, kv.1 = name) fields) with (@nil (string * Json)); [done|].
  symmetry. induction Hall as [|kv fields Hkv Hall IH]; [done|].
  by rewrite filter_cons_False.
Qed.

Lemma lacks_field name doc :
  lacks name doc → (∃ msg, field name doc = Raise msg) ∨ field name doc = Ok None.
Proof.
  intros Hlacks. destruct doc as [| | | | |fields];
    try (right; reflexivity); [left; by eexists|].
  right. apply field_absent. by apply Hlacks.
Qed.

Lemma field_raises name name' doc msg :
  field name doc = Raise msg → ∃ msg', field name' doc = Raise msg'.
Proof. destruct doc; try done. by eexists. Qed.

Lemma replay_lacking filePath w content doc :
  rejects_undefined engine →
  files w !! filePath = Some content →
  json_parse node content = Ok doc →
  lacks "storyJson" doc ∨ lacks "state" doc →
  ∃ msg, restore_fails node engine filePath w msg.
Proof.
  intros [[msg0 Hnew0] Hload0] Hfile Hparse Hlacks.
  destruct (field "storyJson" doc) as [source|msg] eqn:Hsource;
    [|exists msg; by eapply replay_no_object].
  destruct Hlacks as [Hlacks|Hlacks]; apply lacks_field in Hlacks.
  - destruct Hlacks as [[msg Hraise]|Hnone]; [congruence|].
    exists msg0. eapply replay_rejected_source; [done|done|done|].
    congruence.
  - destruct (new_story engine source) as [s|msg] eqn:Hnew;
      [|exists msg; by eapply replay_rejected_source].
    destruct Hlacks as [[msg Hraise]|Hnone].
    + destruct (field_raises _ "storyJson" _ _ Hraise) as [msg' Hraise'].
      congruence.
    + destruct (Hload0 s) as [msg Hload]. exists msg.
      by eapply replay_rejected_state.
Qed.

(** C3.  The restore fails when the save document lacks the compiled story
    source or the engine state, and when reading the file, parsing the
    document, building the engine from the stored source or applying the
    stored state throws.  [replay] checks no field itself: a field that is
    absent reaches the engine as [undefined], which the engine rejects by
    throwing.  Every one of these failures is reported ([Failed to restore
    game], with the message of the exception) and ends the process with
    exit code 1.  When none of these calls throws, the game is announced
    as restored and the story loop runs. *)
Theorem restore_failure_cases (filePath : string) (w : World) :
  rejects_undefined engine →
  (∀ content doc,
     files w !! filePath = Some content →
     json_parse node content = Ok doc →
     lacks "storyJson" doc ∨ lacks "state" doc →
     ∃ msg, restore_fails node engine filePath w msg)
  ∧ (files w !! filePath = None →
     restore_fails node engine filePath w (read_error filePath))
  ∧ (∀ content msg,
       files w !! filePath = Some content →
       json_parse node content = Raise msg →
       restore_fails node engine filePath w msg)
  ∧ (∀ content doc msg,
       files w !! filePath = Some content →
       json_parse node content = Ok doc →
       field "storyJson" doc = Raise msg →
       restore_fails node engine filePath w msg)
  ∧ (∀ content doc source msg,
       files w !! filePath = Some content →
       json_parse node content = Ok doc →
       field "storyJson" doc = Ok source →
       new_story engine source = Raise msg →
       restore_fails node engine filePath w msg)
  ∧ (∀ content doc source s state msg,
       files w !! filePath = Some content →
       json_parse node content = Ok doc →
       field "storyJson" doc = Ok source →
       new_story engine source = Ok s →
       field "state" doc = Ok state →
       load_json engine state s = Raise msg →
       restore_fails node engine filePath w msg)
  ∧ (∀ content doc source s state s',
       files w !! filePath = Some content →
       json_parse node content = Ok doc →
       field "storyJson" doc = Ok source →
       new_story engine source = Ok s →
       field "state" doc = Ok state →
       load_json engine state s = Ok s' →
       restore_resumes node engine filePath w s').
Proof.
  intros Hengine. repeat apply conj.
  - intros. by eapply replay_lacking.
  - apply replay_unreadable.
  - intros. by eapply replay_unparsable.
  - intros. by eapply replay_no_object.
  - intros. by eapply replay_rejected_source.
  - intros. by eapply replay_rejected_state.
  - intros. by eapply replay_restored.
Qed.

End WithPlatform.

(** The exception of the play loop reaches the handler of [runFile]: the
    run of [door_story] ends in an error report and exit code 1, without
    the footer. *)
Lemma runFile_inherited_section_exits :
  runFile Samples.linux Samples.lenient (MkCLIOptions 0 false)
    "/home/player/games/door.txt" Samples.door_story
  = (Exit 1,
     MkWorld (files Samples.door_story) []
       (Presenter.printHeader "Calligrapher"
        ++ [ Probe "/home/player/games/door.txt";
             ReadFile "/home/player/games/door.txt";
             Log CyanBright (nl +:+ "📖 Loaded: /home/player/games/door.txt" +:+ nl);
             Log White "Pick a door.";
             Select TextStory.prompt_message ["length"; "3"; "Quit"];
             LogError Red (nl +:+ "✖ Error: lines is not iterable") ])).
Proof. vm_compute. reflexivity. Qed.

(** The save document [{}] has neither the story source nor the engine
    state: the engine throws on [undefined], and the restore is reported
    as failed. *)
Lemma restore_failure_cases_witness :
  rejects_undefined Samples.lenient
  ∧ lacks "storyJson" (JObject [])
  ∧ (∃ msg, restore_fails Samples.linux Samples.lenient "/home/player/save.json"
              Samples.empty_save msg)
  ∧ restore_fails Samples.linux Samples.lenient "/home/player/none.json"
      Samples.empty_save (read_error "/home/player/none.json").
Proof.
  assert (Hengine : rejects_undefined Samples.lenient).
  { split; [eexists; reflexivity|intros s; eexists; reflexivity]. }
  assert (Hlacks : lacks "storyJson" (JObject [])).
  { intros fields [= <-]. constructor. }
  destruct (restore_failure_cases Samples.linux Samples.lenient
              "/home/player/save.json" Samples.empty_save Hengine)
    as (Hmissing & _).
  destruct (restore_failure_cases Samples.linux Samples.lenient
              "/home/player/none.json" Samples.empty_save Hengine)
    as (_ & Hread & _).
  split; [exact Hengine|]. split; [exact Hlacks|]. split.
  - apply (Hmissing "{}" (JObject [])); [reflexivity|reflexivity|by left].
  - apply Hread. reflexivity.
Defined.

(** What the restore of [{}] prints with that engine. *)
Lemma restore_without_fields_reported :
  replay Samples.linux Samples.lenient "/home/player/save.json" Samples.empty_save
  = (Exit 1,
     logged Samples.empty_save
       [ restore_banner "/home/player/save.json";
         ReadFile "/home/player/save.json";
         restore_failed "Cannot read properties of undefined (reading 'inkVersion')" ]).
Proof. vm_compute. reflexivity. Qed.

Lemma compile_failure_policy_witness :
  let file := "/home/player/games/tale.ink" in
  let opts := MkCLIOptions 0 false in
  runInkStory Samples.linux Samples.lenient opts file Samples.no_compiler
  = runTextStory file
      (logged Samples.no_compiler
         (map Probe (all_probes Samples.linux) ++ no_compiler_notice))
  ∧ (∃ msg w2,
       runInkStory Samples.linux Samples.lenient opts file Samples.with_compiler
       = runTextStory file (logged w2 (fallback_notice msg)))
  ∧ ∃ w3, compile Samples.linux file Samples.with_compiler = (Exit 1, w3).
Proof.
  intros file opts.
  destruct (compile_failure_policy Samples.linux Samples.lenient opts file
              Samples.no_compiler) as (Hnone & _ & _).
  destruct (compile_failure_policy Samples.linux Samples.lenient opts file
              Samples.with_compiler) as (_ & Hfail & Hcmd).
  split; [|split].
  - apply Hnone. apply (bool_decide_unpack _). vm_compute. reflexivity.
  - eexists _, _. eapply (Hfail "/usr/local/bin/inklecate").
    + vm_compute. reflexivity.
    + reflexivity.
    + vm_compute. reflexivity.
    + reflexivity.
  - edestruct Hcmd as [es Hes].
    + vm_compute. reflexivity.
    + reflexivity.
    + eexists. exact Hes.
Defined.

End CliFacts.


(** ** The command line *)

Module ArgsFacts.

Import Js Args ArgsSpec.


(** [parseInt] gives the double nearest to the digits (2^53 + 1 is
    stored as 2^53, a run of 400 digits as [Infinity]) and skips the
    whitespace of ECMAScript before them (here U+00A0). *)
Lemma parseInt_examples :
  parseInt "9007199254740993" = Int 9007199254740992
  ∧ parseInt (bytes [194; 160] +:+ "-42px") = Int (-42)
  ∧ parseInt (text_of (replicate 400 "9")) = Infinity false
  ∧ parseInt "seven" = NaN.
Proof. repeat split; vm_compute; reflexivity. Qed.

(** An argument that is [simple] is dealt with on its own: the loop goes
    on after it with the arguments that follow. *)
Lemma parse_loop_simple p arg l :
  simple arg = true → parse_loop p (arg :: l) = parse_loop (parse_loop p [arg]) l.
Proof.
  intros Hs. unfold simple, is_any, arr_includes in Hs. cbn [existsb] in Hs.
  apply negb_true_iff in Hs. repeat (apply orb_false_iff in Hs as [? Hs]).
  cbn [parse_loop]. unfold is_any, arr_includes. cbn [existsb].
  repeat match goal with H : String.eqb arg _ = false |- _ => rewrite H; clear H end.
  cbn [orb].
  repeat match goal with
  | |- context [if ?b then _ else _] => destruct b eqn:?; [done|]
  end.
  destruct (command p), (command_of arg); try done.
  all: by destruct (negb _ && story_suffix arg).
Qed.

Lemma simple_from_flags arg :
  is_help arg || is_version arg = false → takes_value arg = false →
  simple arg = true.
Proof.
  unfold is_help, is_version, takes_value, simple, is_any, arr_includes.
  cbn [existsb]. intros Hhv Htv.
  repeat (apply orb_false_iff in Hhv as [? Hhv] || apply orb_false_iff in Hhv as [Hhv ?]).
  repeat (apply orb_false_iff in Htv as [? Htv]).
  repeat match goal with H : _ || _ = false |- _ => apply orb_false_iff in H as [? ?] end.
  repeat match goal with H : String.eqb arg _ = false |- _ => rewrite H; clear H end.
  done.
Qed.

Lemma takes_value_cases arg :
  takes_value arg = true →
  arg = "--seed" ∨ arg = "--output" ∨ arg = "-o" ∨ arg = "--save" ∨ arg = "-S".
Proof.
  unfold takes_value, is_any, arr_includes. cbn [existsb]. intros H.
  repeat (apply orb_true_iff in H as [->%String.eqb_eq|H]; [tauto|]).
  done.
Qed.

(** Arguments that are read through leave the loop where it would be had
    it started after them. *)
Lemma parse_loop_through n : ∀ p pre l,
  length pre ≤ n →
  read_through pre = true →
  parse_loop p (pre ++ l) = parse_loop (parse_loop p pre) l.
Proof.
  induction n as [|n IH]; intros p [|a rest] l Hlen Hr; try done;
    [cbn [length] in Hlen; lia|].
  cbn [read_through] in Hr. cbn [length] in Hlen.
  destruct (is_help a || is_version a) eqn:Hhv; [done|].
  destruct (takes_value a) eqn:Htv.
  - destruct rest as [|v rest]; [done|]. cbn [length] in Hlen.
    apply takes_value_cases in Htv as [->|[->|[->|[->| ->]]]];
      apply (IH _ rest l); (lia || done).
  - pose proof (simple_from_flags a Hhv Htv) as Hs.
    cbn [app]. rewrite (parse_loop_simple p a (rest ++ l)) by done.
    rewrite (parse_loop_simple p a rest) by done. apply IH; [lia|done].
Qed.

Lemma parse_loop_app p pre l :
  read_through pre = true →
  parse_loop p (pre ++ l) = parse_loop (parse_loop p pre) l.
Proof. by apply (parse_loop_through (length pre)). Qed.

(** X1. A help flag that is read as a flag (in particular, not as the
    value of an option) ends the parsing: what precedes it is kept, the
    flag is recorded, and nothing that follows is looked at.  The same
    holds for a version flag. *)
Theorem help_and_version_end_parsing (pre : list string) (h : string) (post : list string) :
  read_through pre = true →
  (is_help h = true →
   parseArgs (pre ++ h :: post) = with_options set_help (parseArgs pre))
  ∧ (is_version h = true →
     parseArgs (pre ++ h :: post) = with_options set_version (parseArgs pre)).
Proof.
  intros Hpre. unfold parseArgs. rewrite !parse_loop_app by done. split.
  - intros Hh. cbn [parse_loop]. unfold is_help in Hh. by rewrite Hh.
  - intros Hv. unfold is_version, is_any, arr_includes in Hv. cbn [existsb] in Hv.
    rewrite orb_false_r in Hv.
    apply orb_true_iff in Hv as [->%String.eqb_eq| ->%String.eqb_eq]; done.
Qed.

Lemma help_and_version_end_parsing_witness :
  parseArgs (["-o"; "out.json"; "run"] ++ "--help" :: ["story.ink"; "--silent"])
  = with_options set_help (parseArgs ["-o"; "out.json"; "run"])
  ∧ parseArgs (["-v"; "--seed"; "-h"] ++ "-V" :: ["story.ink"])
    = with_options set_version (parseArgs ["-v"; "--seed"; "-h"]).
Proof.
  destruct (help_and_version_end_parsing ["-o"; "out.json"; "run"] "--help"
              ["story.ink"; "--silent"])
    as [H1 _]; [reflexivity|].
  destruct (help_and_version_end_parsing ["-v"; "--seed"; "-h"] "-V" ["story.ink"])
    as [_ H2]; [reflexivity|].
  split; [apply H1|apply H2]; reflexivity.
Defined.

(** X2. An option that takes a value and is read as an option consumes
    the argument after it, whatever that argument is: it is stored (parsed
    as an integer for [--seed]) and is never read as a flag, a command or a
    file.  When the option is the last argument, the value is [undefined]
    ([NaN] for the seed). *)
Theorem option_consumes_next_argument (pre : list string) (v : string) (post : list string) :
  read_through pre = true →
  let p := parseArgs pre in
  (∀ o, is_any ["--output"; "-o"] o = true →
     parseArgs (pre ++ o :: v :: post)
     = parse_loop (with_options (set_output (Some v)) p) post
     ∧ parseArgs (pre ++ [o]) = with_options (set_output None) p)
  ∧ (∀ o, is_any ["--save"; "-S"] o = true →
     parseArgs (pre ++ o :: v :: post)
     = parse_loop (with_options (set_saveFile (Some v)) p) post
     ∧ parseArgs (pre ++ [o]) = with_options (set_saveFile None) p)
  ∧ parseArgs (pre ++ "--seed" :: v :: post)
    = parse_loop (with_options (set_seed (parseInt v)) p) post
  ∧ parseArgs (pre ++ ["--seed"]) = with_options (set_seed NaN) p.
Proof.
  intros Hpre p. unfold parseArgs in *. subst p.
  assert (∀ a b o, is_any [a; b] o = true → o = a ∨ o = b) as Hany.
  { intros a b o Ho. unfold is_any, arr_includes in Ho. cbn [existsb] in Ho.
    rewrite orb_false_r in Ho.
    apply orb_true_iff in Ho as [->%String.eqb_eq| ->%String.eqb_eq]; auto. }
  split; [|split; [|split]].
  - intros o [-> | ->]%Hany; by rewrite !parse_loop_app by done.
  - intros o [-> | ->]%Hany; by rewrite !parse_loop_app by done.
  - by rewrite parse_loop_app by done.
  - by rewrite parse_loop_app by done.
Qed.

Lemma option_consumes_next_argument_witness :
  parseArgs (["--save"; "-o"; "run"] ++ "-o" :: "--help" :: ["story.ink"])
  = parse_loop (with_options (set_output (Some "--help"))
                  (parseArgs ["--save"; "-o"; "run"]))
      ["story.ink"]
  ∧ help (options (parseArgs ["--save"; "-o"; "run"; "-o"; "--help"; "story.ink"])) = false
  ∧ file (parseArgs ["--save"; "-o"; "run"; "-o"; "--help"; "story.ink"]) = Some "story.ink"
  ∧ parseArgs ([] ++ "--seed" :: "9007199254740993" :: [])
    = with_options (set_seed (Int 9007199254740992)) (parseArgs []).
Proof.
  destruct (option_consumes_next_argument ["--save"; "-o"; "run"] "--help" ["story.ink"])
    as [Hout _]; [reflexivity|].
  destruct (option_consumes_next_argument [] "9007199254740993" [])
    as (_ & _ & Hseed & _); [reflexivity|].
  split; [apply (Hout "-o"); reflexivity|].
  split; [reflexivity|]. split; [reflexivity|]. exact Hseed.
Defined.

Lemma picked_from_update pre extra p p' :
  picked_from pre p →
  (command p' = command p
   ∨ ∃ c a, command p' = Some c ∧ a ∈ extra ∧ command_of a = Some c) →
  (file p' = file p
   ∨ ∃ a, file p' = Some a ∧ a ∈ extra ∧ story_suffix a = true ∧ word a = true) →
  (remaining p' = remaining p
   ∨ ∃ a, extra = [a] ∧ remaining p' = remaining p ++ [a] ∧ word a = true) →
  (help (options p') = help (options p) ∨ Exists (λ a, is_help a = true) extra) →
  (version (options p') = version (options p)
   ∨ Exists (λ a, is_version a = true) extra) →
  picked_from (pre ++ extra) p'.
Proof.
  intros (Hc & Hf & Hr & Hw & Hh & Hv) Hc' Hf' Hr' Hh' Hv'.
  unfold picked_from. repeat apply conj.
  - intros c Hcmd. destruct Hc' as [E|(c' & a & E & Ha & Hca)].
    + rewrite E in Hcmd. destruct (Hc c Hcmd) as (a & Ha & Hca).
      exists a. split; [apply elem_of_app; auto|done].
    + exists a. split; [apply elem_of_app; auto|congruence].
  - intros f Hfile. destruct Hf' as [E|(a & E & Ha & Hs & Hwd)].
    + rewrite E in Hfile. destruct (Hf f Hfile) as (Ha & Hs & Hwd).
      split; [apply elem_of_app; auto|done].
    + assert (f = a) as -> by congruence. split; [apply elem_of_app; auto|done].
  - destruct Hr' as [->|(a & -> & -> & _)].
    + by apply sublist_inserts_r.
    + by apply sublist_app.
  - destruct Hr' as [->|(a & -> & -> & Hwd)]; [done|].
    apply Forall_app. split; [done|by constructor].
  - intros Hhelp. apply Exists_app. destruct Hh' as [E|?]; [|auto].
    rewrite E in Hhelp. auto.
  - intros Hver. apply Exists_app. destruct Hv' as [E|?]; [|auto].
    rewrite E in Hver. auto.
Qed.

Lemma parse_loop_picked n : ∀ argv pre p,
  length argv ≤ n →
  picked_from pre p → picked_from (pre ++ argv) (parse_loop p argv).
Proof.
  induction n as [|n IH]; intros [|arg rest] pre p Hlen Hp; simpl in Hlen;
    try lia; try (by rewrite app_nil_r).
  assert (∀ p', picked_from (pre ++ [arg]) p' →
            picked_from (pre ++ arg :: rest) (parse_loop p' rest)) as Hgo.
  { intros p' Hp'. rewrite (cons_middle arg pre rest), app_assoc.
    apply IH; [lia|done]. }
  assert (∀ p', picked_from (pre ++ [arg]) p' →
            picked_from (pre ++ arg :: rest) p') as Hstop.
  { intros p' Hp'. rewrite (cons_middle arg pre rest), app_assoc.
    apply (picked_from_update _ rest p' p'); auto. }
  assert (∀ p',
            (∀ more, picked_from (pre ++ arg :: more) p') →
            picked_from (pre ++ arg :: rest)
              match rest with v :: rest' => parse_loop p' rest' | [] => p' end)
    as Hval.
  { intros p' Hp'. destruct rest as [|v rest']; [apply Hp'|].
    change (pre ++ arg :: v :: rest') with (pre ++ [arg; v] ++ rest').
    rewrite app_assoc. apply IH; [simpl in Hlen; lia|]. apply Hp'. }
  cbn [parse_loop].
  destruct (is_any ["--help"; "-h"] arg) eqn:Ehelp.
  { apply Hstop. apply (picked_from_update pre [arg] p); auto;
      right; by constructor. }
  destruct (is_any ["--version"; "-V"] arg) eqn:Ever.
  { apply Hstop. apply (picked_from_update pre [arg] p); auto;
      right; by constructor. }
  destruct (is_any ["--verbose"; "-v"] arg).
  { apply Hgo. apply (picked_from_update pre [arg] p); auto. }
  destruct (is_any ["--silent"; "-s"] arg).
  { apply Hgo. apply (picked_from_update pre [arg] p); auto. }
  destruct (String.eqb arg "--no-color").
  { apply Hgo. apply (picked_from_update pre [arg] p); auto. }
  destruct (String.eqb arg "--no-save").
  { apply Hgo. apply (picked_from_update pre [arg] p); auto. }
  destruct (String.eqb arg "--seed").
  { destruct rest as [|v rest'].
    - apply (Hval (with_options (set_seed NaN) p)). intros more.
      apply (picked_from_update pre (arg :: more) p); auto.
    - apply (Hval (with_options (set_seed (parseInt v)) p)). intros more.
      apply (picked_from_update pre (arg :: more) p); auto. }
  destruct (is_any ["--output"; "-o"] arg).
  { destruct rest as [|v rest'].
    - apply (Hval (with_options (set_output None) p)). intros more.
      apply (picked_from_update pre (arg :: more) p); auto.
    - apply (Hval (with_options (set_output (Some v)) p)). intros more.
      apply (picked_from_update pre (arg :: more) p); auto. }
  destruct (is_any ["--watch"; "-w"] arg).
  { apply Hgo. apply (picked_from_update pre [arg] p); auto. }
  destruct (String.eqb arg "--json").
  { apply Hgo. apply (picked_from_update pre [arg] p); auto. }
  destruct (is_any ["--save"; "-S"] arg).
  { destruct rest as [|v rest'].
    - apply (Hval (with_options (set_saveFile None) p)). intros more.
      apply (picked_from_update pre (arg :: more) p); auto.
    - apply (Hval (with_options (set_saveFile (Some v)) p)). intros more.
      apply (picked_from_update pre (arg :: more) p); auto. }
  destruct (startsWith "-" arg) eqn:Edash.
  { apply Hgo. apply (picked_from_update pre [arg] p); auto. }
  assert (word arg = true) as Hword by (unfold word; by rewrite Edash).
  assert (arg ∈ [arg]) as Hin by apply list_elem_of_here.
  assert (∀ cmd,
    picked_from (pre ++ [arg]) (MkParsed cmd (file p) (options p) (remaining p)) →
    cmd = command p →
    picked_from (pre ++ arg :: rest)
      (if negb (bool_decide (is_Some (file p))) && story_suffix arg
       then parse_loop (MkParsed cmd (Some arg) (options p) (remaining p)) rest
       else parse_loop (MkParsed cmd (file p) (options p) (remaining p ++ [arg])) rest))
    as Hfile.
  { intros cmd _ Hcmd.
    destruct (negb (bool_decide (is_Some (file p))) && story_suffix arg) eqn:Efile.
    - apply andb_prop in Efile as [_ Efile]. apply Hgo.
      apply (picked_from_update pre [arg] p); auto.
      right. exists arg. by cbn.
    - apply Hgo. apply (picked_from_update pre [arg] p); auto.
      right. exists arg. by cbn. }
  destruct (command p) as [c0|] eqn:Ecmd.
  - assert (picked_from (pre ++ [arg])
              (MkParsed (Some c0) (file p) (options p) (remaining p))) as Hsame
      by (apply (picked_from_update pre [arg] p); auto).
    destruct (command_of arg); by apply (Hfile (Some c0)).
  - destruct (command_of arg) as [c|] eqn:Earg.
    + apply Hgo. apply (picked_from_update pre [arg] p); auto.
      right. exists c, arg. by cbn.
    + apply (Hfile None); [|done].
      apply (picked_from_update pre [arg] p); auto.
Qed.

Lemma parseArgs_picked (argv : list string) : picked_from argv (parseArgs argv).
Proof.
  apply (parse_loop_picked (length argv) argv [] initial); [done|].
  unfold picked_from, initial; cbn. repeat apply conj; done.
Qed.

(** X3. Whatever the arguments are, what [parseArgs] returns is picked
    from them: the command is one of the four command words and occurs
    among the arguments; the file is an argument that ends in [.ink],
    [.json], [.txt] or [.md] (in lower case) and has no leading dash; the
    remaining arguments are arguments without a leading dash, in their
    order; and the help and version marks are set only when such a flag
    occurs. *)
Theorem parseArgs_picks_from_arguments (argv : list string) :
  picked_from argv (parseArgs argv).
Proof. apply parseArgs_picked. Qed.

Lemma verbose_step p arg :
  simple arg = true →
  verbose (options (parse_loop p [arg]))
  = verbose (options p) + (if is_verbose arg then 1 else 0).
Proof.
  intros Hs. unfold simple, is_any, arr_includes in Hs. cbn [existsb] in Hs.
  apply negb_true_iff in Hs. repeat (apply orb_false_iff in Hs as [? Hs]).
  cbn [parse_loop]. unfold is_verbose, is_any, arr_includes. cbn [existsb].
  repeat match goal with H : String.eqb arg _ = false |- _ => rewrite H; clear H end.
  cbn [orb].
  destruct (String.eqb arg "--verbose") eqn:E1; [done|].
  destruct (String.eqb arg "-v") eqn:E2; [done|]. cbn [orb].
  repeat match goal with
  | |- context [if ?b then _ else _] => destruct b eqn:?; [cbn; lia|]
  end.
  destruct (command p), (command_of arg); try (cbn; lia).
  all: destruct (negb _ && story_suffix arg); cbn; lia.
Qed.

Lemma verbose_loop (argv : list string) : ∀ p,
  Forall (λ a, simple a = true) argv →
  verbose (options (parse_loop p argv))
  = verbose (options p) + length (filter (λ a, is_verbose a = true) argv).
Proof.
  induction argv as [|a argv IH]; intros p Hall; [cbn; lia|].
  apply Forall_cons in Hall as [Ha Hall].
  rewrite parse_loop_simple by done. rewrite IH, verbose_step by done.
  destruct (is_verbose a) eqn:Hv.
  - rewrite filter_cons_True by done. simpl. lia.
  - rewrite filter_cons_False by (by rewrite Hv). lia.
Qed.

(** X4. Among arguments that neither end the parsing nor take a value,
    the verbosity is the number of [-v] and [--verbose] flags. *)
Theorem verbosity_counts_flags (argv : list string) :
  Forall (λ a, simple a = true) argv →
  verbose (options (parseArgs argv))
  = length (filter (λ a, is_verbose a = true) argv).
Proof.
  intros Hall. unfold parseArgs. by rewrite verbose_loop.
Qed.

Lemma verbosity_counts_flags_witness :
  verbose (options (parseArgs ["-v"; "story.ink"; "--verbose"; "-x"; "-v"])) = 3.
Proof.
  apply (verbosity_counts_flags ["-v"; "story.ink"; "--verbose"; "-x"; "-v"]).
  by repeat constructor.
Defined.

End ArgsFacts.


(** ** More on the compiler adapter *)

Module CompilerMoreFacts.

Import Js Compiler CompilerMore CompilerFacts.

Lemma probe_possible_first node ps : ∀ w,
  probe_possible node ps w
  = (Ret (first_present (files w) ps), logged w (probes_until node (files w) ps)).
Proof.
  unfold first_present.
  induction ps as [|p ps IH]; intros w; cbn [probe_possible find probes_until].
  - unfold logged. rewrite app_nil_r. by destruct w.
  - unfold mbind at 1, M_bind.
    destruct (decide (is_Some (files w !! p))) as [Hp|Hp].
    + rewrite (existsSync_present p w Hp).
      rewrite !bool_decide_eq_true_2 by done.
      destruct (negb _ && negb _); run_effects; [|done].
      unfold logged; cbn [files inputs trace]. by rewrite <- app_assoc.
    + rewrite (existsSync_absent p w)
        by (destruct (files w !! p) eqn:E; [destruct Hp; eauto|done]).
      rewrite !bool_decide_eq_false_2 by done.
      rewrite IH. by rewrite logged_logged.
Qed.

Lemma first_present_none fs ps :
  first_present fs ps = None → Forall (λ p, fs !! p = None) ps.
Proof.
  induction ps as [|p ps IH]; simpl; [done|].
  case_bool_decide as Hp; [done|]. intros H. constructor; [|auto].
  destruct (fs !! p) eqn:E; [|done]. destruct Hp. eauto.
Qed.

Lemma first_present_some fs ps p :
  first_present fs ps = Some p → p ∈ ps ∧ is_Some (fs !! p).
Proof.
  induction ps as [|q ps IH]; simpl; [done|].
  case_bool_decide as Hq.
  - intros [= <-]. split; [left|done].
  - intros [Hin Hp]%IH. split; [by right|done].
Qed.

Lemma findInklecate_result (node : Node) (w : World) :
  findInklecate node w
  = (Ret (first_present (files w) (possiblePaths node)),
     logged w
       (probes_until node (files w) (possiblePaths node)
        ++ match first_present (files w) (possiblePaths node) with
           | Some _ => []
           | None => if String.eqb (platform node) "linux"
                     then map Probe linuxPaths else []
           end)).
Proof.
  unfold findInklecate. unfold mbind, M_bind. rewrite probe_possible_first.
  destruct (first_present _ _) as [p|] eqn:Hfirst.
  - by rewrite app_nil_r.
  - destruct (String.eqb (platform node) "linux"); [|by rewrite app_nil_r].
    apply first_present_none in Hfirst. rewrite Forall_forall in Hfirst.
    rewrite probe_linux_none; [by rewrite logged_logged|].
    repeat constructor; apply Hfirst; unfold possiblePaths; set_solver.
Qed.

(** X5. [findInklecate] returns the first candidate of its list that
    exists, and nothing when none exists; it changes no file and consumes
    no answer.  What it does on the way is to probe the candidates in
    order up to that one (and to make it executable where the platform
    asks for it); the second, Linux-only list is probed only when the
    first pass found nothing, and then finds nothing either. *)
Theorem findInklecate_first_candidate (node : Node) (w : World) :
  findInklecate node w
  = (Ret (first_present (files w) (possiblePaths node)),
     logged w
       (probes_until node (files w) (possiblePaths node)
        ++ match first_present (files w) (possiblePaths node) with
           | Some _ => []
           | None => if String.eqb (platform node) "linux"
                     then map Probe linuxPaths else []
           end)).
Proof. apply findInklecate_result. Qed.

End CompilerMoreFacts.


(** ** The paths through [compileInk] *)

Module CompileFacts.

Import Js Compiler CompilerMore CompilerTrace CompilerFacts CompilerMoreFacts.

Local Abbreviation tale := "/home/player/games/tale.ink".
Local Abbreviation tale_json := "/home/player/games/tale.json".
Local Abbreviation system_compiler := "/usr/local/bin/inklecate".

(** X6. An input that exists but whose extension is not [.ink] in any
    letter case is refused with the lower-cased extension in the message;
    nothing is searched, run or changed. *)
Theorem compileInk_wrong_extension (node : Node) (options : CompileOptions) (w : World) :
  is_Some (files w !! opt_inputPath options) →
  toLowerCase node (extname node (opt_inputPath options)) ≠ ".ink" →
  compileInk node options w
  = (Ret (failure ("Expected .ink file, got: "
                   +:+ toLowerCase node (extname node (opt_inputPath options))) None),
     logged w [Probe (opt_inputPath options)]).
Proof.
  intros Hin Hext. unfold compileInk. unfold mbind at 1, M_bind.
  rewrite (existsSync_present _ w Hin). cbn [negb].
  apply String.eqb_neq in Hext. by rewrite Hext.
Qed.

Local Abbreviation input_of options := (opt_inputPath options).
Local Abbreviation output_of options :=
  (final_output (opt_inputPath options) (opt_outputPath options)).

Lemma findInklecate_found node w es p :
  first_present (files w) (possiblePaths node) = Some p →
  findInklecate node (logged w es)
  = (Ret (Some p),
     logged w (es ++ probes_until node (files w) (possiblePaths node))).
Proof.
  intros H. rewrite findInklecate_result. cbn [logged files].
  by rewrite H, app_nil_r, logged_logged.
Qed.

(** The steps up to the command: the input is there, it is an ink file,
    and the compiler is the first candidate that exists. *)
Ltac reach_command Hin Hext Hfirst Hp :=
  unfold compileInk; cbn [opt_inputPath opt_outputPath opt_verbose];
  unfold mbind at 1, M_bind;
  rewrite (existsSync_present _ _ Hin); cbn [negb];
  rewrite Hext, String.eqb_refl; cbn [negb];
  unfold mbind at 1, M_bind;
  rewrite (findInklecate_found _ _ _ _ Hfirst), Hp; cbn [negb].

(** X7. With the input in place, the compiler found and the command
    succeeding, [compileInk] succeeds with the output path: the explicit
    one, else the input path with [.ink] replaced.  The files are those the
    command left, with the output stripped of a leading byte-order mark. *)
Theorem compileInk_success (node : Node) (options : CompileOptions) (w : World)
    (p content : string) (fs' : gmap string string) :
  is_Some (files w !! input_of options) →
  toLowerCase node (extname node (input_of options)) = ".ink" →
  first_present (files w) (possiblePaths node) = Some p →
  truthy p = true →
  run node (command p (output_of options) (input_of options)) (files w) = (None, fs') →
  fs' !! output_of options = Some content →
  (startsWith bom content = true → write_error node (output_of options) = None) →
  compileInk node options w
  = (Ret (MkResult true (Some (output_of options)) None None),
     MkWorld (<[output_of options := without_bom content]> fs') (inputs w)
       (trace w
        ++ searched node (files w) (input_of options)
        ++ announced (opt_verbose options) (input_of options) (output_of options) p
        ++ [Exec (command p (output_of options) (input_of options));
            ReadFile (output_of options)]
        ++ rewritten (output_of options) content
        ++ concluded (opt_verbose options))).
Proof.
  intros Hin Hext Hfirst Hp Hrun Hout Hwrite.
  reach_command Hin Hext Hfirst Hp.
  unfold execSync, writeFileSync, announced, rewritten, concluded, without_bom,
    searched.
  generalize (probes_until node (files w) (possiblePaths node)); intros found.
  destruct (opt_verbose options), (startsWith bom content) eqn:Hbom;
    unfold logged; run_effects; rewrite Hrun; run_effects; rewrite Hout; run_effects;
    rewrite Hbom; run_effects; rewrite ?Hwrite by done; run_effects;
    rewrite ?(insert_id fs' _ content) by done;
    f_equal; f_equal; rewrite <- ?app_assoc; cbn [app]; by rewrite <- ?app_assoc.
Qed.

Lemma compileInk_wrong_extension_witness :
  compileInk Samples.linux (MkOptions "/home/player/games/door.txt" None false)
    Samples.door_story
  = (Ret (failure "Expected .ink file, got: .txt" None),
     logged Samples.door_story [Probe "/home/player/games/door.txt"]).
Proof.
  apply (compileInk_wrong_extension Samples.linux
           (MkOptions "/home/player/games/door.txt" None false) Samples.door_story).
  - apply (bool_decide_unpack _). vm_compute. reflexivity.
  - vm_compute. discriminate.
Defined.

Lemma compileInk_success_witness :
  (compileInk MoreSamples.compiling (MkOptions tale None true)
     Samples.with_compiler).1
  = Ret (MkResult true (Some tale_json) None None).
Proof.
  rewrite (compileInk_success MoreSamples.compiling (MkOptions tale None true)
             Samples.with_compiler system_compiler (bom +:+ "{}")
             (<[tale_json := bom +:+ "{}"]> (files Samples.with_compiler))).
  - reflexivity.
  - apply (bool_decide_unpack _). vm_compute. reflexivity.
  - reflexivity.
  - vm_compute. reflexivity.
  - reflexivity.
  - reflexivity.
  - vm_compute. reflexivity.
  - reflexivity.
Defined.

(** X8. Once the compiler is found, whatever goes wrong is returned as a
    failure that starts with [Compilation failed: ], never thrown: a
    command that fails, an output that is not there after a command that
    succeeded, and an output that cannot be rewritten without its
    byte-order mark.  In each case the files are those the command left. *)
Theorem compileInk_failure_reported (node : Node) (options : CompileOptions)
    (w : World) (p : string) (fs' : gmap string string) :
  is_Some (files w !! input_of options) →
  toLowerCase node (extname node (input_of options)) = ".ink" →
  first_present (files w) (possiblePaths node) = Some p →
  truthy p = true →
  let cmd := command p (output_of options) (input_of options) in
  let before :=
    trace w ++ searched node (files w) (input_of options)
    ++ announced (opt_verbose options) (input_of options) (output_of options) p in
  (∀ msg, run node cmd (files w) = (Some msg, fs') →
     compileInk node options w
     = (Ret (failure ("Compilation failed: " +:+ msg) None),
        MkWorld fs' (inputs w) (before ++ [Exec cmd])))
  ∧ (run node cmd (files w) = (None, fs') →
     fs' !! output_of options = None →
     compileInk node options w
     = (Ret (failure ("Compilation failed: " +:+ read_error (output_of options)) None),
        MkWorld fs' (inputs w) (before ++ [Exec cmd; ReadFile (output_of options)])))
  ∧ (∀ content msg,
     run node cmd (files w) = (None, fs') →
     fs' !! output_of options = Some content →
     startsWith bom content = true →
     write_error node (output_of options) = Some msg →
     compileInk node options w
     = (Ret (failure ("Compilation failed: " +:+ msg) None),
        MkWorld fs' (inputs w)
          (before ++ [Exec cmd; ReadFile (output_of options);
                      WriteFile (output_of options) (drop_string 3 content)]))).
Proof.
  intros Hin Hext Hfirst Hp cmd before. subst cmd before.
  unfold announced, searched.
  split; [|split].
  - intros msg Hrun. reach_command Hin Hext Hfirst Hp.
    generalize (probes_until node (files w) (possiblePaths node)); intros found.
    unfold execSync.
    destruct (opt_verbose options); unfold logged; run_effects; rewrite Hrun;
      run_effects; f_equal; f_equal; rewrite <- ?app_assoc; cbn [app];
      by rewrite <- ?app_assoc.
  - intros Hrun Hout. reach_command Hin Hext Hfirst Hp.
    generalize (probes_until node (files w) (possiblePaths node)); intros found.
    unfold execSync.
    destruct (opt_verbose options); unfold logged; run_effects; rewrite Hrun;
      run_effects; rewrite Hout; run_effects;
      f_equal; f_equal; rewrite <- ?app_assoc; cbn [app];
      by rewrite <- ?app_assoc.
  - intros content msg Hrun Hout Hbom Hwrite. reach_command Hin Hext Hfirst Hp.
    generalize (probes_until node (files w) (possiblePaths node)); intros found.
    unfold execSync, writeFileSync.
    destruct (opt_verbose options); unfold logged; run_effects; rewrite Hrun;
      run_effects; rewrite Hout; run_effects; rewrite Hbom; run_effects;
      rewrite Hwrite; run_effects;
      f_equal; f_equal; rewrite <- ?app_assoc; cbn [app];
      by rewrite <- ?app_assoc.
Qed.

Lemma compileInk_failure_reported_witness :
  (compileInk Samples.linux (MkOptions tale None false) Samples.with_compiler).1
  = Ret (failure ("Compilation failed: Command failed: "
                  +:+ command system_compiler tale_json tale) None)
  ∧ (compileInk MoreSamples.idle (MkOptions tale None false) Samples.with_compiler).1
    = Ret (failure ("Compilation failed: " +:+ read_error tale_json) None).
Proof.
  split.
  - destruct (compileInk_failure_reported Samples.linux (MkOptions tale None false)
                Samples.with_compiler system_compiler (files Samples.with_compiler))
      as (Hfail & _ & _).
    + apply (bool_decide_unpack _). vm_compute. reflexivity.
    + reflexivity.
    + vm_compute. reflexivity.
    + reflexivity.
    + by rewrite (Hfail _ eq_refl).
  - destruct (compileInk_failure_reported MoreSamples.idle (MkOptions tale None false)
                Samples.with_compiler system_compiler (files Samples.with_compiler))
      as (_ & Hmissing & _).
    + apply (bool_decide_unpack _). vm_compute. reflexivity.
    + reflexivity.
    + vm_compute. reflexivity.
    + reflexivity.
    + rewrite Hmissing; [reflexivity|reflexivity|]. vm_compute. reflexivity.
Defined.

Lemma replace_ink_suffix_other s :
  endsWith ".ink" s = false → replace_ink_suffix s = s.
Proof.
  induction s as [|c s IH]; [done|].
  cbn [endsWith replace_ink_suffix]. intros [Heq Hs]%orb_false_iff.
  rewrite String.eqb_sym in Heq. rewrite Heq. by rewrite IH.
Qed.

Lemma length_append s t :
  String.length (s +:+ t) = String.length s + String.length t.
Proof.
  induction s as [|c s IH]; [done|]. rewrite RegexFacts.app_cons. cbn. by rewrite IH.
Qed.

Lemma replace_ink_suffix_ink stem :
  replace_ink_suffix (stem +:+ ".ink") = stem +:+ ".json".
Proof.
  induction stem as [|c stem IH]; [done|].
  rewrite !RegexFacts.app_cons. cbn [replace_ink_suffix]. rewrite IH.
  destruct (String.eqb_spec (String c (stem +:+ ".ink")) ".ink") as [Heq|]; [|done].
  apply (f_equal String.length) in Heq. cbn in Heq.
  rewrite length_append in Heq. cbn in Heq. lia.
Qed.

(** X9. The output path is the explicit one unless that is missing or
    empty; then it is the input path with a final [.ink] replaced by
    [.json], and the input path itself when it does not end in [.ink] in
    lower case. *)
Theorem final_output_rule (inputPath : string) :
  (∀ o, truthy o = true → final_output inputPath (Some o) = o)
  ∧ final_output inputPath (Some "") = final_output inputPath None
  ∧ (∀ stem, inputPath = stem +:+ ".ink" →
       final_output inputPath None = stem +:+ ".json")
  ∧ (endsWith ".ink" inputPath = false → final_output inputPath None = inputPath).
Proof.
  unfold final_output. repeat apply conj.
  - by intros o ->.
  - done.
  - intros stem ->. apply replace_ink_suffix_ink.
  - apply replace_ink_suffix_other.
Qed.

Lemma final_output_rule_witness :
  final_output "/home/player/games/TALE.INK" None = "/home/player/games/TALE.INK"
  ∧ final_output tale None = tale_json.
Proof.
  destruct (final_output_rule "/home/player/games/TALE.INK") as (_ & _ & _ & Hother).
  destruct (final_output_rule tale) as (_ & _ & Hink & _).
  split; [apply Hother; reflexivity|].
  apply (Hink "/home/player/games/tale"). reflexivity.
Defined.

(** X10. An ink file whose extension is not in lower case passes the test
    of the extension, but its default output path is the input path: the
    compiler is told to write its output over the source. *)
Theorem compileInk_upper_case_overwrites (node : Node) (inputPath : string)
    (verbose : bool) (w : World) (p : string) :
  is_Some (files w !! inputPath) →
  toLowerCase node (extname node inputPath) = ".ink" →
  endsWith ".ink" inputPath = false →
  first_present (files w) (possiblePaths node) = Some p →
  truthy p = true →
  Exec (command p inputPath inputPath)
  ∈ trace (compileInk node (MkOptions inputPath None verbose) w).2.
Proof.
  intros Hin Hext Hends Hfirst Hp.
  reach_command Hin Hext Hfirst Hp. cbn [opt_inputPath opt_outputPath opt_verbose].
  unfold final_output. rewrite (replace_ink_suffix_other _ Hends).
  generalize (probes_until node (files w) (possiblePaths node)); intros found.
  unfold execSync, writeFileSync.
  destruct verbose; unfold logged; run_effects;
    (destruct (run node (command p inputPath inputPath) (files w))
       as [[msg|] fs'] eqn:Hrun; run_effects;
     [|destruct (fs' !! inputPath) as [content|] eqn:Hout; run_effects;
       [destruct (startsWith bom content); run_effects;
        [destruct (write_error node inputPath); run_effects|]|]]);
    cbn [snd trace]; rewrite ?elem_of_app, ?list_elem_of_singleton; tauto.
Qed.

Lemma compileInk_upper_case_overwrites_witness :
  Exec (command system_compiler "/home/player/games/TALE.INK"
          "/home/player/games/TALE.INK")
  ∈ trace (compileInk MoreSamples.compiling
             (MkOptions "/home/player/games/TALE.INK" None false)
             MoreSamples.shouting).2.
Proof.
  apply (compileInk_upper_case_overwrites MoreSamples.compiling
           "/home/player/games/TALE.INK" false MoreSamples.shouting system_compiler).
  - apply (bool_decide_unpack _). vm_compute. reflexivity.
  - reflexivity.
  - reflexivity.
  - vm_compute. reflexivity.
  - reflexivity.
Defined.

(** X11. [compileWithInkToJson] does not test what [findInklecate]
    returned: with no compiler anywhere it still runs a command, whose
    program is the text [null], and throws what that command reports as a
    failed compilation. *)
Theorem compileWithInkToJson_runs_null (node : Node) (inputPath : string)
    (output : option string) (w : World) (msg : string) (fs' : gmap string string) :
  is_Some (files w !! inputPath) →
  Forall (λ p, files w !! p = None) (possiblePaths node ++ linuxPaths) →
  run node (command "null" (final_output inputPath output) inputPath) (files w)
  = (Some msg, fs') →
  compileWithInkToJson node inputPath output w
  = (Throw ("Compilation failed: " +:+ msg),
     MkWorld fs' (inputs w)
       (trace w ++ Probe inputPath :: map Probe (all_probes node)
        ++ [Exec (command "null" (final_output inputPath output) inputPath)])).
Proof.
  intros Hin Hnone Hrun. unfold compileWithInkToJson. unfold mbind at 1, M_bind.
  rewrite (existsSync_present _ _ Hin). cbn [negb].
  unfold mbind at 1, M_bind. rewrite findInklecate_none by done.
  unfold path_text, execSync. cbn [default].
  generalize (map Probe (all_probes node)); intros probes.
  unfold logged; run_effects. rewrite Hrun. run_effects.
  f_equal; f_equal; rewrite <- ?app_assoc; cbn [app]; by rewrite <- ?app_assoc.
Qed.

Lemma compileWithInkToJson_runs_null_witness :
  (compileWithInkToJson Samples.linux tale None Samples.no_compiler).1
  = Throw ("Compilation failed: Command failed: " +:+ command "null" tale_json tale).
Proof.
  rewrite (compileWithInkToJson_runs_null Samples.linux tale None Samples.no_compiler
             ("Command failed: " +:+ command "null" tale_json tale)
             (files Samples.no_compiler)).
  - reflexivity.
  - apply (bool_decide_unpack _). vm_compute. reflexivity.
  - apply (bool_decide_unpack _). vm_compute. reflexivity.
  - reflexivity.
Defined.

End CompileFacts.


(** ** The menu of the story loop *)

Module MenuFacts.

Import Js Cli Menu.

Lemma pretty_N_char_digit x : is_digit (pretty_N_char x) = true.
Proof. unfold pretty_N_char. by repeat case_match. Qed.

Lemma pretty_N_go_digits x : ∀ s, digits s = true → digits (pretty_N_go x s) = true.
Proof.
  induction (N.lt_wf_0 x) as [x _ IH]; intros s Hs.
  assert (x = 0 ∨ 0 < x)%N as [->|Hpos] by lia.
  - by rewrite pretty_N_go_0.
  - rewrite pretty_N_go_step by done. apply IH; [by apply N.div_lt|].
    cbn [digits]. by rewrite pretty_N_char_digit, Hs.
Qed.

Lemma pretty_N_go_filled x : ∀ s, s ≠ "" → pretty_N_go x s ≠ "".
Proof.
  induction (N.lt_wf_0 x) as [x _ IH]; intros s Hs.
  assert (x = 0 ∨ 0 < x)%N as [->|Hpos] by lia.
  - by rewrite pretty_N_go_0.
  - rewrite pretty_N_go_step by done. apply IH; [by apply N.div_lt|done].
Qed.

Lemma pretty_nat_digits (n : nat) : digits (pretty n) = true ∧ pretty n ≠ "".
Proof.
  unfold pretty, pretty_nat, pretty, pretty_N. case_decide; [done|].
  split; [by apply pretty_N_go_digits|].
  rewrite pretty_N_go_step by lia. by apply pretty_N_go_filled.
Qed.

Lemma digit_prefix_unique a : ∀ b x y,
  digits a = true → digits b = true →
  a +:+ ". " +:+ x = b +:+ ". " +:+ y → a = b ∧ x = y.
Proof.
  induction a as [|c a IH]; intros [|d b] x y Ha Hb Heq.
  - split; [done|]. by injection Heq.
  - cbn in Hb, Heq. injection Heq as <- _. done.
  - cbn in Ha, Heq. injection Heq as -> _. done.
  - cbn [digits] in Ha, Hb. apply andb_prop in Ha as [_ Ha], Hb as [_ Hb].
    rewrite !RegexFacts.app_cons in Heq. injection Heq as -> Heq.
    destruct (IH b x y Ha Hb Heq) as [-> ->]. done.
Qed.

Lemma entry_name_inj i c j d : entry_name i c = entry_name j d → i = j ∧ c = d.
Proof.
  unfold entry_name. intros [Hp ->]%digit_prefix_unique;
    try apply pretty_nat_digits.
  apply (inj pretty) in Hp. split; [lia|done].
Qed.

Lemma entry_name_not_quit i c : entry_name i c ≠ "0. Quit".
Proof.
  unfold entry_name. change "0. Quit" with (pretty 0%nat +:+ ". " +:+ "Quit").
  intros [Hp _]%digit_prefix_unique; try apply pretty_nat_digits.
  apply (inj pretty) in Hp. lia.
Qed.

Lemma entry_name_not_save i c : entry_name i c ≠ "S. Save game".
Proof.
  unfold entry_name. destruct (pretty_nat_digits (i + 1)) as [Hd Hne].
  destruct (pretty (i + 1)%nat) as [|d r]; [done|].
  rewrite RegexFacts.app_cons. intros [= -> _]. done.
Qed.

Lemma find_first {A : Type} (P : A → bool) (l : list A) : ∀ i x,
  l !! i = Some x → P x = true →
  (∀ j y, j < i → l !! j = Some y → P y = false) →
  find P l = Some x.
Proof.
  induction l as [|a l IH]; intros [|i] x Hx HP Hbefore; try done.
  - injection Hx as ->. cbn. by rewrite HP.
  - cbn. rewrite (Hbefore 0 a) by (done || lia).
    apply (IH i); [done..|]. intros j y Hj Hy. apply (Hbefore (S j)); [lia|done].
Qed.

Lemma entries_lookup choices i c :
  choices !! i = Some c →
  entries choices !! i = Some (entry_name i c, Z.of_nat i).
Proof.
  intros Hc. unfold entries. rewrite lookup_app_l.
  - by rewrite list_lookup_imap, Hc.
  - rewrite length_imap. by apply lookup_lt_Some in Hc.
Qed.

Lemma entries_lookup_inv choices j y :
  entries choices !! j = Some y →
  (∃ c, choices !! j = Some c ∧ y = (entry_name j c, Z.of_nat j))
  ∨ (j = length choices ∧ y = ("0. Quit", (-1)%Z))
  ∨ (j = S (length choices) ∧ y = ("S. Save game", (-2)%Z)).
Proof.
  unfold entries. intros Hy. apply lookup_app_Some in Hy as [Hy|[Hlen Hy]].
  - left. rewrite list_lookup_imap in Hy.
    destruct (choices !! j) as [c|]; [|done]. injection Hy as <-. eauto.
  - right. rewrite length_imap in Hlen, Hy.
    destruct (j - length choices) as [|[|k]] eqn:Hk; [| |done].
    + left. injection Hy as <-. split; [lia|done].
    + right. injection Hy as <-. split; [lia|done].
Qed.

Lemma find_entry choices i c :
  choices !! i = Some c →
  find (λ e, bool_decide (e.1 = entry_name i c)) (entries choices)
  = Some (entry_name i c, Z.of_nat i).
Proof.
  intros Hc. apply (find_first _ _ i); [by apply entries_lookup|by apply bool_decide_eq_true_2|].
  intros j y Hj Hy. apply bool_decide_eq_false_2.
  pose proof (lookup_lt_Some _ _ _ Hc) as Hi.
  apply entries_lookup_inv in Hy as [(d & Hd & ->)|[[-> _]|[-> _]]]; [|lia..].
  cbn. intros [-> _]%entry_name_inj. lia.
Qed.

Lemma find_quit choices :
  find (λ e, bool_decide (e.1 = "0. Quit")) (entries choices)
  = Some ("0. Quit", (-1)%Z).
Proof.
  apply (find_first _ _ (length choices)).
  - unfold entries. rewrite lookup_app_r; rewrite length_imap; [|done].
    by rewrite Nat.sub_diag.
  - done.
  - intros j y Hj Hy. apply bool_decide_eq_false_2.
    apply entries_lookup_inv in Hy as [(d & Hd & ->)|[[-> _]|[-> _]]]; [|lia..].
    apply entry_name_not_quit.
Qed.

Lemma find_save choices :
  find (λ e, bool_decide (e.1 = "S. Save game")) (entries choices)
  = Some ("S. Save game", (-2)%Z).
Proof.
  apply (find_first _ _ (S (length choices))).
  - unfold entries. rewrite lookup_app_r; rewrite length_imap; [|lia].
    by replace (S (length choices) - length choices) with 1 by lia.
  - done.
  - intros j y Hj Hy. apply bool_decide_eq_false_2.
    apply entries_lookup_inv in Hy as [(d & Hd & ->)|[[-> ->]|[-> _]]]; [|done|lia].
    apply entry_name_not_save.
Qed.

End MenuFacts.


(** ** More on the command handlers *)

Module CliMoreFacts.

Import Js Presenter Compiler Cli Menu Escapes CompilerFacts CliFacts MenuFacts.

Lemma try_catch_never_throws {A : Type} (body : M A) (handler : string → M A) :
  (∀ msg, never_throws (handler msg)) → never_throws (try_catch body handler).
Proof.
  intros Hh w msg w'. unfold try_catch.
  destruct (body w) as [[a|m|code| |] w1] eqn:Hbody; try done. apply Hh.
Qed.

Lemma bind_never_throws {A B : Type} (m : M A) (k : A → M B) :
  never_throws m → (∀ a, never_throws (k a)) → never_throws (m ≫= k).
Proof.
  intros Hm Hk w msg w'. unfold mbind, M_bind.
  destruct (m w) as [[a|m'|code| |] w1] eqn:Hbody; try done.
  - apply Hk.
  - by destruct (Hm w m' w1).
Qed.

Lemma emit_never_throws e : never_throws (emit e).
Proof. by intros w msg w'. Qed.

Lemma exit_never_throws {A : Type} code : never_throws (@exit A code).
Proof. by intros w msg w'. Qed.

Lemma handlers_safe (node : Node) (engine : Engine) (options : CLIOptions)
    (filePath : string) :
  never_throws (runFile node engine options filePath)
  ∧ never_throws (compile node filePath)
  ∧ never_throws (replay node engine filePath).
Proof.
  assert (∀ e, never_throws (_ ← emit e; @exit unit 1)) as Hreport.
  { intros e. apply bind_never_throws; [apply emit_never_throws|].
    intros _. apply exit_never_throws. }
  split; [|split].
  - unfold runFile. apply try_catch_never_throws. intros msg. apply Hreport.
  - unfold compile. apply bind_never_throws; [apply emit_never_throws|].
    intros _. apply try_catch_never_throws. intros msg. apply Hreport.
  - unfold replay. apply bind_never_throws; [apply emit_never_throws|].
    intros _. apply try_catch_never_throws. intros msg. apply Hreport.
Qed.

Lemma runFile_safe node engine options filePath :
  never_throws (runFile node engine options filePath).
Proof. apply handlers_safe. Qed.

Lemma compile_safe node filePath : never_throws (compile node filePath).
Proof. apply (handlers_safe node Samples.lenient (MkCLIOptions 0 false)). Qed.

Lemma replay_safe node engine filePath : never_throws (replay node engine filePath).
Proof. apply (handlers_safe node engine (MkCLIOptions 0 false)). Qed.

(** X12. No exception escapes the three command handlers: whatever the
    files, the engine and the answers are, none of [runFile], [compile]
    and [replay] ends by throwing. *)
Theorem handlers_never_throw (node : Node) (engine : Engine) (options : CLIOptions)
    (filePath : string) :
  never_throws (runFile node engine options filePath)
  ∧ never_throws (compile node filePath)
  ∧ never_throws (replay node engine filePath).
Proof. apply handlers_safe. Qed.

Section WithPlatform.
Variable node : Node.
Variable engine : Engine.
Variable options : CLIOptions.

(** X13. A path that does not exist ends [runFile] with the report of the
    missing file and exit code 1, after the header and the one test of the
    path; nothing is read. *)
Theorem runFile_missing_file (filePath : string) (w : World) :
  files w !! filePath = None →
  runFile node engine options filePath w
  = (Exit 1,
     logged w (printHeader "Calligrapher"
               ++ [ Probe filePath;
                    LogError Red (nl +:+ "✖ Error: File not found: " +:+ filePath) ])).
Proof.
  intros Hfile. unfold runFile, existsSync. run_handler. rewrite Hfile.
  rewrite bool_decide_eq_false_2 by (by intros [? ?]). cbn [negb].
  unfold logged. cbn [files inputs trace]. rewrite <- !app_assoc. reflexivity.
Qed.

(** X14. A file that exists with an extension other than [.ink], [.json],
    [.txt] and [.md] (in any letter case) is not an error: [runFile] lists
    the formats and returns, without reading the file and without a
    footer. *)
Theorem runFile_unsupported_format (filePath : string) (w : World) :
  is_Some (files w !! filePath) →
  toLowerCase node (extname node filePath) ∉ [".ink"; ".json"; ".txt"; ".md"] →
  runFile node engine options filePath w
  = (Ret (),
     logged w (printHeader "Calligrapher"
               ++ [ Probe filePath;
                    Log Yellow (nl +:+ "📝 Unsupported file format: "
                                +:+ toLowerCase node (extname node filePath) +:+ nl);
                    Log Unstyled "Supported formats:";
                    Log Unstyled "  - .ink  Ink source files (requires inklecate)";
                    Log Unstyled "  - .json Compiled Ink stories";
                    Log Unstyled "  - .txt  Simple text adventures" ])).
Proof.
  intros Hfile Hext. unfold runFile, existsSync. run_handler.
  rewrite bool_decide_eq_true_2 by done. cbn [negb].
  repeat (apply not_elem_of_cons in Hext as [?%String.eqb_neq Hext]).
  repeat match goal with H : String.eqb _ _ = false |- _ => rewrite H; clear H end.
  cbn [orb]. unfold logged. cbn [files inputs trace]. by rewrite <- !app_assoc.
Qed.

(** X15. Whatever is thrown inside [runJsonStory] leaves it as a failure
    to load the story: while reading the file, while the engine takes the
    story, and also while the story is played. *)
Theorem runJsonStory_errors_wrapped (filePath : string) (w w' : World) (msg : string) :
  runJsonStory node engine filePath w = (Throw msg, w') →
  ∃ cause, msg = "Failed to load story: " +:+ cause.
Proof.
  unfold runJsonStory, try_catch.
  match goal with |- context [match ?b w with _ => _ end] => destruct (b w) as [[ | cause | | | ] w1] end;
    try done.
  unfold throw. intros [= <- <-]. by exists cause.
Qed.

(** X16. A story that cannot continue and offers no choice ends the story
    loop at once: nothing is printed, nothing is asked, no answer is
    consumed. *)
Theorem runStoryLoop_finished (s : instance engine) (w : World) :
  can_continue engine s = false →
  current_choices engine s = [] →
  runStoryLoop node engine s w = (Ret (), w).
Proof.
  intros Hcont Hchoices. unfold runStoryLoop.
  destruct (inputs w); cbn [storyLoop]; unfold advanceStory; rewrite Hcont;
    run_handler; rewrite !Hchoices, Hcont; cbn;
    rewrite app_nil_r; by destruct w.
Qed.

(** The loop up to the prompt, when the state has choices. *)
Lemma storyLoop_prompt s ins w s1 st w1 :
  advanceStory engine s w = (Ret (s1, st), w1) →
  choices st ≠ [] →
  storyLoop node engine s ins w
  = match ins with
    | [] => (Waiting, logged w1 [Select "What do you do?" (shown_names (choices st))])
    | Typed choice :: rest =>
        match snd <$> find (λ c, bool_decide (c.1 = choice)) (entries (choices st)) with
        | Some (-1)%Z => _ ← emit (Log Gray thanks); exit 0
        | Some (-2)%Z =>
            _ ← emit (AskLine "Save file path:" defaultPath);
            match rest with
            | [] => waiting
            | Typed savePath :: rest' =>
                _ ← set_inputs rest';
                _ ← saveGame_write node engine s1 savePath;
                storyLoop node engine s1 rest'
            | _ :: _ => outside
            end
        | Some selectedIndex =>
            s2 ← of_try (choose engine selectedIndex s1);
            storyLoop node engine s2 rest
        | None => storyLoop node engine s1 rest
        end (MkWorld (files w1) rest
               (trace w1 ++ [Select "What do you do?" (shown_names (choices st))]))
    | _ :: _ => (Outside, logged w1 [Select "What do you do?" (shown_names (choices st))])
    end.
Proof.
  intros Hadv Hchoices.
  assert (negb (length (choices st) =? 0) = true) as Hlen
    by (destruct (choices st); [done|reflexivity]).
  destruct ins as [|[b|choice] rest]; cbn [storyLoop];
    unfold mbind at 1, M_bind; rewrite Hadv; cbv beta iota;
    rewrite Hlen, orb_true_r; reflexivity.
Qed.

(** X17. At a choice point, the answer [0. Quit] ends the process with
    code 0 after the thanks: the engine is not asked to choose, and nothing
    is written. *)
Theorem story_quit (s s1 : instance engine) (st : StoryState) (w w1 : World)
    (rest : list Input) :
  advanceStory engine s w = (Ret (s1, st), w1) →
  choices st ≠ [] →
  inputs w = Typed "0. Quit" :: rest →
  runStoryLoop node engine s w
  = (Exit 0,
     MkWorld (files w1) rest
       (trace w1 ++ [ Select "What do you do?" (shown_names (choices st));
                      Log Gray thanks ])).
Proof.
  intros Hadv Hchoices Hins. unfold runStoryLoop. rewrite Hins.
  rewrite (storyLoop_prompt _ _ _ _ _ _ Hadv Hchoices), find_quit.
  cbn [fmap option_fmap option_map snd]. run_handler. by rewrite <- app_assoc.
Qed.

(** X18. At a choice point, the answer that names the entry of a choice
    makes the engine choose that choice, by its position in the list (also
    when two choices have the same text), and the loop goes on from what
    the engine returns; what the engine throws leaves the loop. *)
Theorem story_choice (s s1 : instance engine) (st : StoryState) (w w1 : World)
    (i : nat) (c : string) (rest : list Input) :
  advanceStory engine s w = (Ret (s1, st), w1) →
  choices st !! i = Some c →
  inputs w = Typed (entry_name i c) :: rest →
  runStoryLoop node engine s w
  = (s2 ← of_try (choose engine (Z.of_nat i) s1); runStoryLoop node engine s2)
      (MkWorld (files w1) rest
         (trace w1 ++ [Select "What do you do?" (shown_names (choices st))])).
Proof.
  intros Hadv Hc Hins. unfold runStoryLoop at 1. rewrite Hins.
  rewrite (storyLoop_prompt _ _ _ _ _ _ Hadv) by (by intros Hnil; rewrite Hnil in Hc).
  rewrite (find_entry _ _ _ Hc). cbn [fmap option_fmap option_map snd].
  destruct (Z.of_nat i) as [|p|p] eqn:Hz; [| |lia];
    unfold mbind, M_bind, of_try; by destruct (choose engine _ s1).
Qed.

(** X19. At a choice point, the answer [S. Save game] followed by a path
    writes the save document to that path and goes on with the story from
    where it was: the engine is not asked to choose.  A path that cannot
    be written is reported and the story goes on all the same. *)
Theorem story_save (s s1 : instance engine) (st : StoryState) (w w1 : World)
    (savePath : string) (rest : list Input) :
  advanceStory engine s w = (Ret (s1, st), w1) →
  choices st ≠ [] →
  inputs w = Typed "S. Save game" :: Typed savePath :: rest →
  let document := json_stringify node (saveData node engine s1) in
  runStoryLoop node engine s w
  = runStoryLoop node engine s1
      (MkWorld
         (match write_error node savePath with
          | None => <[savePath := document]> (files w1)
          | Some _ => files w1
          end)
         rest
         (trace w1
          ++ [ Select "What do you do?" (shown_names (choices st));
               AskLine "Save file path:" defaultPath;
               WriteFile savePath document;
               match write_error node savePath with
               | None => Log Green (nl +:+ "✓ Game saved to: " +:+ savePath +:+ nl)
               | Some msg =>
                   LogError Red (nl +:+ "✖ Failed to save game: " +:+ msg +:+ nl)
               end ])).
Proof.
  intros Hadv Hchoices Hins document. subst document.
  unfold runStoryLoop at 1. rewrite Hins.
  rewrite (storyLoop_prompt _ _ _ _ _ _ Hadv Hchoices), find_save.
  cbn [fmap option_fmap option_map snd].
  unfold saveGame_write, writeFileSync, set_inputs, runStoryLoop. run_handler.
  destruct (write_error node savePath) as [msg|]; run_handler;
    rewrite <- !app_assoc; reflexivity.
Qed.

(** X30. When the story can go on and offers no choice, the loop asks
    for a confirmation: a yes goes on with the story, a no ends the
    process with code 0 after the thanks. *)
Theorem story_confirm (s s1 : instance engine) (st : StoryState) (w w1 : World)
    (cont : bool) (rest : list Input) :
  advanceStory engine s w = (Ret (s1, st), w1) →
  choices st = [] →
  canContinue st = true →
  inputs w = Answer cont :: rest →
  let asked :=
    trace w1 ++ [Confirm "Press Enter to continue... (or Q to quit)"] in
  runStoryLoop node engine s w
  = if cont then runStoryLoop node engine s1 (MkWorld (files w1) rest asked)
    else (Exit 0, MkWorld (files w1) rest (asked ++ [Log Gray thanks])).
Proof.
  intros Hadv Hchoices Hcont Hins asked. subst asked.
  unfold runStoryLoop at 1. rewrite Hins. cbn [storyLoop].
  unfold mbind at 1, M_bind. rewrite Hadv. cbv beta iota.
  rewrite Hchoices, Hcont. cbn [length Nat.eqb negb orb].
  unfold set_inputs. run_handler. by destruct cont.
Qed.

(** X20. What [saveGame] writes, [replay] restores: on a machine whose
    [JSON.parse] reads back what its [JSON.stringify] wrote, and with an
    engine that takes its own story and state, [replay] of the path just
    saved goes on with the story loop from the engine built from the saved
    story and state. *)
Theorem save_then_replay (s s0 s' : instance engine) (savePath : string) (w : World) :
  write_error node savePath = None →
  json_parse node (json_stringify node (saveData node engine s))
  = Ok (saveData node engine s) →
  new_story engine (Some (JString (to_json engine s))) = Ok s0 →
  load_json engine (Some (JString (state_to_json engine s))) s0 = Ok s' →
  restore_resumes node engine savePath
    (saveGame_write node engine s savePath w).2 s'.
Proof.
  intros Hwrite Hparse Hnew Hload.
  apply (replay_restored node engine savePath _
           (json_stringify node (saveData node engine s))
           (saveData node engine s)
           (Some (JString (to_json engine s))) s0
           (Some (JString (state_to_json engine s))) s');
    try done.
  unfold saveGame_write, writeFileSync. run_handler. rewrite Hwrite. run_handler.
  apply lookup_insert_eq.
Qed.

End WithPlatform.

Local Abbreviation plain := (MkCLIOptions 0 false).

Lemma runFile_missing_file_witness :
  runFile Samples.linux Samples.lenient plain "/home/player/games/none.txt"
    Samples.door_story
  = (Exit 1,
     logged Samples.door_story
       (printHeader "Calligrapher"
        ++ [ Probe "/home/player/games/none.txt";
             LogError Red (nl +:+ "✖ Error: File not found: "
                           +:+ "/home/player/games/none.txt") ])).
Proof.
  apply (runFile_missing_file Samples.linux Samples.lenient plain
           "/home/player/games/none.txt" Samples.door_story).
  reflexivity.
Defined.

Lemma runFile_unsupported_format_witness :
  (runFile Samples.linux Samples.lenient plain "/usr/local/bin/inklecate"
     Samples.with_compiler).1
  = Ret ().
Proof.
  rewrite (runFile_unsupported_format Samples.linux Samples.lenient plain
             "/usr/local/bin/inklecate" Samples.with_compiler).
  - reflexivity.
  - apply (bool_decide_unpack _). vm_compute. reflexivity.
  - apply (bool_decide_unpack _). vm_compute. reflexivity.
Defined.

Lemma runJsonStory_errors_wrapped_witness :
  ∃ cause, "Failed to load story: boom" = "Failed to load story: " +:+ cause.
Proof.
  apply (runJsonStory_errors_wrapped Samples.linux SampleEngines.broken
           "/home/player/save.json" Samples.empty_save
           (runJsonStory Samples.linux SampleEngines.broken
              "/home/player/save.json" Samples.empty_save).2).
  vm_compute. reflexivity.
Defined.

Lemma runStoryLoop_finished_witness :
  runStoryLoop Samples.linux Samples.lenient () Samples.door_story
  = (Ret (), Samples.door_story).
Proof.
  apply (runStoryLoop_finished Samples.linux Samples.lenient () Samples.door_story);
    reflexivity.
Defined.

(** The player at the crossroads, with the answers to come. *)
Local Abbreviation at_crossroads ins := (MkWorld ∅ ins []).
Local Abbreviation crossroads_state :=
  (MkStoryState "" ["Open the door"; "Go back"] true []).

Lemma story_quit_witness :
  runStoryLoop Samples.linux SampleEngines.crossroads 0
    (at_crossroads [Typed "0. Quit"; Typed "1. Open the door"])
  = (Exit 0,
     MkWorld ∅ [Typed "1. Open the door"]
       [ Select "What do you do?"
           ["1. Open the door"; "2. Go back"; "0. Quit"; "S. Save game"];
         Log Gray thanks ]).
Proof.
  apply (story_quit Samples.linux SampleEngines.crossroads 0 0 crossroads_state
           (at_crossroads [Typed "0. Quit"; Typed "1. Open the door"])
           (at_crossroads [Typed "0. Quit"; Typed "1. Open the door"])
           [Typed "1. Open the door"]).
  - reflexivity.
  - discriminate.
  - reflexivity.
Defined.

Lemma story_choice_witness :
  runStoryLoop Samples.linux SampleEngines.crossroads 0
    (at_crossroads [Typed "2. Go back"])
  = runStoryLoop Samples.linux SampleEngines.crossroads 2
      (MkWorld ∅ []
         [ Select "What do you do?"
             ["1. Open the door"; "2. Go back"; "0. Quit"; "S. Save game"] ]).
Proof.
  apply (story_choice Samples.linux SampleEngines.crossroads 0 0 crossroads_state
           (at_crossroads [Typed "2. Go back"]) (at_crossroads [Typed "2. Go back"])
           1 "Go back" []).
  - reflexivity.
  - reflexivity.
  - reflexivity.
Defined.

Lemma story_save_witness :
  files (runStoryLoop SampleEngines.read_only SampleEngines.crossroads 0
           (at_crossroads [Typed "S. Save game"; Typed "/home/player/slot.json"])).2
  = ∅
  ∧ files (runStoryLoop Samples.linux SampleEngines.crossroads 0
             (at_crossroads [Typed "S. Save game"; Typed "/home/player/slot.json"])).2
    = {["/home/player/slot.json" := "{}"]}.
Proof.
  split.
  - rewrite (story_save SampleEngines.read_only SampleEngines.crossroads 0 0
               crossroads_state
               (at_crossroads [Typed "S. Save game"; Typed "/home/player/slot.json"])
               (at_crossroads [Typed "S. Save game"; Typed "/home/player/slot.json"])
               "/home/player/slot.json" []).
    + reflexivity.
    + reflexivity.
    + discriminate.
    + reflexivity.
  - rewrite (story_save Samples.linux SampleEngines.crossroads 0 0
               crossroads_state
               (at_crossroads [Typed "S. Save game"; Typed "/home/player/slot.json"])
               (at_crossroads [Typed "S. Save game"; Typed "/home/player/slot.json"])
               "/home/player/slot.json" []).
    + reflexivity.
    + reflexivity.
    + discriminate.
    + reflexivity.
Defined.

Lemma story_confirm_witness :
  runStoryLoop Samples.linux SampleEngines.pages 2 (at_crossroads [Answer false])
  = (Exit 0,
     MkWorld ∅ []
       [ Log White "Page 2";
         Confirm "Press Enter to continue... (or Q to quit)";
         Log Gray thanks ]).
Proof.
  apply (story_confirm Samples.linux SampleEngines.pages 2 1
           (MkStoryState "Page 2" [] true [])
           (at_crossroads [Answer false])
           (MkWorld ∅ [Answer false] [Log White "Page 2"]) false []); reflexivity.
Defined.

Lemma save_then_replay_witness :
  restore_resumes SampleEngines.archivist SampleEngines.crossroads
    "/home/player/slot.json"
    (saveGame_write SampleEngines.archivist SampleEngines.crossroads 0
       "/home/player/slot.json" (at_crossroads [])).2
    0.
Proof.
  apply (save_then_replay SampleEngines.archivist SampleEngines.crossroads 0 0 0
           "/home/player/slot.json" (at_crossroads [])); reflexivity.
Defined.

End CliMoreFacts.


(** ** The entry point *)

Module MainFacts.

Import Js Presenter Compiler Cli Args ArgsSpec Main MainSpec Escapes ArgsFacts
  CliMoreFacts.

Lemma try_catch_same {A : Type} (body : M A) (handler : string → M A) (w : World) :
  never_throws body → try_catch body handler w = body w.
Proof.
  intros Hbody. unfold try_catch. destruct (body w) as [[a|m|code| |] w1] eqn:E; try done.
  by destruct (Hbody w m w1).
Qed.

Lemma single_keeps_flags p a :
  is_help a || is_version a = false →
  help (options (parse_loop p [a])) = help (options p)
  ∧ version (options (parse_loop p [a])) = version (options p).
Proof.
  intros [Hh Hv]%orb_false_iff. unfold is_help, is_version in *.
  cbn [parse_loop]. rewrite Hh, Hv.
  repeat match goal with
  | |- context [if ?b then _ else _] => destruct b; [done|]
  end.
  destruct (command p), (command_of a); try done.
  all: by destruct (negb _ && story_suffix a).
Qed.

Lemma parse_loop_keeps_flags n : ∀ p pre,
  length pre ≤ n →
  read_through pre = true →
  help (options (parse_loop p pre)) = help (options p)
  ∧ version (options (parse_loop p pre)) = version (options p).
Proof.
  induction n as [|n IH]; intros p [|a rest] Hlen Hr; try done;
    [cbn [length] in Hlen; lia|].
  cbn [read_through] in Hr. cbn [length] in Hlen.
  destruct (is_help a || is_version a) eqn:Hhv; [done|].
  destruct (takes_value a) eqn:Htv.
  - destruct rest as [|v rest]; [done|]. cbn [length] in Hlen.
    apply takes_value_cases in Htv as [->|[->|[->|[->| ->]]]].
    + apply (IH (with_options (set_seed (parseInt_arg (Some v))) p) rest); (lia || done).
    + apply (IH (with_options (set_output (Some v)) p) rest); (lia || done).
    + apply (IH (with_options (set_output (Some v)) p) rest); (lia || done).
    + apply (IH (with_options (set_saveFile (Some v)) p) rest); (lia || done).
    + apply (IH (with_options (set_saveFile (Some v)) p) rest); (lia || done).
  - pose proof (simple_from_flags a Hhv Htv) as Hs.
    rewrite (parse_loop_simple p a rest) by done.
    destruct (IH (parse_loop p [a]) rest) as [-> ->]; [lia|done|].
    by apply single_keeps_flags.
Qed.

Lemma read_through_unset (pre : list string) :
  read_through pre = true →
  help (options (parseArgs pre)) = false ∧ version (options (parseArgs pre)) = false.
Proof. intros Hpre. by apply (parse_loop_keeps_flags (length pre) initial pre). Qed.

Section WithPlatform.
Variable node : Node.
Variable engine : Engine.
Variable watch_file : option string → M unit.

(** X21. A version flag or a help flag that is read as a flag (in
    particular, not as the value of an option) decides the run, whatever
    else is on the command line: the text is printed and the process ends
    with code 0; no file is looked at and no command is carried out. *)
Theorem main_version_and_help (pre : list string) (h : string) (post : list string)
    (w : World) :
  read_through pre = true →
  (is_version h = true →
   main node engine watch_file (pre ++ h :: post) w = (Exit 0, logged w version_text))
  ∧ (is_help h = true →
     main node engine watch_file (pre ++ h :: post) w
     = (Exit 0, logged w [Log Unstyled help_text])).
Proof.
  intros Hpre. destruct (read_through_unset pre Hpre) as [Hh Hv].
  unfold main, dispatch, parseArgs in *. rewrite !parse_loop_app by done.
  split; intros Hflag; unfold is_version, is_help, is_any, arr_includes in Hflag;
    cbn [existsb] in Hflag; rewrite orb_false_r in Hflag;
    apply orb_true_iff in Hflag as [->%String.eqb_eq| ->%String.eqb_eq];
    cbn [parse_loop is_any arr_includes existsb String.eqb Ascii.eqb Bool.eqb orb
         with_options options set_version set_help version help];
    rewrite ?Hv; reflexivity.
Qed.

(** X22. A command line without a story file (no argument without a
    leading dash that ends in [.ink], [.json], [.txt] or [.md]), without a
    help or version flag and without the words [watch] and [replay] gets
    the help text and exit code 1, whatever else it holds. *)
Theorem main_without_story (argv : list string) (w : World) :
  Forall (λ a, story_file a = false) argv →
  Forall (λ a, asks_text a = false) argv →
  "watch" ∉ argv → "replay" ∉ argv →
  main node engine watch_file argv w = (Exit 1, logged w [Log Unstyled help_text]).
Proof.
  intros Hstory Htext Hwatch Hreplay.
  destruct (parseArgs_picked argv) as (Hc & Hf & _ & _ & Hh & Hv).
  rewrite Forall_forall in Hstory, Htext.
  assert (file (parseArgs argv) = None) as Hfile.
  { destruct (file (parseArgs argv)) as [f|]; [|done].
    destruct (Hf f eq_refl) as (Hin & Hs & Hw).
    specialize (Hstory f Hin). unfold story_file in Hstory. by rewrite Hs, Hw in Hstory. }
  assert (help (options (parseArgs argv)) = false) as Hhelp.
  { destruct (help (options (parseArgs argv))); [|done].
    apply Exists_exists in Hh as (a & Ha & Hhelp); [|done].
    specialize (Htext a Ha). unfold asks_text in Htext. by rewrite Hhelp in Htext. }
  assert (version (options (parseArgs argv)) = false) as Hver.
  { destruct (version (options (parseArgs argv))); [|done].
    apply Exists_exists in Hv as (a & Ha & Hver'); [|done].
    specialize (Htext a Ha). unfold asks_text in Htext.
    rewrite Hver', orb_true_r in Htext. done. }
  assert (command (parseArgs argv) ≠ Some Watch
          ∧ command (parseArgs argv) ≠ Some Replay) as [Hnw Hnr].
  { split; intros Hcmd; destruct (Hc _ Hcmd) as (a & Ha & Hof);
      unfold command_of in Hof;
      repeat match type of Hof with
      | (if String.eqb a ?s then _ else _) = _ =>
          destruct (String.eqb_spec a s) as [->|]; [done|]
      end; done. }
  unfold main, dispatch. cbv zeta. rewrite Hver, Hhelp, Hfile.
  destruct (command (parseArgs argv)) as [[]|]; done.
Qed.


(** X24. The handler of [main] is reached only from the watch mode: when
    the watch mode throws nothing, nothing that [main] runs throws, so the
    line [Error: ...] of [main] is never printed. *)
Theorem main_catch_only_for_watch (argv : list string) (w : World) :
  (∀ f, never_throws (watch_file f)) →
  main node engine watch_file argv w = dispatch node engine watch_file argv w
  ∧ ∀ msg w', dispatch node engine watch_file argv w ≠ (Throw msg, w').
Proof.
  intros Hwatch.
  assert (never_throws (dispatch node engine watch_file argv)) as Hsafe.
  { assert (∀ es code, never_throws (_ ← emit_all es; @exit unit code)) as Hall.
    { intros es code w0 msg w'. done. }
    assert (∀ e code, never_throws (_ ← emit e; @exit unit code)) as Hone.
    { intros e code w0 msg w'. done. }
    unfold dispatch. cbv zeta.
    destruct (version _); [apply Hall|]. destruct (help _); [apply Hone|].
    destruct (command _) as [[]|], (file _) as [f|]; try apply Hone; try apply Hwatch;
      try apply runFile_safe; try apply replay_safe.
    - destruct (endsWith ".ink" f); [apply compile_safe|apply runFile_safe].
    - unfold replay_undefined. apply bind_never_throws; [apply emit_never_throws|].
      intros _. apply try_catch_never_throws. intros msg.
      unfold on_restore_error. apply Hone. }
  split; [by apply try_catch_same|]. intros msg w'. apply Hsafe.
Qed.

End WithPlatform.

Local Abbreviation no_watch := (λ _ : option string, mret ()).

Lemma main_version_and_help_witness :
  main Samples.linux Samples.lenient no_watch
    (["-o"; "--help"; "run"; "-v"] ++ "--version" :: ["--help"; "story.ink"])
    Samples.door_story
  = (Exit 0, logged Samples.door_story version_text)
  ∧ main Samples.linux Samples.lenient no_watch
      (["run"; "--save"; "-V"] ++ "-h" :: ["--version"; "story.ink"]) Samples.door_story
    = (Exit 0, logged Samples.door_story [Log Unstyled help_text]).
Proof.
  split.
  - apply (main_version_and_help Samples.linux Samples.lenient no_watch
             ["-o"; "--help"; "run"; "-v"] "--version" ["--help"; "story.ink"]
             Samples.door_story).
    + reflexivity.
    + reflexivity.
  - apply (main_version_and_help Samples.linux Samples.lenient no_watch
             ["run"; "--save"; "-V"] "-h" ["--version"; "story.ink"] Samples.door_story).
    + reflexivity.
    + reflexivity.
Defined.

Lemma main_without_story_witness :
  main Samples.linux Samples.lenient no_watch
    ["compile"; "-o"; "out"; "story.INK"; "-vv"] Samples.door_story
  = (Exit 1, logged Samples.door_story [Log Unstyled help_text]).
Proof.
  apply (main_without_story Samples.linux Samples.lenient no_watch
           ["compile"; "-o"; "out"; "story.INK"; "-vv"] Samples.door_story).
  - apply (bool_decide_unpack _). vm_compute. reflexivity.
  - by repeat constructor.
  - apply (bool_decide_unpack _). vm_compute. reflexivity.
  - apply (bool_decide_unpack _). vm_compute. reflexivity.
Defined.


Lemma main_catch_only_for_watch_witness :
  main Samples.linux Samples.lenient no_watch ["watch"; "story.ink"] Samples.door_story
  = (Ret (), Samples.door_story).
Proof.
  destruct (main_catch_only_for_watch Samples.linux Samples.lenient no_watch
              ["watch"; "story.ink"] Samples.door_story) as [Hmain _].
  - intros f w msg w'. discriminate.
  - rewrite Hmain. reflexivity.
Defined.

End MainFacts.


(** ** More on the text interpreter *)

Module TextStoryMoreFacts.

Import Js TextStory TextStorySpec TextStoryMore JsFacts TextStoryFacts.

Lemma parse_line_before_markers (allSections : list string) (line : string) :
  is_marker line = false →
  parse_line (MkParser empty_story "" allSections) line
  = MkParser empty_story "" allSections.
Proof. intros Hm. unfold parse_line. by rewrite Hm. Qed.

(** X25. The lines before the first marker belong to no section: the
    parser drops them, whatever they are. *)
Theorem lines_before_first_marker_dropped (pre rest : list string) :
  Forall (λ l, is_marker l = false) pre →
  parse_lines (pre ++ rest) = parse_lines rest.
Proof.
  intros Hpre. unfold parse_lines. rewrite foldl_app. f_equal.
  induction Hpre as [|l pre Hl Hpre IH]; [done|].
  cbn [foldl]. by rewrite parse_line_before_markers.
Qed.

Lemma lines_before_first_marker_dropped_witness :
  parse_lines (["A tale."; "* [Go] -> start"] ++ ["=== start ==="; "Here."])
  = parse_lines ["=== start ==="; "Here."].
Proof.
  apply (lines_before_first_marker_dropped ["A tale."; "* [Go] -> start"]
           ["=== start ==="; "Here."]).
  by repeat constructor.
Defined.

Lemma section_lines_unopened n lines :
  n ≠ "" →
  Forall (λ x, is_marker x = true → marker_name x ≠ n) lines →
  section_lines (story (parse_lines lines)) n = None.
Proof.
  intros Hn Hall. unfold parse_lines.
  rewrite parse_elsewhere; [|by cbn|done].
  cbn [story]. unfold section_lines, empty_story. cbn [own proto_lines].
  by destruct (String.eqb n "__proto__").
Qed.

(** X26. A text story in which no marker opens the section [start] (the
    name is compared as it is written, after trimming) is not an error:
    the missing section is reported in red, the footer follows, and
    [runTextStory] returns; no prompt is shown and no answer is
    consumed.  This is so whatever other sections the file opens. *)
Theorem runTextStory_without_start (filePath content : string) (w : World) :
  files w !! filePath = Some content →
  Forall (opens_another "start") (content_lines content) →
  Cli.runTextStory filePath w
  = (Ret (),
     logged w ([ ReadFile filePath;
                 Log CyanBright (nl +:+ "📖 Loaded: " +:+ filePath +:+ nl);
                 Log Red (not_found_message "start") ]
               ++ Presenter.printFooter)).
Proof.
  intros Hfile Hall.
  assert (play (parse content) (inputs w) (Name "start")
          = MkRun [Log Red (not_found_message "start")] (Ret (Name "start")) (inputs w))
    as Hplay.
  { apply missing_start_reported.
    apply (section_lines_unopened "start" (content_lines content)); done. }
  unfold Cli.runTextStory, readFileSync. CompilerFacts.run_effects. rewrite Hfile.
  cbv beta iota. cbn [files inputs trace]. rewrite Hplay. cbn [ending unread events].
  unfold logged. cbn [files inputs trace]. rewrite <- !app_assoc. reflexivity.
Qed.

Lemma runTextStory_without_start_witness :
  (Cli.runTextStory "/home/player/games/tale.txt"
     (Samples.world_of [("/home/player/games/tale.txt", story_without_start)]
        [Typed "Go on"])).1
  = Ret ().
Proof.
  rewrite (runTextStory_without_start "/home/player/games/tale.txt" story_without_start
             (Samples.world_of [("/home/player/games/tale.txt", story_without_start)]
                [Typed "Go on"])).
  - reflexivity.
  - reflexivity.
  - apply (bool_decide_unpack _). vm_compute. reflexivity.
Defined.

Lemma prompts_app es es' : prompts (es ++ es') = prompts es + prompts es'.
Proof. unfold prompts. by rewrite filter_app, length_app. Qed.

Lemma prompts_printed lines : prompts (map (Log White) lines) = 0.
Proof. induction lines as [|l lines IH]; [done|]. exact IH. Qed.

Lemma prompts_ended lines :
  prompts (map (Log White) lines ++ [Log Gray end_of_section]) = 0.
Proof. rewrite prompts_app, prompts_printed. reflexivity. Qed.

Lemma prompts_shown lines : prompts (shown lines) = 1.
Proof. unfold shown. rewrite prompts_app, prompts_printed. reflexivity. Qed.

(** X27. The play loop asks before it reads: the answers it leaves unread
    are a tail of the answers it was given, and the number of prompts it
    has shown is the number of answers it has consumed, plus one when it
    is waiting for an answer. *)
Theorem play_prompts_and_answers (st : Story) (inputs : list Input) (current : Current) :
  let r := play st inputs current in
  unread r `suffix_of` inputs
  ∧ prompts (events r) + length (unread r) = length inputs + pending (ending r).
Proof.
  cbv zeta. revert current.
  induction inputs as [|selection rest IH]; intros current.
  - destruct (story_get st (current_key current)) as [lines| |] eqn:Hget.
    + rewrite (play_section _ _ _ _ Hget).
      destruct (choices_of lines) eqn:Hc; cbn [unread events ending pending].
      * rewrite prompts_ended. done.
      * by rewrite prompts_shown.
    + by rewrite (play_missing _ _ _ Hget).
    + cbn [play]. by rewrite Hget.
  - destruct (story_get st (current_key current)) as [lines| |] eqn:Hget.
    + rewrite (play_section _ _ _ _ Hget).
      destruct (choices_of lines) eqn:Hc.
      { cbn [unread events ending pending].
        rewrite prompts_ended. split; [done|]. cbn. lia. }
      destruct (array_get _ selection) as [selected|];
        [destruct (is_quit selected)|]; cbn [unread events ending pending].
      * rewrite prompts_shown. split; [by apply suffix_cons_r|]. cbn. lia.
      * destruct (IH (next_section (targets_of lines) selected current)) as [Hs Hn].
        cbv zeta. cbn [unread events ending].
        rewrite prompts_app, prompts_shown. split; [by apply suffix_cons_r|].
        cbn [length]. lia.
      * rewrite prompts_shown. split; [by apply suffix_cons_r|]. cbn. lia.
    + rewrite (play_missing _ _ _ Hget). cbn [unread events ending pending].
      split; [done|]. change (prompts [_]) with 0. lia.
    + cbn [play]. rewrite Hget. cbn. split; [done|lia].
Qed.

Lemma targets_set_other k v t text :
  k ≠ text → targets_set k v t !! text = t !! text.
Proof.
  intros Hne. unfold targets_set. destruct (String.eqb k "__proto__"); [done|].
  by rewrite lookup_insert_ne.
Qed.

Lemma extract_all_other text after : ∀ acc,
  Forall (λ c, ∀ t, extract c ≠ Some (text, t)) after →
  (foldl extract_step acc after).2 !! text = acc.2 !! text.
Proof.
  induction after as [|c after IH]; intros acc Hall; [done|].
  apply Forall_cons in Hall as [Hc Hall]. cbn [foldl]. rewrite IH by done.
  unfold extract_step. destruct (extract c) as [[text' target']|] eqn:Hx; [|done].
  cbn [snd]. apply targets_set_other. intros ->. by apply (Hc target').
Qed.

(** X28. When several choice lines of a section give the same text, the
    target of that text is the target of the last of them: whichever of
    the equal entries the player takes, the story goes to that section. *)
Theorem last_target_wins (lines before : list string) (c : string)
    (after : list string) (text target : string) :
  choiceLines lines = before ++ c :: after →
  extract c = Some (text, target) →
  text ≠ "__proto__" →
  Forall (λ c', ∀ t, extract c' ≠ Some (text, t)) after →
  targets_of lines !! text = Some target.
Proof.
  intros Hlines Hc Hproto Hafter. unfold targets_of, extract_all.
  rewrite Hlines, foldl_app. cbn [foldl]. rewrite extract_all_other by done.
  unfold extract_step at 1. rewrite Hc. cbn [snd]. unfold targets_set.
  apply String.eqb_neq in Hproto. rewrite Hproto. apply lookup_insert_eq.
Qed.

Lemma last_target_wins_witness :
  choices_of twin_choices = ["Open"; "Look"; "Open"]
  ∧ targets_of twin_choices !! "Open" = Some "attic".
Proof.
  split; [vm_compute; reflexivity|].
  apply (last_target_wins twin_choices ["* [Open] -> cellar"; "* [Look] -> window"]
           "* [Open] -> attic" [] "Open" "attic").
  - vm_compute. reflexivity.
  - vm_compute. reflexivity.
  - discriminate.
  - constructor.
Defined.

Lemma section_lines_push n m line st :
  section_lines (story_push m line st) n
  = if String.eqb n m then (λ l, l ++ [line]) <$> section_lines st n
    else section_lines st n.
Proof.
  destruct (String.eqb_spec n m) as [->|Hne]; [|by apply section_lines_push_other].
  unfold section_lines, story_push.
  destruct (String.eqb m "__proto__"); cbn [own proto_lines]; [done|].
  by rewrite lookup_alter_eq.
Qed.

(** What the sections hold, as an invariant of the parser: lines the
    parser has read, none of them a marker. *)
Local Abbreviation kept seen p :=
  (∀ n ls, section_lines (story p) n = Some ls →
           Forall (λ l, l ∈ seen ∧ is_marker l = false) ls).

Lemma parse_line_kept (seen : list string) (p : Parser) (x : string) :
  kept seen p → kept (seen ++ [x]) (parse_line p x).
Proof.
  intros Hp.
  assert (kept (seen ++ [x]) p) as Hp'.
  { intros n ls Hls. eapply Forall_impl; [by apply (Hp n ls)|].
    intros l [Hl Hm]. split; [|done]. apply elem_of_app. by left. }
  intros n ls. unfold parse_line.
  destruct (is_marker x) eqn:Hm; cbn [story].
  - destruct (decide (n = marker_name x)) as [->|Hne].
    + rewrite section_lines_reset_same. by intros [= <-].
    + rewrite section_lines_reset_other by done. apply (Hp' n ls).
  - destruct (truthy (currentSection p) && truthy (trim x)); [|apply (Hp' n ls)].
    cbn [story]. rewrite section_lines_push.
    destruct (String.eqb n (currentSection p)); [|apply (Hp' n ls)].
    destruct (section_lines (story p) n) as [l|] eqn:Hl; [|done].
    intros [= <-]. apply Forall_app. split; [by apply (Hp' n l)|].
    constructor; [|done]. split; [|done]. apply elem_of_app. right. by left.
Qed.

Lemma parse_kept (rest : list string) : ∀ seen p,
  kept seen p → kept (seen ++ rest) (foldl parse_line p rest).
Proof.
  induction rest as [|x rest IH]; intros seen p Hp.
  - by rewrite app_nil_r.
  - cbn [foldl]. rewrite (cons_middle x seen rest), app_assoc.
    apply IH. by apply parse_line_kept.
Qed.

(** X29. Every line a section of the parsed story holds is a line of the
    file that is not blank and is not a marker; this holds for every
    section name, the names that JavaScript treats specially included. *)
Theorem section_lines_from_content (content n : string) (lines : list string) :
  section_lines (parse content) n = Some lines →
  Forall (λ l, l ∈ split_nl content ∧ truthy (trim l) = true ∧ is_marker l = false)
         lines.
Proof.
  intros Hn.
  assert (kept ([] ++ content_lines content) (parse_lines (content_lines content)))
    as Hkept.
  { apply parse_kept. intros m ls. unfold section_lines. cbn.
    by destruct (String.eqb m "__proto__"). }
  eapply Forall_impl; [by apply (Hkept n lines)|].
  intros l [Hl Hm]. cbn [app] in Hl. unfold content_lines in Hl.
  apply list_elem_of_filter in Hl as [Hb Hl]. done.
Qed.

Lemma section_lines_from_content_witness :
  Forall (λ l, l ∈ split_nl story_twice ∧ truthy (trim l) = true ∧ is_marker l = false)
         ["A bright cave."].
Proof.
  apply (section_lines_from_content story_twice "cave" ["A bright cave."]).
  vm_compute. reflexivity.
Defined.

End TextStoryMoreFacts.

